(** * Perfect codes in generalized Lucas cubes

    A shallow embedding of the Python sources of the repository
    (core/lucas_cube.py, core/search_utils.py, core/code_utils.py,
    ga_solver/ga_search.py, ga_solver/memetic_search.py and the strategies
    strategy_1_shift_search.py, strategy_3_hybrid.py and
    strategy_4_simulated_annealing.py) together with the properties of these
    programs that the specification states.

    Conventions of the embedding:
    - a Python [str] is a [list ascii]; [py "010"] writes a literal;
    - a Python [set] of strings is a [gset str];
    - a call that can raise returns a [result]: [Ok v] or [Raise e];
    - Python integers that count things are [nat], other integers are [Z];
    - the temperature of the annealing schedule is a Python float: a binary64
      number [float], multiplied as the machine multiplies it; the mutation
      rates and the theoretical code size, which enter comparisons and
      [int()] only, are rationals [Q];
    - the draws of the [random] module and the iteration order of sets are
      read from an oracle, so that a search is a function of its oracle. *)

From Stdlib Require Import Ascii String ZArith QArith Lia.
From Stdlib Require Import Floats.PrimFloat.
From Stdlib Require Floats.SpecFloat Floats.FloatOps.
From stdpp Require Import gmap strings list.

Set Warnings "-inexact-float".

Local Open Scope char_scope.
Local Open Scope nat_scope.

(** ** Strings and exceptions *)

Abbreviation str := (list ascii).

Definition py (s : string) : str := list_ascii_of_string s.

Inductive exn : Set :=
| ValueError
| IndexError
| ZeroDivisionError.

Inductive result (A : Type) : Type :=
| Ok (a : A)
| Raise (e : exn).
Arguments Ok {A} a.
Arguments Raise {A} e.

Global Instance exn_eq_dec : EqDecision exn.
Proof. solve_decision. Defined.
Global Instance result_eq_dec `{EqDecision A} : EqDecision (result A).
Proof. solve_decision. Defined.

(** [pattern in bits] on Python strings: [pattern] occurs at some offset. *)
Fixpoint str_startswith (pattern bits : str) : bool :=
  match pattern, bits with
  | [], _ => true
  | _ :: _, [] => false
  | p :: pattern', b :: bits' =>
      if Ascii.eqb p b then str_startswith pattern' bits' else false
  end.

Fixpoint str_in (pattern bits : str) : bool :=
  if str_startswith pattern bits then true
  else match bits with
       | [] => false
       | _ :: bits' => str_in pattern bits'
       end.

(** [format(i, '0{n}b')]: the binary digits of [i], most significant first,
    padded on the left with '0' up to width [n]. *)
Fixpoint bin_pos (p : positive) (acc : str) : str :=
  match p with
  | xH => "1" :: acc
  | xO q => bin_pos q ("0" :: acc)
  | xI q => bin_pos q ("1" :: acc)
  end.

Definition bin (i : N) : str :=
  match i with
  | N0 => ["0"]
  | Npos p => bin_pos p []
  end.

Definition format_0b (n : nat) (i : N) : str :=
  replicate (n - length (bin i)) "0" ++ bin i.

(** [range(k)] for a non-negative bound. *)
Definition range (k : N) : list N := map N.of_nat (seq 0 (N.to_nat k)).

(** ** core/lucas_cube.py *)

Module lucas_cube.

Record GeneralizedLucasCube : Set := mkCube { n : nat; s : nat }.

(** [__init__]: the parameters are checked, nothing else is computed. *)
Definition __init__ (n s : Z) : result GeneralizedLucasCube :=
  if negb (0 <? n)%Z then Raise ValueError
  else if negb (1 <? s)%Z then Raise ValueError
  else Ok (mkCube (Z.to_nat n) (Z.to_nat s)).

Definition forbidden_pattern (G : GeneralizedLucasCube) : str :=
  replicate (s G) "1".

Definition _has_forbidden_substring (bits pattern : str) : bool :=
  let n_len := length bits in
  let s_len := length pattern in
  if n_len <? s_len then false
  else if str_in pattern bits then true
  else if 1 <? s_len then
    (* here s_len <= n_len, so the slice start is not negative *)
    let seam_str := drop (n_len - s_len + 1) bits ++ take (s_len - 1) bits in
    if str_in pattern seam_str then true else false
  else false.

Definition _generate_vertices (G : GeneralizedLucasCube) : list str :=
  filter (λ bits, _has_forbidden_substring bits (forbidden_pattern G) = false)
         (map (format_0b (n G)) (range (N.shiftl 1 (N.of_nat (n G))))).

(** The two cached properties; the cache does not change what they return. *)
Definition vertices (G : GeneralizedLucasCube) : list str :=
  _generate_vertices G.

Definition vertex_set (G : GeneralizedLucasCube) : gset str :=
  list_to_set (vertices G).

Definition __contains__ (G : GeneralizedLucasCube) (bits : str) : bool :=
  bool_decide (bits ∈ vertex_set G).

Definition __len__ (G : GeneralizedLucasCube) : nat :=
  length (vertices G).

(** ['1' if bits[i] == '0' else '0'] *)
Definition flip_bit (b : ascii) : ascii :=
  if Ascii.eqb b "0" then "1" else "0".

(** The loop of [get_neighbors] over the positions [idxs], with the list built
    so far.  [bits[i]] raises IndexError when [i] is past the end. *)
Fixpoint get_neighbors_loop (G : GeneralizedLucasCube) (bits : str)
    (idxs : list nat) (neighbors : list str) : result (list str) :=
  match idxs with
  | [] => Ok neighbors
  | i :: idxs' =>
      match bits !! i with
      | None => Raise IndexError
      | Some b =>
          let neighbor := <[i := flip_bit b]> bits in
          get_neighbors_loop G bits idxs'
            (if __contains__ G neighbor then neighbors ++ [neighbor]
             else neighbors)
      end
  end.

Definition get_neighbors (G : GeneralizedLucasCube) (bits : str)
    : result (list str) :=
  get_neighbors_loop G bits (seq 0 (n G)) [].

Definition get_closed_neighborhood (G : GeneralizedLucasCube) (bits : str)
    : result (list str) :=
  if negb (__contains__ G bits) then Ok []
  else match get_neighbors G bits with
       | Ok neighbors => Ok (bits :: neighbors)
       | Raise e => Raise e
       end.

End lucas_cube.

Export lucas_cube.

(** Python's true division of two non-negative integers, kept exact. *)
Definition true_div (a b : nat) : Q := Z.of_nat a # Pos.of_nat b.

(** ** core/search_utils.py *)

Module search_utils.

Record PerfectCodeSearcher : Set := mkSearcher { cube : GeneralizedLucasCube }.

(** [self.V = cube.vertex_set] *)
Definition V (self : PerfectCodeSearcher) : gset str := vertex_set (cube self).

(** The [for codeword in C] loop of [is_perfect_code]; a [return] inside the
    loop ends it with that value. *)
Fixpoint is_perfect_code_loop (self : PerfectCodeSearcher) (C : list str)
    (covered_vertices : gset str) : result bool :=
  match C with
  | [] => Ok (bool_decide (covered_vertices = V self))
  | codeword :: C' =>
      if negb (bool_decide (codeword ∈ V self)) then Ok false
      else match get_neighbors (cube self) codeword with
           | Raise e => Raise e
           | Ok neighbors =>
               let neighborhood : gset str :=
                 {[codeword]} ∪ list_to_set neighbors in
               if negb (bool_decide (covered_vertices ## neighborhood))
               then Ok false
               else is_perfect_code_loop self C'
                      (covered_vertices ∪ neighborhood)
           end
  end.

Definition is_perfect_code (self : PerfectCodeSearcher) (C : list str)
    : result bool :=
  match C with
  | [] => Ok false
  | _ => is_perfect_code_loop self C ∅
  end.

(** [len(self.V) / (self.n + 1)], a true division. *)
Definition get_theoretical_code_size (self : PerfectCodeSearcher) : Q :=
  true_div (size (V self)) (n (cube self) + 1).

End search_utils.
Export search_utils.

(** ** core/code_utils.py *)

Module code_utils.

Definition _xor_bits (a b : str) : str :=
  zip_with (λ x y, if Ascii.eqb x y then "0" else "1") a b.

(** The inner loop of [generate_hamming_code], from position [j] on:
    [for j, bit in enumerate(bits): if bit == '1': syndrome ^= (j + 1)]. *)
Fixpoint syndrome_loop (j : nat) (bits : str) (syndrome : N) : N :=
  match bits with
  | [] => syndrome
  | bit :: bits' =>
      syndrome_loop (S j) bits'
        (if Ascii.eqb bit "1" then N.lxor syndrome (N.of_nat (j + 1))
         else syndrome)
  end.

(** For a negative [r] Python computes [2**r] as a float below 1, so that
    [n <= 0] holds as it does for the integer [-1] here. *)
Definition generate_hamming_code (r : Z) : result (list str) :=
  let n := (2 ^ r - 1)%Z in
  if (n <=? 0)%Z then Raise ValueError
  else
    Ok (filter (λ bits, syndrome_loop 0 bits 0 = 0%N)
          (map (format_0b (Z.to_nat n)) (range (N.shiftl 1 (Z.to_N n))))).

Definition get_hamming_distance (s1 s2 : str) : result nat :=
  if negb (length s1 =? length s2) then Raise ValueError
  else Ok (length (filter (λ p, p.1 ≠ p.2) (zip s1 s2))).

Definition create_coset (code : list str) (shift_vector : str)
    : result (list str) :=
  match code with
  | [] => Ok []
  | code0 :: _ =>
      if negb (length shift_vector =? length code0) then Raise ValueError
      else Ok (map (λ cw, _xor_bits cw shift_vector) code)
  end.

End code_utils.
Export code_utils.

(** ** Errors and the choices the programs leave open

    The search engines call Python's [random] module and iterate over Python
    sets, whose order is unspecified.  Both are answered by an oracle: an
    infinite tape of numbers read from left to right.  A computation of the
    engines takes the oracle, and returns a value with the rest of the oracle,
    or raises. *)

Global Instance result_ret : MRet result := λ A a, Ok a.
Global Instance result_bind : MBind result := λ A B f r,
  match r with
  | Ok a => f a
  | Raise e => Raise e
  end.

Record oracle : Type := mkOracle { tape : nat → N; pos : nat }.

Definition M (A : Type) : Type := oracle → result (A * oracle).

Global Instance M_ret : MRet M := λ A a o, Ok (a, o).
Global Instance M_bind : MBind M := λ A B f m o,
  match m o with
  | Ok (a, o') => f a o'
  | Raise e => Raise e
  end.

Definition raise {A} (e : exn) : M A := λ _, Raise e.

Definition lift {A} (r : result A) : M A := λ o,
  match r with
  | Ok a => Ok (a, o)
  | Raise e => Raise e
  end.

Definition draw : M N := λ o,
  Ok (tape o (pos o), mkOracle (tape o) (S (pos o))).

(** [seq[i]] for a list and a non-negative index. *)
Definition getitem {A} (l : list A) (i : nat) : result A :=
  match l !! i with
  | Some a => Ok a
  | None => Raise IndexError
  end.

(** [for x in xs: body], the loop variables are threaded as [st]. *)
Fixpoint for_each {A St} (xs : list A) (body : A → St → M St) (st : St)
    : M St :=
  match xs with
  | [] => mret st
  | x :: xs' => st' ← body x st; for_each xs' body st'
  end.

(** The same loop for code that only raises. *)
Fixpoint for_each_r {A St} (xs : list A) (body : A → St → result St)
    (st : St) : result St :=
  match xs with
  | [] => Ok st
  | x :: xs' => st' ← body x st; for_each_r xs' body st'
  end.

(** [for i in range(k)] whose body may [return] from the enclosing function.
    The loop ends [Exhausted] when no index is left, or [Returned] in pass
    [i]; an exhausted loop tells the index it stopped at, which is the number
    of passes it made. *)
Inductive step_end (St R : Type) : Type :=
| Continue (st : St)
| Return (r : R).
Arguments Continue {St R} st.
Arguments Return {St R} r.

Inductive loop_end (St R : Type) : Type :=
| Exhausted (i : nat) (st : St)
| Returned (i : nat) (r : R).
Arguments Exhausted {St R} i st.
Arguments Returned {St R} i r.

Fixpoint for_range {St R} (body : nat → St → M (step_end St R))
    (i k : nat) (st : St) : M (loop_end St R) :=
  match k with
  | 0 => mret (Exhausted i st)
  | S k' =>
      r ← body i st;
      match r with
      | Continue st' => for_range body (S i) k' st'
      | Return v => mret (Returned i v)
      end
  end.

(** What [run] reports: the code it returns ([None] is failure) and, as the
    progress lines of the source show, how many passes of its loop began. *)
Record report : Type := mkReport { found : option (list str); passes : nat }.

Definition report_of {St} (e : loop_end St (list str)) : report :=
  match e with
  | Exhausted i _ => mkReport None i
  | Returned i final_code => mkReport (Some final_code) (S i)
  end.

(** *** The [random] module *)

Module random.

(** A uniform integer below [k]; every value below [k] can be drawn. *)
Definition _randbelow (k : nat) : M nat :=
  x ← draw; mret (N.to_nat x mod k).

Definition randrange (k : nat) : M nat :=
  if k =? 0 then raise ValueError else _randbelow k.

(** [randint(a, b)] is [randrange(a, b + 1)]: an empty range is an error. *)
Definition randint (a b : Z) : M Z :=
  if (b <? a)%Z then raise ValueError
  else j ← _randbelow (Z.to_nat (b - a + 1)); mret (a + Z.of_nat j)%Z.

(** [random()] is a multiple of 2^-53 in [0, 1). *)
Definition random : M Q :=
  x ← draw; mret (Z.of_N (x mod 2 ^ 53) # 2 ^ 53).

Definition choice {A} (seq : list A) : M A :=
  match seq with
  | [] => raise IndexError
  | _ => j ← _randbelow (length seq); lift (getitem seq j)
  end.

(** [sample(population, k)] in its pool form: [k] times, take a random live
    entry of the pool and move the last live entry into its place. *)
Fixpoint sample_loop {A} (k : nat) (pool result : list A) : M (list A) :=
  match k with
  | 0 => mret result
  | S k' =>
      j ← _randbelow (length pool);
      x ← lift (getitem pool j);
      y ← lift (getitem pool (length pool - 1));
      sample_loop k' (take (length pool - 1) (<[j := y]> pool)) (result ++ [x])
  end.

Definition sample {A} (population : list A) (k : nat) : M (list A) :=
  if length population <? k then raise ValueError
  else sample_loop k population [].

(** [choices(population, weights, k=k)]: the floating-point weights bias the
    draws and are left out; each draw may be any entry. *)
Definition choices {A} (population : list A) (k : nat) : M (list A) :=
  for_each (seq 0 k)
    (λ _ picked, x ← choice population; mret (picked ++ [x])) [].

End random.

(** [list(X)] and [for x in X] on a set: some order of its elements. *)
Definition list_of_set (X : gset str) : M (list str) :=
  random.sample (elements X) (size X).

(** [r < p] for the rationals of the embedding. *)
Definition Qltb (x y : Q) : bool := negb (Qle_bool y x).

(** [max(l)] and [l.index(x)] on integers. *)
Definition py_max (l : list Z) : result Z :=
  match l with
  | [] => Raise ValueError
  | x :: l' => Ok (foldl Z.max x l')
  end.

Fixpoint py_index (l : list Z) (x : Z) : result nat :=
  match l with
  | [] => Raise ValueError
  | y :: l' => if (y =? x)%Z then Ok 0 else i ← py_index l' x; Ok (S i)
  end.

(** [sorted(pairs, key=lambda p: p[0], reverse=True)]: stable, largest key
    first; pairs with equal keys keep their order. *)
Fixpoint insert_desc {A} (x : Z * A) (l : list (Z * A)) : list (Z * A) :=
  match l with
  | [] => [x]
  | y :: l' => if (y.1 <? x.1)%Z then x :: y :: l' else y :: insert_desc x l'
  end.

Definition sorted_desc {A} (l : list (Z * A)) : list (Z * A) :=
  foldl (λ acc x, insert_desc x acc) [] l.

(** The number of positions where two strings differ, over their common
    length: [sum(1 for i, j in zip(a, b) if i != j)]. *)
Definition zip_dist (a b : str) : nat :=
  length (filter (λ p, p.1 ≠ p.2) (zip a b)).

(** [a < b] on Python strings: lexicographic by code point. *)
Fixpoint str_ltb (a b : str) : bool :=
  match a, b with
  | _, [] => false
  | [], _ :: _ => true
  | x :: a', y :: b' =>
      match Ascii.compare x y with
      | Lt => true
      | Gt => false
      | Eq => str_ltb a' b'
      end
  end.

(** ** ga_solver/ga_search.py *)

Module ga_search.

Record GeneticAlgorithmSearch : Type := mkGA {
  cube : GeneralizedLucasCube;
  searcher : PerfectCodeSearcher;
  population_size : nat;
  generations : nat;
  mutation_rate : Q;
  elitism_k : nat;
  n : nat;
  theoretical_size : nat
}.

Definition __init__ (n s : Z) (population_size generations : nat)
    (mutation_rate : Q) (elitism_k : nat) : result GeneticAlgorithmSearch :=
  cube ← lucas_cube.__init__ n s;
  Ok (mkGA cube (mkSearcher cube) population_size generations mutation_rate
        elitism_k (Z.to_nat n)
        ((length (vertices cube) + Z.to_nat n) / (Z.to_nat n + 1))).

(** The loop of [_calculate_fitness]; the state is
    [(covered_vertices, collisions)]. *)
Definition _calculate_fitness_body (self : GeneticAlgorithmSearch)
    (codeword : str) (st : gset str * nat) : result (gset str * nat) :=
  let '(covered_vertices, collisions) := st in
  neighbors ← get_neighbors (cube self) codeword;
  let neighborhood : gset str := {[codeword]} ∪ list_to_set neighbors in
  Ok (covered_vertices ∪ neighborhood,
      if negb (bool_decide (covered_vertices ## neighborhood))
      then collisions + 1 else collisions).

Definition _calculate_fitness (self : GeneticAlgorithmSearch)
    (code : list str) : result Z :=
  '(covered_vertices, collisions) ←
     for_each_r code (_calculate_fitness_body self) (∅, 0);
  Ok (Z.of_nat (size covered_vertices)
      - Z.of_nat collisions * (Z.of_nat (n self) + 1) * 10)%Z.

Definition _initialize_population (self : GeneticAlgorithmSearch)
    : M (list (list str)) :=
  for_each (seq 0 (population_size self))
    (λ _ population,
       candidate ← random.sample (vertices (cube self)) (theoretical_size self);
       mret (population ++ [candidate]))
    [].

Definition _selection (self : GeneticAlgorithmSearch)
    (population : list (list str)) (fitnesses : list Z)
    : M (list (list str)) :=
  for_each (seq 0 (length population))
    (λ _ selected,
       i ← random.randrange (length population);
       j ← random.randrange (length population);
       fi ← lift (getitem fitnesses i);
       fj ← lift (getitem fitnesses j);
       let winner := if (fj <? fi)%Z then i else j in
       w ← lift (getitem population winner);
       mret (selected ++ [w]))
    [].

Definition _crossover (self : GeneticAlgorithmSearch)
    (parent1 parent2 : list str) : M (list str) :=
  let p1_set : gset str := list_to_set parent1 in
  let p2_set : gset str := list_to_set parent2 in
  gene_pool ← list_of_set (p1_set ∪ p2_set);
  for_each gene_pool
    (λ gene child,
       r ← random.random;
       if Qltb r (1 # 2)
       then mret (if bool_decide (gene ∈ p1_set) then child ++ [gene]
                  else child)
       else mret (if bool_decide (gene ∈ p2_set) then child ++ [gene]
                  else child))
    [].

Definition _mutate (self : GeneticAlgorithmSearch) (code : list str)
    : M (list str) :=
  r ← random.random;
  if Qltb r (mutation_rate self) then
    (* [len(code) > 1 and random.random() < 0.5]: the second draw is made
       only when the first test holds *)
    shrink ← (if 1 <? length code
              then r' ← random.random; mret (Qltb r' (1 # 2))
              else mret false);
    if shrink : bool then
      i ← random.randrange (length code); mret (delete i code)
    else
      new_gene ← random.choice (vertices (cube self));
      mret (if bool_decide (new_gene ∈ code) then code
            else code ++ [new_gene])
  else mret code.

(** The [while len(new_population) < self.population_size] loop: every pass
    appends one child, so it makes [k] passes when [k] children are missing. *)
Fixpoint reproduce (self : GeneticAlgorithmSearch)
    (selected_parents : list (list str)) (k : nat)
    (new_population : list (list str)) : M (list (list str)) :=
  match k with
  | 0 => mret new_population
  | S k' =>
      parents ← random.sample selected_parents 2;
      p1 ← lift (getitem parents 0);
      p2 ← lift (getitem parents 1);
      child ← _crossover self p1 p2;
      child ← _mutate self child;
      reproduce self selected_parents k' (new_population ++ [child])
  end.

(** One pass of the loop of [run]. *)
Definition generation (self : GeneticAlgorithmSearch) (gen : nat)
    (population : list (list str))
    : M (step_end (list (list str)) (list str)) :=
  fitnesses ← lift (mapM (_calculate_fitness self) population);
  best_fitness_in_gen ← lift (py_max fitnesses);
  best_index ← lift (py_index fitnesses best_fitness_in_gen);
  final_code ← lift (getitem population best_index);
  verified ← (if (Z.of_nat (length (vertices (cube self)))
                  <=? best_fitness_in_gen)%Z
              then lift (is_perfect_code (searcher self) final_code)
              else mret false);
  if verified : bool then mret (Return final_code)
  else
    let sorted_population := (sorted_desc (zip fitnesses population)).*2 in
    let new_population := take (elitism_k self) sorted_population in
    selected_parents ← _selection self population fitnesses;
    new_population ←
      reproduce self selected_parents
        (population_size self - length new_population) new_population;
    mret (Continue new_population).

Definition run (self : GeneticAlgorithmSearch) : M report :=
  population ← _initialize_population self;
  e ← for_range (generation self) 0 (generations self) population;
  mret (report_of e).

End ga_search.

(** [set().union] of [cube.get_closed_neighborhood(c)] for the codewords [c]
    of a set: the union of their closed neighbourhoods. *)
Definition union_closed_neighborhoods (G : GeneralizedLucasCube)
    (code_set : gset str) : result (gset str) :=
  hoods ← mapM (get_closed_neighborhood G) (elements code_set);
  Ok (⋃ (list_to_set <$> hoods)).

(** ** ga_solver/memetic_search.py *)

Module memetic_search.

Record MemeticAlgorithmSearch : Type := mkMA {
  cube : GeneralizedLucasCube;
  searcher : PerfectCodeSearcher;
  population_size : nat;
  generations : nat;
  mutation_rate : Q;
  elitism_k : nat;
  local_search_steps : nat;
  n : nat;
  theoretical_size : nat
}.

Definition __init__ (n s : Z) (population_size generations : nat)
    (mutation_rate : Q) (elitism_k local_search_steps : nat)
    : result MemeticAlgorithmSearch :=
  cube ← lucas_cube.__init__ n s;
  Ok (mkMA cube (mkSearcher cube) population_size generations mutation_rate
        elitism_k local_search_steps (Z.to_nat n)
        ((length (vertices cube) + Z.to_nat n) / (Z.to_nat n + 1))).

(** The loop of [_calculate_fitness]; the state is
    [(covered_vertices, collisions)].  The inner loop over [code_set] only
    counts, so the order in which the set is visited does not matter. *)
Definition _calculate_fitness_body (self : MemeticAlgorithmSearch)
    (code_set : gset str) (codeword : str) (st : gset str * nat)
    : result (gset str * nat) :=
  let '(covered_vertices, collisions) := st in
  neighbors ← get_neighbors (cube self) codeword;
  let neighborhood : gset str := {[codeword]} ∪ list_to_set neighbors in
  let hits :=
    length (filter (λ other_cw, codeword ≠ other_cw
                                ∧ zip_dist codeword other_cw < 3)
                   (elements code_set)) in
  Ok (covered_vertices ∪ neighborhood, collisions + hits).

Definition _calculate_fitness (self : MemeticAlgorithmSearch)
    (code : list str) : result (Z * nat * nat) :=
  let code_set : gset str := list_to_set code in
  '(covered_vertices, collisions) ←
     for_each_r code (_calculate_fitness_body self code_set) (∅, 0);
  let uncovered_count := size (vertex_set (cube self) ∖ covered_vertices) in
  let fitness :=
    (Z.of_nat (size covered_vertices)
     - Z.of_nat uncovered_count * Z.of_nat (n self)
     - Z.of_nat (collisions / 2) * Z.of_nat (n self) * 10)%Z in
  Ok (fitness, uncovered_count, collisions / 2).

(** One pass of the loop of [_local_search_optimizer]. *)
Definition _local_search_step (self : MemeticAlgorithmSearch)
    (current_code : gset str) : M (gset str) :=
  order ← list_of_set current_code;
  let colliding_pairs :=
    cw1 ← order;
    filter (λ p, str_ltb p.1 p.2 = true ∧ zip_dist p.1 p.2 < 3)
           ((λ cw2, (cw1, cw2)) <$> order) in
  match colliding_pairs with
  | _ :: _ =>
      pair ← random.choice colliding_pairs;
      cw_to_remove ← random.choice [pair.1; pair.2];
      mret (current_code ∖ {[cw_to_remove]})
  | [] =>
      all_covered ←
        lift (union_closed_neighborhoods (search_utils.cube (searcher self))
                current_code);
      let uncovered := vertex_set (cube self) ∖ all_covered in
      if bool_decide (uncovered = ∅) then mret current_code
      else
        candidates ← list_of_set uncovered;
        vertex_to_cover ← random.choice candidates;
        potential_adds ←
          lift (get_closed_neighborhood (cube self) vertex_to_cover);
        match potential_adds with
        | [] => mret current_code
        | _ => new_cw ← random.choice potential_adds;
               mret (current_code ∪ {[new_cw]})
        end
  end.

Definition _local_search_optimizer (self : MemeticAlgorithmSearch)
    (code : list str) : M (list str) :=
  current_code ←
    for_each (seq 0 (local_search_steps self))
      (λ _ current_code, _local_search_step self current_code)
      (list_to_set code);
  list_of_set current_code.

Definition _initialize_population (self : MemeticAlgorithmSearch)
    : M (list (list str)) :=
  for_each (seq 0 (population_size self))
    (λ _ population,
       candidate ← random.sample (vertices (cube self)) (theoretical_size self);
       mret (population ++ [candidate]))
    [].

Definition _selection (self : MemeticAlgorithmSearch)
    (population : list (list str)) (fitnesses : list (Z * nat * nat))
    : M (list (list str)) :=
  let total_fitness := foldr Z.add 0%Z (fitnesses.*1.*1) in
  if (total_fitness =? 0)%Z then
    for_each population
      (λ _ picked, x ← random.choice population; mret (picked ++ [x])) []
  else random.choices population (population_size self).

Definition _crossover (self : MemeticAlgorithmSearch)
    (parent1 parent2 : list str) : M (list str) :=
  point ← random.randint 1
            (Z.of_nat (min (length parent1) (length parent2)) - 1);
  mret (take (Z.to_nat point) parent1 ++ drop (Z.to_nat point) parent2).

Definition _mutate (self : MemeticAlgorithmSearch) (code : list str)
    : M (list str) :=
  r ← random.random;
  if Qltb r (mutation_rate self) then
    shrink ← (match code with
              | [] => mret false
              | _ => r' ← random.random; mret (Qltb r' (1 # 2))
              end);
    if shrink : bool then
      i ← random.randrange (length code); mret (delete i code)
    else
      new_gene ← random.choice (vertices (cube self));
      mret (code ++ [new_gene])
  else mret code.

Fixpoint reproduce (self : MemeticAlgorithmSearch)
    (selected : list (list str)) (k : nat)
    (new_population : list (list str)) : M (list (list str)) :=
  match k with
  | 0 => mret new_population
  | S k' =>
      parents ← random.sample selected 2;
      p1 ← lift (getitem parents 0);
      p2 ← lift (getitem parents 1);
      child ← _crossover self p1 p2;
      child ← _mutate self child;
      child ← _local_search_optimizer self child;
      reproduce self selected k' (new_population ++ [child])
  end.

Definition generation (self : MemeticAlgorithmSearch) (gen : nat)
    (population : list (list str))
    : M (step_end (list (list str)) (list str)) :=
  fitness_data ← lift (mapM (_calculate_fitness self) population);
  let fitnesses := fitness_data.*1.*1 in
  best_fitness ← lift (py_max fitnesses);
  best_idx ← lift (py_index fitnesses best_fitness);
  '(_, uncovered, collisions) ← lift (getitem fitness_data best_idx);
  final_code ← lift (getitem population best_idx);
  verified ← (if (uncovered =? 0) && (collisions =? 0)
              then lift (is_perfect_code (searcher self) final_code)
              else mret false);
  if verified : bool then mret (Return final_code)
  else
    let sorted_pop := (sorted_desc (zip fitnesses population)).*2 in
    let new_population := take (elitism_k self) sorted_pop in
    selected ← _selection self population fitness_data;
    new_population ←
      reproduce self selected
        (population_size self - length new_population) new_population;
    mret (Continue new_population).

Definition run (self : MemeticAlgorithmSearch) : M report :=
  population ← _initialize_population self;
  e ← for_range (generation self) 0 (generations self) population;
  mret (report_of e).

End memetic_search.

(** ** strategies/strategy_4_simulated_annealing.py *)

Module strategy_4_simulated_annealing.

(** [initial_temp] and [cooling_rate] are Python floats, as the program
    passes them (1000.0 and 0.999): binary64 numbers, whose product the
    machine rounds to the nearest binary64 number. *)
Record SimulatedAnnealingSearch : Type := mkSA {
  cube : GeneralizedLucasCube;
  searcher : PerfectCodeSearcher;
  n : nat;
  s : nat;
  initial_temp : float;
  cooling_rate : float;
  max_iterations : nat;
  collision_penalty : Z;
  theoretical_size : Q
}.

Definition __init__ (n s : Z) (initial_temp cooling_rate : float)
    (max_iterations : nat) (collision_penalty : Z)
    : result SimulatedAnnealingSearch :=
  cube ← lucas_cube.__init__ n s;
  Ok (mkSA cube (mkSearcher cube) (Z.to_nat n) (Z.to_nat s) initial_temp
        cooling_rate max_iterations collision_penalty
        (get_theoretical_code_size (mkSearcher cube))).

(** The two nested loops over [code_set] count the pairs [cw1 < cw2] at
    distance below 3; the count, and whether [get_hamming_distance] raises,
    do not depend on the order in which the set is visited. *)
Definition count_collisions (code_set : gset str) : result nat :=
  for_each_r
    (cw1 ← elements code_set; (λ cw2, (cw1, cw2)) <$> elements code_set)
    (λ p collisions,
       if negb (str_ltb p.1 p.2) then Ok collisions
       else d ← get_hamming_distance p.1 p.2;
            Ok (if d <? 3 then collisions + 1 else collisions))
    0.

Definition _calculate_energy (self : SimulatedAnnealingSearch)
    (code : list str) : result (Z * nat * nat) :=
  let code_set : gset str := list_to_set code in
  collisions ← count_collisions code_set;
  covered_vertices ← union_closed_neighborhoods (cube self) code_set;
  let uncovered_count := size (vertex_set (cube self) ∖ covered_vertices) in
  let energy :=
    (Z.of_nat uncovered_count * Z.of_nat (n self)
     + Z.of_nat collisions * collision_penalty self)%Z in
  Ok (energy, uncovered_count, collisions).

Inductive action : Set := add | remove | swap.

Definition _get_neighbor (self : SimulatedAnnealingSearch)
    (current_code : list str) : M (list str) :=
  let neighbor : gset str := list_to_set current_code in
  let size_q : Q := inject_Z (Z.of_nat (size neighbor)) in
  act ← random.choice [add; remove; swap];
  neighbor ←
    match act with
    | add =>
        if Qltb size_q (theoretical_size self + 2) then
          potential_adds ← list_of_set (vertex_set (cube self) ∖ neighbor);
          match potential_adds with
          | [] => mret neighbor
          | _ => x ← random.choice potential_adds; mret (neighbor ∪ {[x]})
          end
        else mret neighbor
    | remove =>
        if Qltb (theoretical_size self - 2) size_q
           && negb (bool_decide (neighbor = ∅)) then
          members ← list_of_set neighbor;
          x ← random.choice members; mret (neighbor ∖ {[x]})
        else mret neighbor
    | swap =>
        if negb (bool_decide (neighbor = ∅)) then
          members ← list_of_set neighbor;
          to_remove ← random.choice members;
          potential_adds ← list_of_set (vertex_set (cube self) ∖ neighbor);
          match potential_adds with
          | [] => mret neighbor
          | _ => to_add ← random.choice potential_adds;
                 mret (neighbor ∖ {[to_remove]} ∪ {[to_add]})
          end
        else mret neighbor
    end;
  neighbor ←
    (if bool_decide (neighbor = ∅)
     then x ← random.choice (vertices (cube self)); mret (neighbor ∪ {[x]})
     else mret neighbor);
  list_of_set neighbor.

(** [random.random() < math.exp((current_energy - neighbor_energy) / temp)]:
    the division raises for a temperature that is 0.0 or -0.0; otherwise the
    test compares a random number with an exponential, and the oracle
    answers it. *)
Definition metropolis (current_energy neighbor_energy : Z) (temp : float)
    : M bool :=
  if PrimFloat.eqb temp 0 then raise ZeroDivisionError
  else x ← draw; mret (N.odd x).

(** The local variables of [run] that live across the passes of its loop. *)
Record state : Type := mkState {
  current_code : list str;
  current_energy : Z;
  uncovered : nat;
  collisions : nat;
  best_code : list str;
  best_energy : Z;
  temp : float
}.

(** [int(x)] for a rational: truncation towards zero. *)
Definition py_int (x : Q) : Z := Z.quot (Qnum x) (Zpos (Qden x)).

(** [run] up to the loop. *)
Definition run_init (self : SimulatedAnnealingSearch) : M state :=
  current_code ←
    random.sample (vertices (cube self))
      (Z.to_nat (py_int (theoretical_size self)));
  '(current_energy, uncovered, collisions) ←
    lift (_calculate_energy self current_code);
  mret (mkState current_code current_energy uncovered collisions
          current_code current_energy (initial_temp self)).

(** One pass of the loop of [run]. *)
Definition iteration (self : SimulatedAnnealingSearch) (i : nat) (st : state)
    : M (step_end state (list str)) :=
  neighbor_code ← _get_neighbor self (current_code st);
  '(neighbor_energy, n_uncovered, n_collisions) ←
    lift (_calculate_energy self neighbor_code);
  accepted ← (if (neighbor_energy <? current_energy st)%Z then mret true
              else metropolis (current_energy st) neighbor_energy (temp st));
  let st :=
    if accepted : bool
    then mkState neighbor_code neighbor_energy n_uncovered n_collisions
           (best_code st) (best_energy st) (temp st)
    else st in
  let st :=
    if (current_energy st <? best_energy st)%Z
    then mkState (current_code st) (current_energy st) (uncovered st)
           (collisions st) (current_code st) (current_energy st) (temp st)
    else st in
  let st :=
    mkState (current_code st) (current_energy st) (uncovered st)
      (collisions st) (best_code st) (best_energy st)
      (temp st * cooling_rate self)%float in
  if (best_energy st =? 0)%Z then
    verified ← lift (is_perfect_code (searcher self) (best_code st));
    if verified : bool then mret (Return (best_code st))
    else mret (Continue st)
  else mret (Continue st).

(** The loop of [run] cut after [k] passes. *)
Definition run_for (self : SimulatedAnnealingSearch) (k : nat)
    : M (loop_end state (list str)) :=
  st ← run_init self;
  for_range (iteration self) 0 k st.

Definition run (self : SimulatedAnnealingSearch) : M report :=
  e ← run_for self (max_iterations self);
  mret (report_of e).

End strategy_4_simulated_annealing.

(** ** strategies/strategy_1_shift_search.py and strategy_3_hybrid.py *)

(** [itertools.combinations(xs, k)], in the order the iterator yields. *)
Fixpoint combinations {A} (xs : list A) (k : nat) : list (list A) :=
  match k, xs with
  | 0, _ => [[]]
  | S _, [] => []
  | S k', x :: xs' => map (cons x) (combinations xs' k') ++ combinations xs' k
  end.

(** [for x in xs: body] in a function that only raises or returns: the first
    element on which the body returns a value decides, and [None] is what the
    function returns after the loop. *)
Fixpoint for_first {A R} (xs : list A) (body : A → result (option R))
    : result (option R) :=
  match xs with
  | [] => Ok None
  | x :: xs' =>
      r ← body x;
      match r with
      | Some y => Ok (Some y)
      | None => for_first xs' body
      end
  end.

(** [v_list = ['0'] * n; for pos in positions: v_list[pos] = '1'], joined.
    The positions come from [range(n)], so no assignment is out of range. *)
Definition shift_vector (n : nat) (positions : list nat) : str :=
  foldl (λ v_list pos, <[pos := "1"]> v_list) (replicate n "0") positions.

Module strategy_1_shift_search.

Definition find_shift_vector_by_weight (n s r max_weight : Z)
    : result (option (list str)) :=
  cube ← lucas_cube.__init__ n s;
  let searcher := mkSearcher cube in
  base_hamming_code ← generate_hamming_code r;
  for_first (seq 0 (Z.to_nat (max_weight + 1))) (λ weight,
    for_first (combinations (seq 0 (Z.to_nat n)) weight) (λ positions,
      let v := shift_vector (Z.to_nat n) positions in
      shifted_code ← create_coset base_hamming_code v;
      let is_fully_valid :=
        forallb (λ cw, bool_decide (cw ∈ vertex_set cube)) shifted_code in
      if is_fully_valid then
        is_perfect ← is_perfect_code searcher shifted_code;
        if is_perfect : bool then Ok (Some shifted_code) else Ok None
      else Ok None)).

End strategy_1_shift_search.

Module strategy_3_hybrid.

(** One pass of the inner loop of [find_best_shift_for_partition]; the pair
    [(best_v, max_coverage)] is the state of the two loops. *)
Definition try_positions (partition : gset str) (base_code : list str)
    (n : nat) (positions : list nat) (st : option str * Z)
    : result (option str * Z) :=
  let '(best_v, max_coverage) := st in
  let v := shift_vector n positions in
  shifted_code ← create_coset base_code v;
  let coverage :=
    Z.of_nat (length (filter (λ cw, cw ∈ partition) shifted_code)) in
  if (max_coverage <? coverage)%Z then Ok (Some v, coverage)
  else Ok (best_v, max_coverage).

Definition find_best_shift_for_partition (partition : gset str)
    (base_code : list str) (n weight_limit : Z) : result (option str * Z) :=
  for_each_r (seq 0 (Z.to_nat (weight_limit + 1))) (λ weight st,
    for_each_r (combinations (seq 0 (Z.to_nat n)) weight)
      (try_positions partition base_code (Z.to_nat n)) st)
    (None, (-1)%Z).

End strategy_3_hybrid.

(** ** Notions of the specification *)

(** A bit string: every character is '0' or '1'. *)
Definition is_bits (w : str) : Prop := Forall (λ c, c = "0" ∨ c = "1") w.

(** Some circular rotation of [w] contains a run of [k] consecutive '1'. *)
Definition has_circular_run (k : nat) (w : str) : Prop :=
  ∃ r pre post, rotate r w = pre ++ replicate k "1" ++ post.

(** ClosedNeighborhood(v) of the data model: [v] together with the vertices
    of the cube at Hamming distance 1 from [v]. *)
Definition ClosedNeighborhood (G : GeneralizedLucasCube) (v : str) : gset str :=
  {[v]} ∪ filter (λ w, get_hamming_distance v w = Ok 1) (vertex_set G).

Definition pairwise_disjoint (Ns : list (gset str)) : Prop :=
  ∀ i j X Y, i ≠ j → Ns !! i = Some X → Ns !! j = Some Y → X ## Y.

(** coverage of §4.3: the size of the union of the closed neighbourhoods of
    the codewords. *)
Definition coverage (G : GeneralizedLucasCube) (C : list str) : nat :=
  size (⋃ (ClosedNeighborhood G <$> C)).

(** collisions of §4.3: the number of unordered pairs of codewords at Hamming
    distance below 3. *)
Definition close_pair (a b : str) : bool :=
  match get_hamming_distance a b with
  | Ok d => d <? 3
  | Raise _ => false
  end.

Fixpoint collision_pairs (C : list str) : nat :=
  match C with
  | [] => 0
  | c :: C' => length (List.filter (close_pair c) C') + collision_pairs C'
  end.

(** The codeword at position [i] of [C] overlaps what came before it: its
    closed neighbourhood meets [covered] or the closed neighbourhood of an
    earlier codeword. *)
Definition overlaps_before (G : GeneralizedLucasCube) (covered : gset str)
    (C : list str) (i : nat) : bool :=
  match C !! i with
  | Some c =>
      negb (bool_decide (ClosedNeighborhood G c
                         ## covered ∪ ⋃ (ClosedNeighborhood G <$> take i C)))
  | None => false
  end.

(** The number of codewords of [C] that overlap the codewords before them. *)
Definition overlapping_codewords (G : GeneralizedLucasCube) (C : list str)
    : nat :=
  length (List.filter (overlaps_before G ∅ C) (seq 0 (length C))).

(** The three search engines, with what they share: [run], the verifier
    that [run] consults and the budget of generations or iterations. *)
Inductive engine : Type :=
| Genetic (self : ga_search.GeneticAlgorithmSearch)
| Memetic (self : memetic_search.MemeticAlgorithmSearch)
| Annealing (self : strategy_4_simulated_annealing.SimulatedAnnealingSearch).

Definition engine_run (e : engine) : M report :=
  match e with
  | Genetic self => ga_search.run self
  | Memetic self => memetic_search.run self
  | Annealing self => strategy_4_simulated_annealing.run self
  end.

Definition engine_searcher (e : engine) : PerfectCodeSearcher :=
  match e with
  | Genetic self => ga_search.searcher self
  | Memetic self => memetic_search.searcher self
  | Annealing self => strategy_4_simulated_annealing.searcher self
  end.

Definition engine_budget (e : engine) : nat :=
  match e with
  | Genetic self => ga_search.generations self
  | Memetic self => memetic_search.generations self
  | Annealing self => strategy_4_simulated_annealing.max_iterations self
  end.

(** A rational that is an integer. *)
Definition integral (q : Q) : Prop := (Qnum q mod Zpos (Qden q) = 0)%Z.


(** The exact value of a finite float, in lowest terms. *)
Definition float_value (x : float) : option Q :=
  match FloatOps.Prim2SF x with
  | SpecFloat.S754_zero _ => Some 0%Q
  | SpecFloat.S754_finite sign m e =>
      Some (Qred (inject_Z (if sign then Zneg m else Zpos m) * 2 ^ e))%Q
  | _ => None
  end.

(** [k] successive products by [r], from [t] on, are all positive and each
    strictly below the one before. *)
Fixpoint decreasing_for (t r : float) (k : nat) : bool :=
  match k with
  | 0 => true
  | S j =>
      let t' := (t * r)%float in
      PrimFloat.ltb t' t && PrimFloat.ltb 0 t' && decreasing_for t' r j
  end.

(** ** Auxiliary notions *)

(** The number that a bit string writes in binary. *)
Definition bits_value (w : str) : N :=
  foldl (λ acc c, 2 * acc + (if Ascii.eqb c "1" then 1 else 0))%N 0%N w.

(** The string [bits] with position [i] flipped, as [get_neighbors] builds
    it. *)
Definition flip_at (bits : str) (i : nat) : str :=
  match bits !! i with
  | Some b => <[i := flip_bit b]> bits
  | None => bits
  end.

(** The Hamming weight of a string: how many of its characters are '1'. *)
Definition hamming_weight (v : str) : nat :=
  length (filter (λ c, c = "1") v).

(** How many words of the coset of [base_code] by [v] lie in [partition]. *)
Definition shift_coverage (partition : gset str) (base_code : list str)
    (v : str) : Z :=
  Z.of_nat (length (filter (λ cw, cw ∈ partition)
                      ((λ cw, _xor_bits cw v) <$> base_code))).

(** The computation [m], started on the oracle [o], does not raise, and its
    value satisfies [P]. *)
Definition returns {A} (m : M A) (o : oracle) (P : A → Prop) : Prop :=
  ∃ a o', m o = Ok (a, o') ∧ P a.

(** An oracle whose tape starts with the given numbers and goes on with
    zeros. *)
Definition oracle_of (l : list N) : oracle := mkOracle (λ i, nth i l 0%N) 0.

(** * Properties *)

(** ** The two monads *)

Lemma result_bind_Ok {A B} (f : A → result B) (r : result A) (b : B) :
  r ≫= f = Ok b ↔ ∃ a, r = Ok a ∧ f a = Ok b.
Proof.
  destruct r as [a|e]; simpl.
  - split; [eauto | by intros (a' & [= ->] & ?)].
  - split; [done | by intros (a' & [=] & ?)].
Qed.

Lemma M_bind_Ok {A B} (f : A → M B) (m : M A) (o o2 : oracle) (b : B) :
  (m ≫= f) o = Ok (b, o2) ↔ ∃ a o1, m o = Ok (a, o1) ∧ f a o1 = Ok (b, o2).
Proof.
  unfold mbind, M_bind. destruct (m o) as [[a o1]|e].
  - split; [eauto | by intros (a' & o1' & [= -> ->] & ?)].
  - split; [done | by intros (a' & o1' & [=] & ?)].
Qed.

Lemma M_ret_Ok {A} (a b : A) (o o2 : oracle) :
  mret (M := M) a o = Ok (b, o2) ↔ a = b ∧ o = o2.
Proof.
  unfold mret, M_ret. split; [by intros [= -> ->] | by intros [-> ->]].
Qed.

Lemma lift_Ok {A} (r : result A) (a : A) (o o2 : oracle) :
  lift r o = Ok (a, o2) ↔ r = Ok a ∧ o = o2.
Proof.
  unfold lift. destruct r; split; try by intros [= -> ->].
  - by intros [[= ->] ->].
  - by intros [[=] _].
Qed.

(** Closes [is_bits w] and [Forall] goals over literal strings. *)
Ltac solve_bits :=
  unfold is_bits; cbn [py list_ascii_of_string map];
  repeat first
    [ apply Forall_nil | apply Forall_cons | split
    | (by left) | (by right) | reflexivity ].

(** ** Cube(3, 3) *)

(** C4, as the code has it: in the cube with n = 3 and s = 3 the vertex '111'
    is not a member, '110' is a member, and the vertex set has exactly 7
    elements: every string of three bits but '111'. *)
Theorem cube_3_3_members :
  ∃ G, lucas_cube.__init__ 3 3 = Ok G
       ∧ __contains__ G (py "111") = false
       ∧ __contains__ G (py "110") = true
       ∧ size (vertex_set G) = 7
       ∧ __len__ G = 7.
Proof. exists (mkCube 3 3). by vm_compute. Qed.

(** C4 as stated fails: the vertex set of Cube(3, 3) does not have 6
    elements. *)
Lemma cube_3_3_not_six :
  ¬ (∀ G, lucas_cube.__init__ 3 3 = Ok G →
          __contains__ G (py "111") = false
          ∧ __contains__ G (py "110") = true
          ∧ size (vertex_set G) = 6).
Proof.
  intros H. destruct (H (mkCube 3 3) eq_refl) as (_ & _ & Hsize).
  vm_compute in Hsize. discriminate.
Qed.

(** ** Cosets *)

Lemma xor_bits_twice (cw v : str) :
  is_bits cw → is_bits v → length cw = length v →
  _xor_bits (_xor_bits cw v) v = cw.
Proof.
  intros Hcw. revert v. induction Hcw as [|c cw Hc _ IH]; intros v Hv Hlen.
  - by destruct v.
  - destruct Hv as [|d v Hd Hv]; [done|].
    simpl in *. f_equal; [|apply IH; [done|lia]].
    by destruct Hc as [-> | ->], Hd as [-> | ->].
Qed.

Lemma xor_bits_twice_map (code : list str) (v : str) :
  Forall (λ cw, is_bits cw ∧ length cw = length v) code → is_bits v →
  map (λ cw, _xor_bits (_xor_bits cw v) v) code = code.
Proof.
  intros Hcode Hv. induction Hcode as [|cw code [Hb Hl] _ IH]; [done|].
  cbn [map]. f_equal; [by apply xor_bits_twice | exact IH].
Qed.

Lemma xor_bits_length (cw v : str) :
  length (_xor_bits cw v) = min (length cw) (length v).
Proof. unfold _xor_bits. by rewrite length_zip_with. Qed.

(** C9: for a non-empty list of bit strings and a shift vector of bits, all
    of one length, [create_coset] returns a list as long as the code, and
    shifting that list again by the same vector gives the code back. *)
Theorem create_coset_involutive (code : list str) (v : str) :
  code ≠ [] →
  Forall (λ cw, is_bits cw ∧ length cw = length v) code →
  is_bits v →
  ∃ coset, create_coset code v = Ok coset
           ∧ length coset = length code
           ∧ create_coset coset v = Ok code.
Proof.
  intros Hne Hcode Hv.
  destruct code as [|cw0 code]; [done|].
  pose proof (Forall_inv Hcode) as [_ Hlen0].
  exists (map (λ cw, _xor_bits cw v) (cw0 :: code)). split_and!.
  - unfold create_coset. by rewrite Hlen0, Nat.eqb_refl.
  - by rewrite length_map.
  - unfold create_coset. cbn [map].
    rewrite xor_bits_length, Hlen0, Nat.min_id, Nat.eqb_refl. cbn [negb].
    f_equal. rewrite map_map.
    by apply (xor_bits_twice_map (cw0 :: code)).
Qed.

Lemma create_coset_involutive_witness :
  ∃ coset, create_coset (map py ["010"; "101"]%string) (py "110") = Ok coset
           ∧ length coset = 2
           ∧ create_coset coset (py "110") = Ok (map py ["010"; "101"]%string).
Proof.
  apply (create_coset_involutive (map py ["010"; "101"]%string) (py "110")).
  - discriminate.
  - solve_bits.
  - solve_bits.
Defined.

(** ** Single-point crossover of the memetic engine *)

Lemma randint_empty (a b : Z) (o : oracle) :
  (b < a)%Z → random.randint a b o = Raise ValueError.
Proof.
  intros Hab. unfold random.randint.
  by destruct (Z.ltb_spec b a); [|lia].
Qed.

Lemma randint_range (a b : Z) (o : oracle) :
  (a ≤ b)%Z →
  ∃ k, (a ≤ k ≤ b)%Z
       ∧ random.randint a b o = Ok (k, mkOracle (tape o) (S (pos o))).
Proof.
  intros Hab. unfold random.randint.
  destruct (Z.ltb_spec b a); [lia|].
  set (w := Z.to_nat (b - a + 1)).
  exists (a + Z.of_nat (N.to_nat (tape o (pos o)) mod w))%Z. split; [|done].
  assert (N.to_nat (tape o (pos o)) mod w < w)
    by (apply Nat.mod_upper_bound; lia).
  lia.
Qed.

(** C10: [_crossover] of the memetic engine raises (the ValueError of
    [random.randint] on an empty range) whenever a parent has fewer than two
    codewords; when both have at least two it returns
    [parent1[:point] + parent2[point:]] for a point between 1 and
    [min(len(parent1), len(parent2)) - 1]. *)
Theorem memetic_crossover_spec (self : memetic_search.MemeticAlgorithmSearch)
    (parent1 parent2 : list str) (o : oracle) :
  (length parent1 < 2 ∨ length parent2 < 2 →
   memetic_search._crossover self parent1 parent2 o = Raise ValueError)
  ∧ (2 ≤ length parent1 → 2 ≤ length parent2 →
     ∃ point o',
       1 ≤ point ≤ min (length parent1) (length parent2) - 1
       ∧ memetic_search._crossover self parent1 parent2 o
         = Ok (take point parent1 ++ drop point parent2, o')).
Proof.
  unfold memetic_search._crossover. split.
  - intros Hshort. unfold mbind, M_bind.
    rewrite randint_empty; [done | lia].
  - intros H1 H2.
    destruct (randint_range 1
                (Z.of_nat (min (length parent1) (length parent2)) - 1) o)
      as (k & Hk & Hdraw); [lia|].
    exists (Z.to_nat k), (mkOracle (tape o) (S (pos o))). split; [lia|].
    unfold mbind, M_bind. by rewrite Hdraw.
Qed.

Lemma memetic_crossover_spec_witness :
  let self := memetic_search.mkMA (mkCube 3 3) (mkSearcher (mkCube 3 3))
                4 1 (1 # 10) 1 1 3 2 in
  let o := mkOracle (λ _, 0%N) 0 in
  memetic_search._crossover self [py "010"] (map py ["000"; "101"]%string) o
  = Raise ValueError
  ∧ ∃ point o',
      1 ≤ point ≤ 1
      ∧ memetic_search._crossover self
          (map py ["010"; "101"]%string) (map py ["001"; "110"]%string) o
        = Ok (take point (map py ["010"; "101"]%string)
              ++ drop point (map py ["001"; "110"]%string), o').
Proof.
  intros self o. split.
  - apply (proj1 (memetic_crossover_spec self [py "010"]
                    (map py ["000"; "101"]%string) o)).
    left. simpl. lia.
  - apply (proj2 (memetic_crossover_spec self
                    (map py ["010"; "101"]%string)
                    (map py ["001"; "110"]%string) o)); simpl; lia.
Defined.

(** Every point of that range is the one drawn under some oracle. *)
Lemma memetic_crossover_any_point
    (self : memetic_search.MemeticAlgorithmSearch)
    (parent1 parent2 : list str) (point : nat) :
  1 ≤ point ≤ min (length parent1) (length parent2) - 1 →
  ∃ o o', memetic_search._crossover self parent1 parent2 o
          = Ok (take point parent1 ++ drop point parent2, o').
Proof.
  intros Hp.
  exists (mkOracle (λ _, N.of_nat (point - 1)) 0),
         (mkOracle (λ _, N.of_nat (point - 1)) 1).
  unfold memetic_search._crossover, random.randint, random._randbelow.
  destruct (Z.ltb_spec
              (Z.of_nat (min (length parent1) (length parent2)) - 1) 1);
    [lia|].
  unfold mbind, M_bind, draw, mret, M_ret. cbn [tape pos].
  rewrite Nat2N.id, Nat.mod_small by lia.
  replace (Z.to_nat (1 + Z.of_nat (point - 1))) with point by lia.
  done.
Qed.

(** ** Binary formatting and the vertex list *)

Lemma bin_pos_app (p : positive) (acc : str) :
  bin_pos p acc = bin_pos p [] ++ acc.
Proof.
  revert acc. induction p as [p IH|p IH|]; intros acc; simpl; [| |done].
  - rewrite IH, (IH ["1"]). by rewrite <- app_assoc.
  - rewrite IH, (IH ["0"]). by rewrite <- app_assoc.
Qed.

Lemma bin_pos_length (p : positive) : length (bin_pos p []) = Pos.size_nat p.
Proof.
  induction p as [p IH|p IH|]; simpl; [| |done];
    rewrite bin_pos_app, length_app, IH; simpl; lia.
Qed.

Lemma bin_pos_bits (p : positive) : is_bits (bin_pos p []).
Proof.
  induction p as [p IH|p IH|]; simpl.
  - rewrite bin_pos_app. apply Forall_app. split; [done|].
    by repeat constructor; right.
  - rewrite bin_pos_app. apply Forall_app. split; [done|].
    by repeat constructor; left.
  - by repeat constructor; right.
Qed.

Lemma bin_bits (i : N) : is_bits (bin i).
Proof. destruct i; [by repeat constructor; left | apply bin_pos_bits]. Qed.

Lemma size_nat_le_of_lt (p : positive) (k : nat) :
  (Npos p < 2 ^ N.of_nat k)%N → Pos.size_nat p ≤ k.
Proof.
  revert k. induction p as [p IH|p IH|]; intros k Hlt.
  - destruct k as [|k]; [simpl in Hlt; lia|].
    rewrite Nat2N.inj_succ, N.pow_succ_r' in Hlt.
    simpl. apply le_n_S, IH. lia.
  - destruct k as [|k]; [simpl in Hlt; lia|].
    rewrite Nat2N.inj_succ, N.pow_succ_r' in Hlt.
    simpl. apply le_n_S, IH. lia.
  - destruct k as [|k]; [simpl in Hlt; lia|]. simpl. lia.
Qed.

Lemma bin_length_le (i : N) (k : nat) :
  0 < k → (i < 2 ^ N.of_nat k)%N → length (bin i) ≤ k.
Proof.
  intros Hk Hlt. destruct i as [|p]; simpl; [lia|].
  rewrite bin_pos_length. by apply size_nat_le_of_lt.
Qed.

Lemma format_0b_length (k : nat) (i : N) :
  0 < k → (i < 2 ^ N.of_nat k)%N → length (format_0b k i) = k.
Proof.
  intros Hk Hlt. unfold format_0b.
  pose proof (bin_length_le i k Hk Hlt).
  rewrite length_app, length_replicate. lia.
Qed.

Lemma format_0b_bits (k : nat) (i : N) : is_bits (format_0b k i).
Proof.
  unfold format_0b. apply Forall_app. split; [|apply bin_bits].
  apply Forall_replicate. by left.
Qed.

Lemma bin_double (p : positive) (b : bool) :
  bin (Npos (if b then p~1 else p~0)%positive)
  = bin (Npos p) ++ [if b then "1" else "0"].
Proof. destruct b; simpl; by rewrite bin_pos_app. Qed.

(** Appending a bit to the string doubles the number. *)
Lemma format_0b_snoc (k : nat) (i : N) (b : bool) :
  0 < k →
  format_0b (S k) (2 * i + (if b then 1 else 0))
  = format_0b k i ++ [if b then "1" else "0"].
Proof.
  intros Hk. unfold format_0b. destruct i as [|p].
  - destruct k as [|k]; [lia|].
    destruct b.
    + change (bin (2 * 0 + 1)) with ["1"]. change (bin 0) with ["0"].
      cbn [length].
      replace (S (S k) - 1) with (S k) by lia.
      replace (S k - 1) with k by lia.
      by rewrite replicate_S_end.
    + change (bin (2 * 0 + 0)) with ["0"]. change (bin 0) with ["0"].
      cbn [length].
      replace (S (S k) - 1) with (S k) by lia.
      replace (S k - 1) with k by lia.
      by rewrite replicate_S_end.
  - replace (2 * N.pos p + (if b then 1 else 0))%N
      with (Npos (if b then p~1 else p~0)%positive) by (destruct b; lia).
    rewrite bin_double, length_app. simpl.
    replace (S k - (length (bin_pos p []) + 1)) with (k - length (bin_pos p []))
      by lia.
    by rewrite <- app_assoc.
Qed.

(** Every non-empty bit string is the formatted form of a number below
    2^length. *)
Lemma format_0b_surj (v : str) :
  is_bits v → v ≠ [] →
  ∃ i, (i < 2 ^ N.of_nat (length v))%N ∧ format_0b (length v) i = v.
Proof.
  induction v as [|c v IH] using rev_ind; [done|].
  intros Hbits _. apply Forall_app in Hbits as [Hv Hc].
  apply Forall_inv in Hc. simpl in Hc.
  assert (∃ b : bool, c = (if b then "1" else "0")) as [b Hb].
  { destruct Hc as [-> | ->]; [by exists false | by exists true]. }
  subst c.
  rewrite length_app. simpl. rewrite Nat.add_1_r.
  destruct v as [|d v].
  - exists (if b then 1 else 0)%N. destruct b; by vm_compute.
  - destruct (IH Hv) as (i & Hi & Hfmt); [done|].
    exists (2 * i + (if b then 1 else 0))%N. split.
    + rewrite Nat2N.inj_succ, N.pow_succ_r'. destruct b; lia.
    + rewrite format_0b_snoc by (simpl; lia). by rewrite Hfmt.
Qed.

Lemma bits_value_format_0b (k : nat) (i : N) :
  bits_value (format_0b k i) = i.
Proof.
  unfold format_0b, bits_value. rewrite foldl_app.
  assert (∀ m, foldl (λ acc c, 2 * acc + (if Ascii.eqb c "1" then 1 else 0))%N
                 0%N (replicate m "0") = 0%N) as ->.
  { intros m. induction m as [|m IH]; [done|].
    by rewrite replicate_S_end, foldl_app, IH. }
  destruct i as [|p]; [done|]. simpl.
  induction p as [p IH|p IH|]; simpl; [| |done].
  - rewrite bin_pos_app, foldl_app, IH. simpl. lia.
  - rewrite bin_pos_app, foldl_app, IH. simpl. lia.
Qed.

Lemma format_0b_inj (k : nat) (i j : N) :
  format_0b k i = format_0b k j → i = j.
Proof.
  intros Heq. apply (f_equal bits_value) in Heq.
  by rewrite !bits_value_format_0b in Heq.
Qed.

Lemma elem_of_range (i k : N) : i ∈ range k ↔ (i < k)%N.
Proof.
  unfold range. rewrite list_elem_of_fmap. split.
  - intros (j & -> & Hj). apply elem_of_seq in Hj. lia.
  - intros Hi. exists (N.to_nat i). split; [lia|]. apply elem_of_seq. lia.
Qed.

Lemma elem_of_vertices (G : GeneralizedLucasCube) (v : str) :
  0 < n G →
  v ∈ vertices G ↔
  is_bits v ∧ length v = n G
  ∧ _has_forbidden_substring v (forbidden_pattern G) = false.
Proof.
  intros Hn. unfold vertices, _generate_vertices.
  rewrite list_elem_of_filter, list_elem_of_fmap, N.shiftl_1_l. split.
  - intros (Hok & i & -> & Hi). apply elem_of_range in Hi.
    split_and!; [apply format_0b_bits | by apply format_0b_length | done].
  - intros (Hb & Hl & Hok). split; [done|].
    destruct (format_0b_surj v Hb) as (i & Hi & Hfmt).
    { intros ->. simpl in Hl. lia. }
    exists i. rewrite <- Hl. split; [done|]. by apply elem_of_range.
Qed.

Lemma elem_of_vertex_set (G : GeneralizedLucasCube) (v : str) :
  0 < n G →
  v ∈ vertex_set G ↔
  is_bits v ∧ length v = n G
  ∧ _has_forbidden_substring v (forbidden_pattern G) = false.
Proof.
  intros Hn. unfold vertex_set. rewrite elem_of_list_to_set.
  by apply elem_of_vertices.
Qed.

Lemma init_cube_ok (n0 s0 : Z) (G : GeneralizedLucasCube) :
  lucas_cube.__init__ n0 s0 = Ok G → 0 < n G ∧ 1 < s G.
Proof.
  unfold lucas_cube.__init__.
  destruct (Z.ltb_spec 0 n0), (Z.ltb_spec 1 s0); simpl; try done.
  intros [= <-]. simpl. lia.
Qed.

(** ** Neighbours and Hamming distance *)

Lemma get_neighbors_loop_ok (G : GeneralizedLucasCube) (bits : str)
    (idxs : list nat) (acc : list str) :
  Forall (λ i, i < length bits) idxs →
  get_neighbors_loop G bits idxs acc
  = Ok (acc ++ filter (λ w, w ∈ vertex_set G) (flip_at bits <$> idxs)).
Proof.
  intros Hidx. revert acc.
  induction Hidx as [|i idxs Hi _ IH]; intros acc; simpl.
  - by rewrite app_nil_r.
  - destruct (lookup_lt_is_Some_2 bits i Hi) as [b Hb].
    rewrite Hb, IH. f_equal. unfold flip_at at 2. rewrite Hb.
    rewrite filter_cons. unfold __contains__.
    destruct (decide (<[i:=flip_bit b]> bits ∈ vertex_set G)) as [Hin|Hin].
    + by rewrite bool_decide_eq_true_2, <- app_assoc.
    + by rewrite bool_decide_eq_false_2.
Qed.

Lemma get_neighbors_ok (G : GeneralizedLucasCube) (bits : str) :
  length bits = n G →
  get_neighbors G bits
  = Ok (filter (λ w, w ∈ vertex_set G) (flip_at bits <$> seq 0 (n G))).
Proof.
  intros Hlen. unfold get_neighbors.
  rewrite get_neighbors_loop_ok; [done|].
  apply Forall_forall. intros i Hi. apply elem_of_seq in Hi. lia.
Qed.

Lemma zip_dist_cons (c d : ascii) (v w : str) :
  zip_dist (c :: v) (d :: w)
  = (if decide (c = d) then 0 else 1) + zip_dist v w.
Proof.
  unfold zip_dist. simpl. rewrite filter_cons. simpl.
  destruct (decide (c = d)) as [->|Hne].
  - by rewrite decide_False by (intros ?; done).
  - by rewrite decide_True.
Qed.

Lemma zip_dist_0 (v w : str) :
  length v = length w → zip_dist v w = 0 → v = w.
Proof.
  revert w. induction v as [|c v IH]; intros [|d w] Hlen Hd; try done.
  rewrite zip_dist_cons in Hd. simpl in Hlen.
  destruct (decide (c = d)) as [->|]; [|lia].
  f_equal. apply IH; lia.
Qed.

Lemma zip_dist_refl (v : str) : zip_dist v v = 0.
Proof.
  induction v as [|c v IH]; [done|].
  rewrite zip_dist_cons, decide_True by done. lia.
Qed.

Lemma flip_bit_ne (b : ascii) : flip_bit b ≠ b.
Proof.
  unfold flip_bit. destruct (Ascii.eqb_spec b "0") as [->|Hne]; [done|].
  by intros Heq; apply Hne.
Qed.

Lemma flip_at_length (v : str) (i : nat) : length (flip_at v i) = length v.
Proof. unfold flip_at. destruct (v !! i); [apply length_insert | done]. Qed.

Lemma flip_at_cons_0 (c : ascii) (v : str) :
  flip_at (c :: v) 0 = flip_bit c :: v.
Proof. done. Qed.

Lemma flip_at_cons_S (c : ascii) (v : str) (i : nat) :
  flip_at (c :: v) (S i) = c :: flip_at v i.
Proof. unfold flip_at. simpl. by destruct (v !! i). Qed.

Lemma zip_dist_flip (v : str) (i : nat) :
  i < length v → zip_dist v (flip_at v i) = 1.
Proof.
  revert i. induction v as [|c v IH]; intros i Hi; simpl in Hi; [lia|].
  destruct i as [|i].
  - rewrite flip_at_cons_0, zip_dist_cons, zip_dist_refl.
    rewrite decide_False; [done|]. intros Heq. by apply (flip_bit_ne c).
  - rewrite flip_at_cons_S, zip_dist_cons, decide_True by done.
    rewrite IH; lia.
Qed.

Lemma flip_of_zip_dist_1 (v w : str) :
  is_bits v → is_bits w → length v = length w → zip_dist v w = 1 →
  ∃ i, i < length v ∧ w = flip_at v i.
Proof.
  intros Hv. revert w.
  induction Hv as [|c v Hc Hv IH]; intros [|d w] Hw Hlen Hd; try done.
  apply Forall_cons in Hw as [Hd' Hw]. simpl in Hlen.
  rewrite zip_dist_cons in Hd.
  destruct (decide (c = d)) as [->|Hne].
  - destruct (IH w Hw) as (i & Hi & ->); [lia | lia |].
    exists (S i). split; [simpl; lia|]. by rewrite flip_at_cons_S.
  - exists 0. split; [simpl; lia|].
    rewrite flip_at_cons_0. f_equal.
    + unfold flip_bit. destruct Hc as [-> | ->], Hd' as [-> | ->]; done.
    + symmetry. apply zip_dist_0; lia.
Qed.

Lemma get_hamming_distance_Ok (v w : str) (d : nat) :
  get_hamming_distance v w = Ok d ↔ length v = length w ∧ zip_dist v w = d.
Proof.
  unfold get_hamming_distance, zip_dist.
  destruct (Nat.eqb_spec (length v) (length w)); simpl.
  - split; [by intros [= <-] | by intros [_ <-]].
  - split; [done | by intros [? _]].
Qed.

Lemma vertex_length (G : GeneralizedLucasCube) (v : str) :
  0 < n G → v ∈ vertex_set G → length v = n G.
Proof. intros Hn Hv. by apply elem_of_vertex_set in Hv as (_ & ? & _). Qed.

Lemma vertex_bits (G : GeneralizedLucasCube) (v : str) :
  0 < n G → v ∈ vertex_set G → is_bits v.
Proof. intros Hn Hv. by apply elem_of_vertex_set in Hv as (? & _ & _). Qed.

(** For a vertex of the cube, the neighbourhood that the verifier and the
    engines build from [get_neighbors] is the closed neighbourhood of the
    data model. *)
Lemma neighborhood_of_vertex (G : GeneralizedLucasCube) (v : str) :
  0 < n G → v ∈ vertex_set G →
  ∃ neighbors, get_neighbors G v = Ok neighbors
               ∧ {[v]} ∪ list_to_set neighbors = ClosedNeighborhood G v.
Proof.
  intros Hn Hv. pose proof (vertex_length G v Hn Hv) as Hlen.
  eexists. split; [by apply get_neighbors_ok|].
  unfold ClosedNeighborhood. f_equal. apply set_eq. intros w.
  rewrite elem_of_list_to_set, list_elem_of_filter, list_elem_of_fmap.
  rewrite elem_of_filter, get_hamming_distance_Ok. split.
  - intros (Hw & i & -> & Hi). apply elem_of_seq in Hi.
    split_and!; [by rewrite flip_at_length | apply zip_dist_flip; lia | done].
  - intros ((Hl & Hd) & Hw). split; [done|].
    destruct (flip_of_zip_dist_1 v w) as (i & Hi & ->); try done.
    + by apply (vertex_bits G).
    + by apply (vertex_bits G).
    + exists i. split; [done|]. apply elem_of_seq. lia.
Qed.

(** ** Substrings *)

Lemma str_startswith_spec (pattern bits : str) :
  str_startswith pattern bits = true ↔ ∃ post, bits = pattern ++ post.
Proof.
  revert bits. induction pattern as [|p pattern IH]; intros bits; simpl.
  - split; [by exists bits | done].
  - destruct bits as [|b bits].
    + split; [done | by intros (post & ?)].
    + destruct (Ascii.eqb_spec p b) as [->|Hne].
      * rewrite IH. split.
        -- intros (post & ->). by exists post.
        -- intros (post & [= ->]). by exists post.
      * split; [done|]. intros (post & [= -> _]). done.
Qed.

Lemma str_in_spec (pattern bits : str) :
  str_in pattern bits = true ↔ ∃ pre post, bits = pre ++ pattern ++ post.
Proof.
  induction bits as [|b bits IH]; simpl.
  - destruct (str_startswith pattern []) eqn:Hs.
    + apply str_startswith_spec in Hs as (post & Hs).
      split; [|done]. intros _. by exists [], post.
    + split; [done|]. intros (pre & post & Heq).
      symmetry in Heq. apply app_eq_nil in Heq as [-> Heq].
      assert (str_startswith pattern [] = true); [|congruence].
      apply str_startswith_spec. by exists post.
  - destruct (str_startswith pattern (b :: bits)) eqn:Hs.
    + apply str_startswith_spec in Hs as (post & Hs).
      split; [|done]. intros _. by exists [], post.
    + rewrite IH. split.
      * intros (pre & post & ->). by exists (b :: pre), post.
      * intros ([|b' pre] & post & Heq).
        -- assert (str_startswith pattern (b :: bits) = true); [|congruence].
           apply str_startswith_spec. by exists post.
        -- injection Heq as -> ->. by exists pre, post.
Qed.

Lemma str_in_ones_zeros (k : nat) (w : str) :
  0 < k → Forall (λ c, c = "0") w → str_in (replicate k "1") w = false.
Proof.
  intros Hk Hw. apply not_true_is_false. intros Hin.
  apply str_in_spec in Hin as (pre & post & ->).
  apply Forall_app in Hw as [_ Hw]. apply Forall_app in Hw as [Hw _].
  destruct k; [lia|]. by apply Forall_inv in Hw.
Qed.

(** The all-zero string is a vertex of every cube. *)
Lemma zeros_in_vertex_set (G : GeneralizedLucasCube) :
  0 < n G → 0 < s G → replicate (n G) "0" ∈ vertex_set G.
Proof.
  intros Hn Hs. apply elem_of_vertex_set; [done|]. split_and!.
  - apply Forall_replicate. by left.
  - apply length_replicate.
  - unfold _has_forbidden_substring, forbidden_pattern.
    rewrite !(str_in_ones_zeros (s G)); try done.
    + by repeat case_match.
    + apply Forall_app. split.
      * apply Forall_drop, Forall_replicate. done.
      * apply Forall_take, Forall_replicate. done.
    + by apply Forall_replicate.
Qed.

(** ** The verifier *)

Lemma self_in_ClosedNeighborhood (G : GeneralizedLucasCube) (v : str) :
  v ∈ ClosedNeighborhood G v.
Proof. unfold ClosedNeighborhood. set_solver. Qed.

Lemma elem_of_union_neighborhoods (G : GeneralizedLucasCube) (C : list str)
    (w : str) :
  w ∈ ⋃ (ClosedNeighborhood G <$> C) ↔ ∃ c, c ∈ C ∧ w ∈ ClosedNeighborhood G c.
Proof.
  rewrite elem_of_union_list. split.
  - intros (X & HX & Hw). apply list_elem_of_fmap in HX as (c & -> & Hc). eauto.
  - intros (c & Hc & Hw). exists (ClosedNeighborhood G c). split; [|done].
    apply list_elem_of_fmap. eauto.
Qed.

Lemma pairwise_disjoint_splits (G : GeneralizedLucasCube) (C : list str) :
  pairwise_disjoint (ClosedNeighborhood G <$> C) ↔
  ∀ pre c post, C = pre ++ c :: post →
    ClosedNeighborhood G c ## ⋃ (ClosedNeighborhood G <$> pre).
Proof.
  unfold pairwise_disjoint. split.
  - intros Hpw pre c post ->. apply elem_of_disjoint. intros w Hw Hw'.
    apply elem_of_union_neighborhoods in Hw' as (c' & Hc' & Hw').
    apply list_elem_of_lookup in Hc' as (j & Hj).
    pose proof (lookup_lt_Some _ _ _ Hj) as Hlt.
    refine (proj1 (elem_of_disjoint _ _)
              (Hpw (length pre) j _ _ _ _ _) w Hw Hw').
    + lia.
    + rewrite list_lookup_fmap, lookup_app_r, Nat.sub_diag by lia. done.
    + rewrite list_lookup_fmap, lookup_app_l, Hj by lia. done.
  - intros Hsplit.
    assert (∀ i j X Y, j < i →
              (ClosedNeighborhood G <$> C) !! i = Some X →
              (ClosedNeighborhood G <$> C) !! j = Some Y → X ## Y) as Hlt.
    { intros i j X Y Hji Hi Hj.
      rewrite list_lookup_fmap in Hi, Hj.
      destruct (C !! i) as [c|] eqn:Hci; [|done].
      destruct (C !! j) as [c'|] eqn:Hcj; [|done].
      simpl in Hi, Hj. injection Hi as <-. injection Hj as <-.
      pose proof (take_drop_middle C i c Hci) as Heq.
      specialize (Hsplit (take i C) c (drop (S i) C) (eq_sym Heq)).
      apply elem_of_disjoint. intros w Hw Hw'.
      apply (proj1 (elem_of_disjoint _ _) Hsplit w Hw).
      apply elem_of_union_neighborhoods. exists c'. split; [|done].
      apply list_elem_of_lookup. exists j. by rewrite lookup_take_lt. }
    intros i j X Y Hij Hi Hj.
    destruct (decide (j < i)) as [Hji|Hji]; [by eapply Hlt|].
    symmetry. eapply (Hlt j i); [lia|done|done].
Qed.

Section verifier.

Context (G : GeneralizedLucasCube) (Hn : 0 < n G).

(** On a vertex, [get_closed_neighborhood] lists the closed neighbourhood of
    the data model. *)
Lemma closed_neighborhood_of_vertex (v : str) :
  v ∈ vertex_set G →
  ∃ hood, get_closed_neighborhood G v = Ok hood
          ∧ list_to_set hood = ClosedNeighborhood G v.
Proof.
  intros Hv. destruct (neighborhood_of_vertex G v Hn Hv) as (nbrs & Hnb & HN).
  exists (v :: nbrs). unfold get_closed_neighborhood, __contains__.
  rewrite bool_decide_eq_true_2, Hnb by done. split; [done|].
  by rewrite list_to_set_cons.
Qed.

(** The loop of the verifier returns, and returns [True] exactly when every
    codeword left is a vertex, the neighbourhood of each is disjoint from
    what was covered before it, and in the end all vertices are covered. *)
Lemma is_perfect_code_loop_char (C : list str) (covered : gset str) :
  ∃ b, is_perfect_code_loop (mkSearcher G) C covered = Ok b
       ∧ (b = true ↔
          Forall (λ c, c ∈ vertex_set G) C
          ∧ (∀ pre c post, C = pre ++ c :: post →
               ClosedNeighborhood G c
               ## covered ∪ ⋃ (ClosedNeighborhood G <$> pre))
          ∧ covered ∪ ⋃ (ClosedNeighborhood G <$> C) = vertex_set G).
Proof.
  revert covered.
  induction C as [|c C IH]; intros covered; simpl.
  - eexists. split; [done|]. rewrite bool_decide_eq_true. unfold V. simpl.
    rewrite union_empty_r_L. split.
    + intros ->. split_and!; [done| |done]. by intros [|??] ???.
    + by intros (_ & _ & ->).
  - unfold V. simpl.
    destruct (decide (c ∈ vertex_set G)) as [Hc|Hc].
    2:{ rewrite bool_decide_eq_false_2 by done. simpl.
        exists false. split; [done|]. split; [done|].
        intros (HF & _). exfalso. by apply Forall_inv in HF. }
    rewrite bool_decide_eq_true_2 by done. simpl.
    destruct (neighborhood_of_vertex G c Hn Hc) as (nbrs & -> & ->).
    destruct (decide (covered ## ClosedNeighborhood G c)) as [Hd|Hd].
    2:{ rewrite bool_decide_eq_false_2 by done. simpl.
        exists false. split; [done|]. split; [done|].
        intros (_ & Hsplit & _). exfalso. apply Hd.
        specialize (Hsplit [] c C eq_refl). simpl in Hsplit. set_solver. }
    rewrite bool_decide_eq_true_2 by done. simpl.
    destruct (IH (covered ∪ ClosedNeighborhood G c)) as (b & -> & Hb).
    exists b. split; [done|]. rewrite Hb. clear Hb IH.
    rewrite Forall_cons. split.
    + intros (HF & Hsplit & Hcov). split_and!; [done|done| |].
      * intros [|c' pre] c'' post Heq.
        -- injection Heq as <- <-. simpl. set_solver.
        -- injection Heq as <- ->. simpl.
           specialize (Hsplit pre c'' post eq_refl). set_solver.
      * rewrite <- Hcov. set_solver.
    + intros ((_ & HF) & Hsplit & Hcov). split_and!; [done| |].
      * intros pre c' post ->.
        specialize (Hsplit (c :: pre) c' post eq_refl). simpl in Hsplit.
        set_solver.
      * rewrite <- Hcov. set_solver.
Qed.

Lemma is_perfect_code_char (C : list str) :
  ∃ b, is_perfect_code (mkSearcher G) C = Ok b
       ∧ (b = true ↔
          C ≠ []
          ∧ Forall (λ c, c ∈ vertex_set G) C
          ∧ (∀ pre c post, C = pre ++ c :: post →
               ClosedNeighborhood G c ## ⋃ (ClosedNeighborhood G <$> pre))
          ∧ ⋃ (ClosedNeighborhood G <$> C) = vertex_set G).
Proof.
  destruct C as [|c C].
  - exists false. split; [done|]. split; [done | by intros (? & _)].
  - destruct (is_perfect_code_loop_char (c :: C) ∅) as (b & Hb & Hiff).
    exists b. split; [exact Hb|]. rewrite Hiff.
    rewrite union_empty_l_L.
    split.
    + intros (HF & Hsplit & Hcov). split_and!; try done.
      intros pre c' post Heq. specialize (Hsplit pre c' post Heq).
      by rewrite union_empty_l_L in Hsplit.
    + intros (_ & HF & Hsplit & Hcov). split_and!; try done.
      intros pre c' post Heq. rewrite union_empty_l_L. by eapply Hsplit.
Qed.

End verifier.

(** C1: [is_perfect_code(C)] always returns a boolean.  It returns [False]
    for the empty list, for a list with a codeword outside the vertex set,
    and whenever the closed neighbourhood of a codeword meets the union of
    the closed neighbourhoods of the codewords before it.  It returns [True]
    if and only if the closed neighbourhoods of the codewords are pairwise
    disjoint and their union is the whole vertex set. *)
Theorem is_perfect_code_spec (n0 s0 : Z) (G : GeneralizedLucasCube)
    (C : list str) :
  lucas_cube.__init__ n0 s0 = Ok G →
  (∃ b, is_perfect_code (mkSearcher G) C = Ok b)
  ∧ (C = [] → is_perfect_code (mkSearcher G) C = Ok false)
  ∧ ((∃ c, c ∈ C ∧ c ∉ vertex_set G) →
     is_perfect_code (mkSearcher G) C = Ok false)
  ∧ (∀ pre c post,
       C = pre ++ c :: post →
       ¬ ClosedNeighborhood G c ## ⋃ (ClosedNeighborhood G <$> pre) →
       is_perfect_code (mkSearcher G) C = Ok false)
  ∧ (is_perfect_code (mkSearcher G) C = Ok true ↔
     pairwise_disjoint (ClosedNeighborhood G <$> C)
     ∧ ⋃ (ClosedNeighborhood G <$> C) = vertex_set G).
Proof.
  intros Hinit. apply init_cube_ok in Hinit as [Hn Hs].
  destruct (is_perfect_code_char G Hn C) as (b & Hb & Hiff).
  rewrite Hb. split_and!.
  - by exists b.
  - intros ->. f_equal. apply not_true_is_false. intros Ht.
    by apply Hiff in Ht as (? & _).
  - intros (c & Hc & Hnot). f_equal. apply not_true_is_false. intros Ht.
    apply Hiff in Ht as (_ & HF & _).
    by apply (proj1 (Forall_forall _ _) HF) in Hc.
  - intros pre c post Heq Hnd. f_equal. apply not_true_is_false. intros Ht.
    apply Hiff in Ht as (_ & _ & Hsplit & _). by eapply Hnd, Hsplit.
  - rewrite pairwise_disjoint_splits. split.
    + intros [= ->]. by destruct (proj1 Hiff eq_refl) as (_ & _ & ? & ?).
    + intros [Hsplit Hcov]. f_equal. apply Hiff. split_and!; try done.
      * intros ->. simpl in Hcov.
        pose proof (zeros_in_vertex_set G Hn ltac:(lia)) as Hz.
        rewrite <- Hcov in Hz. by apply not_elem_of_empty in Hz.
      * apply Forall_forall. intros c Hc. rewrite <- Hcov.
        apply elem_of_union_neighborhoods. exists c. split; [done|].
        apply self_in_ClosedNeighborhood.
Qed.

Lemma is_perfect_code_spec_witness :
  is_perfect_code (mkSearcher (mkCube 3 3)) (map py ["010"; "101"]%string)
  = Ok true ↔
  pairwise_disjoint
    (ClosedNeighborhood (mkCube 3 3) <$> map py ["010"; "101"]%string)
  ∧ ⋃ (ClosedNeighborhood (mkCube 3 3) <$> map py ["010"; "101"]%string)
    = vertex_set (mkCube 3 3).
Proof.
  apply (is_perfect_code_spec 3 3 (mkCube 3 3) (map py ["010"; "101"]%string)).
  reflexivity.
Defined.

(** C8: a list with the same vertex of the cube at two positions, whose
    elements before the second of them are all vertices of the cube, is
    rejected by [is_perfect_code]. *)
Theorem is_perfect_code_rejects_duplicate (n0 s0 : Z)
    (G : GeneralizedLucasCube) (C : list str) (i j : nat) (v : str) :
  lucas_cube.__init__ n0 s0 = Ok G →
  i < j → C !! i = Some v → C !! j = Some v →
  v ∈ vertex_set G →
  Forall (λ c, c ∈ vertex_set G) (take j C) →
  is_perfect_code (mkSearcher G) C = Ok false.
Proof.
  intros Hinit Hij Hi Hj Hv _. apply init_cube_ok in Hinit as [Hn Hs].
  destruct (is_perfect_code_char G Hn C) as (b & -> & Hiff).
  f_equal. apply not_true_is_false. intros Ht.
  apply Hiff in Ht as (_ & _ & Hsplit & _).
  specialize (Hsplit (take j C) v (drop (S j) C)
                (eq_sym (take_drop_middle C j v Hj))).
  apply (proj1 (elem_of_disjoint _ _) Hsplit v).
  - apply self_in_ClosedNeighborhood.
  - apply elem_of_union_neighborhoods. exists v. split.
    + apply list_elem_of_lookup. exists i. by rewrite lookup_take_lt.
    + apply self_in_ClosedNeighborhood.
Qed.

Lemma is_perfect_code_rejects_duplicate_witness :
  is_perfect_code (mkSearcher (mkCube 3 3))
    (map py ["010"; "101"; "010"]%string) = Ok false.
Proof.
  apply (is_perfect_code_rejects_duplicate 3 3 (mkCube 3 3)
           (map py ["010"; "101"; "010"]%string) 0 2 (py "010")).
  - reflexivity.
  - lia.
  - reflexivity.
  - reflexivity.
  - by vm_compute.
  - cbn [take map].
    repeat (apply Forall_cons; split; [by vm_compute|]). by apply Forall_nil.
Defined.

(** ** Fitness of the genetic engine *)

Lemma overlaps_before_cons (G : GeneralizedLucasCube) (covered : gset str)
    (c : str) (C : list str) (i : nat) :
  overlaps_before G covered (c :: C) (S i)
  = overlaps_before G (covered ∪ ClosedNeighborhood G c) C i.
Proof.
  unfold overlaps_before. simpl. destruct (C !! i) as [c'|]; [|done].
  by rewrite (assoc_L (∪)).
Qed.

Lemma filter_seq_shift (f g : nat → bool) (m : nat) :
  (∀ i, f (S i) = g i) →
  length (List.filter f (seq 1 m)) = length (List.filter g (seq 0 m)).
Proof.
  intros Hfg. rewrite <- seq_shift. generalize (seq 0 m) as l.
  induction l as [|i l IH]; simpl; [done|].
  rewrite Hfg. destruct (g i); simpl; by rewrite IH.
Qed.

Lemma overlaps_before_0 (G : GeneralizedLucasCube) (covered : gset str)
    (c : str) (C : list str) :
  overlaps_before G covered (c :: C) 0
  = negb (bool_decide (covered ## ClosedNeighborhood G c)).
Proof.
  unfold overlaps_before. simpl. rewrite union_empty_r_L. f_equal.
  apply bool_decide_ext. split; intros ?; by symmetry.
Qed.

Lemma ga_fitness_body_vertex (self : ga_search.GeneticAlgorithmSearch)
    (c : str) (covered : gset str) (k : nat) :
  0 < n (ga_search.cube self) →
  c ∈ vertex_set (ga_search.cube self) →
  ga_search._calculate_fitness_body self c (covered, k)
  = Ok (covered ∪ ClosedNeighborhood (ga_search.cube self) c,
        if negb (bool_decide
                   (covered ## ClosedNeighborhood (ga_search.cube self) c))
        then k + 1 else k).
Proof.
  intros Hn Hc.
  destruct (neighborhood_of_vertex _ c Hn Hc) as (nbrs & Hnb & HN).
  unfold ga_search._calculate_fitness_body. rewrite Hnb. simpl.
  by rewrite HN.
Qed.

Lemma ga_fitness_loop (self : ga_search.GeneticAlgorithmSearch)
    (C : list str) (covered : gset str) (k : nat) :
  0 < n (ga_search.cube self) →
  Forall (λ c, c ∈ vertex_set (ga_search.cube self)) C →
  for_each_r C (ga_search._calculate_fitness_body self) (covered, k)
  = Ok (covered ∪ ⋃ (ClosedNeighborhood (ga_search.cube self) <$> C),
        k + length (List.filter
                      (overlaps_before (ga_search.cube self) covered C)
                      (seq 0 (length C)))).
Proof.
  intros Hn HC. revert covered k.
  induction HC as [|c C Hc _ IH]; intros covered k.
  - simpl. by rewrite union_empty_r_L, Nat.add_0_r.
  - cbn [for_each_r]. rewrite ga_fitness_body_vertex by done.
    cbn [mbind result_bind]. rewrite IH.
    cbn [length seq List.filter fmap list_fmap union_list].
    rewrite overlaps_before_0.
    pose proof (filter_seq_shift _ _ (length C)
                  (overlaps_before_cons (ga_search.cube self) covered c C))
      as Hshift.
    f_equal. f_equal; [simpl; by rewrite (assoc_L (∪))|].
    destruct (bool_decide (covered ## _)); simpl; lia.
Qed.

(** C5, as the code has it: for a code of vertices of the cube,
    [_calculate_fitness] of the genetic engine is
    coverage − collisions × (n+1) × 10 where coverage is the size of the union
    of the closed neighbourhoods of the codewords and collisions is the number
    of codewords whose closed neighbourhood meets the closed neighbourhood of
    a codeword before it in the list. *)
Theorem ga_fitness_formula (n0 s0 : Z) (population_size generations : nat)
    (mutation_rate : Q) (elitism_k : nat)
    (self : ga_search.GeneticAlgorithmSearch) (C : list str) :
  ga_search.__init__ n0 s0 population_size generations mutation_rate elitism_k
  = Ok self →
  Forall (λ c, c ∈ vertex_set (ga_search.cube self)) C →
  ga_search._calculate_fitness self C
  = Ok (Z.of_nat (coverage (ga_search.cube self) C)
        - Z.of_nat (overlapping_codewords (ga_search.cube self) C)
          * (Z.of_nat (n (ga_search.cube self)) + 1) * 10)%Z.
Proof.
  unfold ga_search.__init__. intros Hinit HC.
  destruct (lucas_cube.__init__ n0 s0) as [G|] eqn:HG; [|done].
  simpl in Hinit. injection Hinit as <-. simpl in *.
  pose proof (init_cube_ok _ _ _ HG) as [Hn Hs].
  unfold ga_search._calculate_fitness.
  rewrite ga_fitness_loop by done. simpl.
  rewrite union_empty_l_L. unfold coverage, overlapping_codewords.
  unfold lucas_cube.__init__ in HG.
  destruct (0 <? n0)%Z, (1 <? s0)%Z; simpl in HG; try done.
  by injection HG as <-.
Qed.

Lemma ga_fitness_formula_witness :
  ∃ self, ga_search.__init__ 3 3 4 10 (1 # 10) 1 = Ok self
  ∧ ga_search._calculate_fitness self (map py ["000"; "001"; "010"]%string)
    = Ok (Z.of_nat (coverage (ga_search.cube self)
                      (map py ["000"; "001"; "010"]%string))
          - Z.of_nat (overlapping_codewords (ga_search.cube self)
                        (map py ["000"; "001"; "010"]%string))
            * (Z.of_nat (n (ga_search.cube self)) + 1) * 10)%Z.
Proof.
  eexists. split; [reflexivity|].
  apply (ga_fitness_formula 3 3 4 10 (1 # 10) 1).
  - reflexivity.
  - cbn [map]. repeat (apply Forall_cons; split; [by vm_compute|]).
    by apply Forall_nil.
Defined.

(** C5 as stated fails: with collisions counted as the unordered pairs of
    codewords at Hamming distance below 3, the code ['000', '001', '010'] of
    Cube(3, 3) has coverage 7 and 3 such pairs, but its fitness is
    7 − 2 × 4 × 10 = −73, not 7 − 3 × 4 × 10. *)
Lemma ga_fitness_not_pairs :
  ¬ (∀ self C,
       ga_search.__init__ 3 3 4 10 (1 # 10) 1 = Ok self →
       Forall (λ c, c ∈ vertex_set (ga_search.cube self)) C →
       ga_search._calculate_fitness self C
       = Ok (Z.of_nat (coverage (ga_search.cube self) C)
             - Z.of_nat (collision_pairs C)
               * (Z.of_nat (n (ga_search.cube self)) + 1) * 10)%Z).
Proof.
  intros H.
  destruct (ga_search.__init__ 3 3 4 10 (1 # 10) 1) as [self|] eqn:Hself;
    [|done].
  specialize (H self (map py ["000"; "001"; "010"]%string) eq_refl).
  vm_compute in Hself. injection Hself as <-.
  assert (ga_search._calculate_fitness
            (ga_search.mkGA (mkCube 3 3) (mkSearcher (mkCube 3 3)) 4 10
               (1 # 10) 1 3 2)
            (map py ["000"; "001"; "010"]%string) = Ok (-73)%Z) as Hfit
    by (by vm_compute).
  rewrite Hfit in H.
  assert (Forall (λ c, c ∈ vertex_set (mkCube 3 3))
            (map py ["000"; "001"; "010"]%string)) as HF.
  { cbn [map]. repeat (apply Forall_cons; split; [by vm_compute|]).
    by apply Forall_nil. }
  specialize (H HF). clear Hfit HF. vm_compute in H. discriminate H.
Qed.

(** ** Circular runs *)

Lemma mod_wrap (a m : nat) : m ≤ a → a < 2 * m → a mod m = a - m.
Proof.
  intros Hle Hlt. symmetry. apply (Nat.mod_unique a m 1); lia.
Qed.

(** A block of [k] ones inside [w], by positions. *)
Lemma infix_ones_lookup (k : nat) (w : str) :
  (∃ pre post, w = pre ++ replicate k "1" ++ post) ↔
  ∃ off, off + k ≤ length w ∧ ∀ t, t < k → w !! (off + t) = Some "1".
Proof.
  split.
  - intros (pre & post & ->). exists (length pre). split.
    + rewrite !length_app, length_replicate. lia.
    + intros t Ht. rewrite lookup_app_r by lia.
      replace (length pre + t - length pre) with t by lia.
      rewrite lookup_app_l by (rewrite length_replicate; lia).
      by apply lookup_replicate_2.
  - intros (off & Hlen & Hones).
    exists (take off w), (drop (off + k) w).
    assert (take k (drop off w) = replicate k "1") as Hmid.
    { apply (list_eq_same_length _ _ k).
      - apply length_replicate.
      - rewrite length_take, length_drop. lia.
      - intros i x y Hi Hx Hy.
        rewrite lookup_take_lt, lookup_drop, Hones in Hx by lia.
        apply lookup_replicate in Hy as [-> _]. congruence. }
    rewrite <- Hmid, <- drop_drop, take_drop. by rewrite take_drop.
Qed.

Lemma rotate_lookup (r i : nat) (w : str) :
  i < length w → rotate r w !! i = w !! ((r + i) mod length w).
Proof.
  intros Hi. unfold rotate.
  assert (r mod length w < length w) as Hm
    by (apply Nat.mod_upper_bound; lia).
  rewrite <- (Nat.Div0.add_mod_idemp_l r i).
  set (m := r mod length w) in *.
  destruct (decide (i < length w - m)) as [Hlt|Hge].
  - rewrite lookup_app_l by (rewrite length_drop; lia).
    rewrite lookup_drop. by rewrite Nat.mod_small by lia.
  - rewrite lookup_app_r by (rewrite length_drop; lia).
    rewrite length_drop, lookup_take_lt by lia.
    rewrite mod_wrap by lia. f_equal. lia.
Qed.

(** The seam [bits[n-s+1:] + bits[:s-1]] read by positions of [bits]. *)
Lemma seam_lookup (k i : nat) (w : str) :
  0 < k → k ≤ length w → i < 2 * k - 2 →
  (drop (length w - k + 1) w ++ take (k - 1) w) !! i
  = w !! ((length w - k + 1 + i) mod length w).
Proof.
  intros Hk Hle Hi.
  destruct (decide (i < k - 1)) as [Hlt|Hge].
  - rewrite lookup_app_l by (rewrite length_drop; lia).
    rewrite lookup_drop. by rewrite Nat.mod_small by lia.
  - rewrite lookup_app_r by (rewrite length_drop; lia).
    rewrite length_drop, lookup_take_lt by lia.
    rewrite mod_wrap by lia. f_equal. lia.
Qed.

(** The test of the code is the circular test of the specification. *)
Lemma has_forbidden_iff_circular_run (k : nat) (w : str) :
  1 < k →
  _has_forbidden_substring w (replicate k "1") = true ↔ has_circular_run k w.
Proof.
  intros Hk. unfold _has_forbidden_substring, has_circular_run.
  rewrite length_replicate.
  destruct (Nat.ltb_spec (length w) k) as [Hshort|Hlong].
  { split; [done|]. intros (r & pre & post & Heq).
    apply (f_equal length) in Heq.
    rewrite length_rotate, !length_app, length_replicate in Heq. lia. }
  destruct (str_in (replicate k "1") w) eqn:Hlin.
  { split; [|done]. intros _.
    apply str_in_spec in Hlin as (pre & post & Hw).
    exists 0, pre, post. unfold rotate.
    by rewrite Nat.Div0.mod_0_l, drop_0, take_0, app_nil_r. }
  destruct (Nat.ltb_spec 1 k) as [_|?]; [|lia].
  set (seam := drop (length w - k + 1) w ++ take (k - 1) w).
  assert (length seam = 2 * k - 2) as Hseamlen.
  { unfold seam. rewrite length_app, length_drop, length_take. lia. }
  destruct (str_in (replicate k "1") seam) eqn:Hseam.
  - split; [|done]. intros _.
    apply str_in_spec, infix_ones_lookup in Hseam as (off & Hoff & Hones).
    exists (length w - k + 1 + off).
    apply infix_ones_lookup. exists 0. split.
    + rewrite length_rotate. lia.
    + intros t Ht. rewrite rotate_lookup by lia.
      rewrite <- (Hones t Ht). unfold seam.
      rewrite seam_lookup by lia. f_equal. f_equal. lia.
  - split; [done|]. intros (r & Hrun). exfalso.
    apply infix_ones_lookup in Hrun as (off & Hoff & Hones).
    rewrite length_rotate in Hoff.
    set (p := (r + off) mod length w).
    assert (p < length w) as Hp by (apply Nat.mod_upper_bound; lia).
    assert (∀ t, t < k → w !! ((p + t) mod length w) = Some "1") as Hw.
    { intros t Ht. rewrite <- (Hones t Ht), rotate_lookup by lia.
      unfold p. rewrite Nat.Div0.add_mod_idemp_l. f_equal. f_equal. lia. }
    destruct (decide (p + k ≤ length w)) as [Hfit|Hwrap].
    + assert (str_in (replicate k "1") w = true); [|congruence].
      apply str_in_spec, infix_ones_lookup. exists p. split; [done|].
      intros t Ht. rewrite <- (Hw t Ht). by rewrite Nat.mod_small by lia.
    + assert (str_in (replicate k "1") seam = true); [|congruence].
      apply str_in_spec, infix_ones_lookup.
      exists (p + k - 1 - length w). split; [lia|].
      intros t Ht. unfold seam. rewrite seam_lookup by lia.
      rewrite <- (Hw t Ht). f_equal. f_equal. lia.
Qed.

Lemma filter_all {A} (P : A → Prop) `{∀ x, Decision (P x)} (l : list A) :
  Forall P l → filter P l = l.
Proof.
  induction 1 as [|x l Hx _ IH]; [done|].
  by rewrite filter_cons_True, IH.
Qed.

(** C2: for a cube with n ≥ 1 and s ≥ 2, a bit string of length n is a member
    ([__contains__], that is, membership in the vertex set) if and only if no
    circular rotation of it contains a run of s consecutive '1'; and when
    n < s the vertex list has exactly 2^n elements. *)
Theorem cube_membership_spec (n0 s0 : Z) (G : GeneralizedLucasCube) :
  lucas_cube.__init__ n0 s0 = Ok G →
  (∀ v, is_bits v → length v = n G →
        __contains__ G v = true ↔ ¬ has_circular_run (s G) v)
  ∧ (n G < s G → __len__ G = 2 ^ n G ∧ size (vertex_set G) = 2 ^ n G).
Proof.
  intros Hinit. apply init_cube_ok in Hinit as [Hn Hs]. split.
  - intros v Hbits Hlen. unfold __contains__.
    rewrite bool_decide_eq_true, elem_of_vertex_set by done.
    rewrite <- has_forbidden_iff_circular_run by done.
    unfold forbidden_pattern.
    destruct (_has_forbidden_substring v (replicate (s G) "1")); naive_solver.
  - intros Hlt.
    assert (vertices G
            = format_0b (n G) <$> range (2 ^ N.of_nat (n G))) as Hall.
    { unfold vertices, _generate_vertices. rewrite N.shiftl_1_l.
      apply filter_all, Forall_forall. intros v Hv.
      apply list_elem_of_fmap in Hv as (i & -> & Hi).
      apply elem_of_range in Hi.
      unfold _has_forbidden_substring, forbidden_pattern.
      rewrite length_replicate, format_0b_length by done.
      by destruct (Nat.ltb_spec (n G) (s G)); [|lia]. }
    assert (length (vertices G) = 2 ^ n G) as Hlen.
    { rewrite Hall, length_fmap. unfold range.
      rewrite length_fmap, length_seq.
      replace 2%N with (N.of_nat 2) by done.
      by rewrite <- Nat2N.inj_pow, Nat2N.id. }
    split; [exact Hlen|].
    unfold vertex_set. rewrite size_list_to_set; [exact Hlen|].
    rewrite Hall. apply NoDup_fmap_2_strong;
      [|apply NoDup_fmap; [apply _ | apply NoDup_seq]].
    intros i j Hi Hj Heq. apply elem_of_range in Hi, Hj.
    by eapply format_0b_inj.
Qed.

Lemma cube_membership_spec_witness :
  (∀ v, is_bits v → length v = 2 →
        __contains__ (mkCube 2 3) v = true ↔ ¬ has_circular_run 3 v)
  ∧ (2 < 3 → __len__ (mkCube 2 3) = 2 ^ 2
             ∧ size (vertex_set (mkCube 2 3)) = 2 ^ 2).
Proof. exact (cube_membership_spec 2 3 (mkCube 2 3) eq_refl). Defined.

(** A run of ones that wraps around the end is found through the seam. *)
Example wrapped_run_excluded :
  __contains__ (mkCube 5 3) (py "10011") = false
  ∧ __contains__ (mkCube 5 3) (py "10010") = true.
Proof. by vm_compute. Qed.

(** ** Codewords at distance below 3 *)

(** Turning ones into zeros keeps a string free of circular runs. *)
Lemma circular_run_mono (k : nat) (w u : str) :
  Forall2 (λ a b, a = "1" → b = "1") w u →
  has_circular_run k w → has_circular_run k u.
Proof.
  intros HF (r & Hrun). pose proof (Forall2_length _ _ _ HF) as Hlen.
  apply infix_ones_lookup in Hrun as (off & Hoff & Hones).
  rewrite length_rotate in Hoff.
  exists r. apply infix_ones_lookup. exists off. split.
  - rewrite length_rotate. lia.
  - intros t Ht. specialize (Hones t Ht).
    rewrite rotate_lookup in Hones by lia.
    rewrite rotate_lookup, <- Hlen by lia.
    destruct (Forall2_lookup_l _ _ _ _ _ HF Hones) as (b & -> & Hb).
    by rewrite Hb.
Qed.

Lemma vertex_below (G : GeneralizedLucasCube) (u w : str) :
  0 < n G → 1 < s G →
  u ∈ vertex_set G → is_bits w →
  Forall2 (λ a b, a = "1" → b = "1") w u →
  w ∈ vertex_set G.
Proof.
  intros Hn Hs Hu Hw HF.
  apply elem_of_vertex_set in Hu as (_ & Hlen & Hok); [|done].
  apply elem_of_vertex_set; [done|]. split_and!; [done| |].
  - by rewrite (Forall2_length _ _ _ HF).
  - apply not_true_is_false. intros Hbad.
    apply has_forbidden_iff_circular_run in Hbad; [|done].
    apply (circular_run_mono _ _ _ HF) in Hbad.
    apply has_forbidden_iff_circular_run in Hbad; [|done].
    unfold forbidden_pattern in Hok. congruence.
Qed.

Lemma zip_dist_sym (v w : str) : zip_dist v w = zip_dist w v.
Proof.
  revert w. induction v as [|c v IH]; intros [|d w]; try done.
  rewrite !zip_dist_cons, IH. by repeat case_decide; subst.
Qed.

Lemma flip_bit_bits (b : ascii) : flip_bit b = "0" ∨ flip_bit b = "1".
Proof. unfold flip_bit. destruct (Ascii.eqb b "0"); auto. Qed.

Lemma flip_at_bits (v : str) (i : nat) : is_bits v → is_bits (flip_at v i).
Proof.
  intros Hv. revert i.
  induction Hv as [|c v Hc Hv IH]; intros i; [by apply Forall_nil_2|].
  destruct i as [|i].
  - rewrite flip_at_cons_0. apply Forall_cons. split; [|done].
    apply flip_bit_bits.
  - rewrite flip_at_cons_S. apply Forall_cons. split; [done | apply IH].
Qed.

Lemma Forall2_ones_refl (v : str) : Forall2 (λ a b, a = "1" → b = "1") v v.
Proof. by apply Forall2_same_length_lookup_2; [|intros i a b -> [= ->]]. Qed.

(** Flipping a '1' removes a one; flipping a '0' adds a one. *)
Lemma flip_at_below (v : str) (i : nat) :
  v !! i = Some "1" → Forall2 (λ a b, a = "1" → b = "1") (flip_at v i) v.
Proof.
  revert i. induction v as [|c v IH]; intros i Hi; [done|].
  destruct i as [|i]; simpl in Hi.
  - injection Hi as ->. rewrite flip_at_cons_0.
    apply Forall2_cons. split; [done | apply Forall2_ones_refl].
  - rewrite flip_at_cons_S. apply Forall2_cons. split; [done | by apply IH].
Qed.

Lemma flip_at_above (v : str) (i : nat) :
  v !! i = Some "0" → Forall2 (λ a b, a = "1" → b = "1") v (flip_at v i).
Proof.
  revert i. induction v as [|c v IH]; intros i Hi; [done|].
  destruct i as [|i]; simpl in Hi.
  - injection Hi as ->. rewrite flip_at_cons_0.
    apply Forall2_cons. split; [done | apply Forall2_ones_refl].
  - rewrite flip_at_cons_S. apply Forall2_cons. split; [done | by apply IH].
Qed.

Lemma flip_at_lookup_ne (v : str) (i j : nat) :
  i ≠ j → flip_at v i !! j = v !! j.
Proof.
  intros Hij. unfold flip_at. destruct (v !! i); [|done].
  by apply list_lookup_insert_ne.
Qed.

Lemma flip_at_comm (v : str) (i j : nat) :
  i ≠ j → flip_at (flip_at v i) j = flip_at (flip_at v j) i.
Proof.
  intros Hij. unfold flip_at at 1 3.
  rewrite !flip_at_lookup_ne by done.
  unfold flip_at. destruct (v !! i) as [a|], (v !! j) as [b|]; try done.
  by apply list_insert_insert_ne.
Qed.

(** Two bit strings at distance 2 differ by two flips. *)
Lemma flips_of_zip_dist_2 (v w : str) :
  is_bits v → is_bits w → length v = length w → zip_dist v w = 2 →
  ∃ p q, p < q < length v ∧ w = flip_at (flip_at v p) q.
Proof.
  intros Hv. revert w.
  induction Hv as [|c v Hc Hv IH]; intros [|d w] Hw Hlen Hd; try done.
  pose proof Hw as Hw0. apply Forall_cons in Hw as [Hd' Hw]. simpl in Hlen.
  rewrite zip_dist_cons in Hd.
  destruct (decide (c = d)) as [->|Hne].
  - destruct (IH w Hw) as (p & q & Hpq & ->); [lia | lia |].
    exists (S p), (S q). split; [simpl; lia|].
    by rewrite !flip_at_cons_S.
  - destruct (flip_of_zip_dist_1 v w) as (i & Hi & ->); [done|done|lia|lia|].
    exists 0, (S i). split; [simpl; lia|].
    rewrite flip_at_cons_0, flip_at_cons_S. f_equal.
    unfold flip_bit. destruct Hc as [-> | ->], Hd' as [-> | ->]; done.
Qed.

Lemma bits_lookup (v : str) (i : nat) :
  is_bits v → i < length v → v !! i = Some "0" ∨ v !! i = Some "1".
Proof.
  intros Hv Hi. destruct (lookup_lt_is_Some_2 v i Hi) as [a Ha].
  rewrite Ha. destruct (proj1 (Forall_lookup _ _) Hv i a Ha) as [-> | ->]; auto.
Qed.

(** Two vertices of the cube at distance 2 have a common neighbour in the
    cube: the one of the two strings between them that has fewer ones than
    one of the two. *)
Lemma common_neighbor (G : GeneralizedLucasCube) (u v : str) :
  0 < n G → 1 < s G →
  u ∈ vertex_set G → v ∈ vertex_set G → zip_dist u v = 2 →
  ∃ w, w ∈ vertex_set G ∧ zip_dist u w = 1 ∧ zip_dist v w = 1.
Proof.
  intros Hn Hs Hu Hv Hd.
  pose proof (vertex_bits G u Hn Hu) as Hbu.
  pose proof (vertex_bits G v Hn Hv) as Hbv.
  pose proof (vertex_length G u Hn Hu) as Hlu.
  pose proof (vertex_length G v Hn Hv) as Hlv.
  destruct (flips_of_zip_dist_2 u v) as (p & q & Hpq & Hv'); try done; [lia|].
  destruct (bits_lookup u p Hbu) as [Hp|Hp]; [lia| |].
  - destruct (bits_lookup u q Hbu) as [Hq|Hq]; [lia| |].
    + (* both zero in [u]: the string with [p] set lies below [v] *)
      exists (flip_at u p). split_and!.
      * apply (vertex_below G v); try done; [by apply flip_at_bits|].
        rewrite Hv'. apply flip_at_above.
        rewrite flip_at_lookup_ne by lia. done.
      * apply zip_dist_flip. lia.
      * rewrite Hv', zip_dist_sym. apply zip_dist_flip.
        rewrite flip_at_length. lia.
    + exists (flip_at u q). split_and!.
      * apply (vertex_below G u); try done; [by apply flip_at_bits|].
        by apply flip_at_below.
      * apply zip_dist_flip. lia.
      * rewrite Hv', flip_at_comm, zip_dist_sym by lia. apply zip_dist_flip.
        rewrite flip_at_length. lia.
  - exists (flip_at u p). split_and!.
    + apply (vertex_below G u); try done; [by apply flip_at_bits|].
      by apply flip_at_below.
    + apply zip_dist_flip. lia.
    + rewrite Hv', zip_dist_sym. apply zip_dist_flip.
      rewrite flip_at_length. lia.
Qed.

(** A collision in the sense of the specification, two vertices at Hamming
    distance below 3, makes the closed neighbourhoods overlap. *)
Lemma close_vertices_overlap (G : GeneralizedLucasCube) (u v : str)
    (d : nat) :
  0 < n G → 1 < s G →
  u ∈ vertex_set G → v ∈ vertex_set G →
  get_hamming_distance u v = Ok d → d < 3 →
  ¬ ClosedNeighborhood G u ## ClosedNeighborhood G v.
Proof.
  intros Hn Hs Hu Hv Hd Hlt Hdisj.
  apply get_hamming_distance_Ok in Hd as [Hlen Hd].
  assert (∃ w, w ∈ ClosedNeighborhood G u ∧ w ∈ ClosedNeighborhood G v)
    as (w & Hwu & Hwv); [|by apply (proj1 (elem_of_disjoint _ _) Hdisj w)].
  unfold ClosedNeighborhood.
  destruct d as [|[|[|d]]]; [| | |lia].
  - apply zip_dist_0 in Hd as ->; [|done]. exists v. set_solver.
  - exists v. split; [|set_solver].
    apply elem_of_union_r, elem_of_filter. split; [|done].
    by apply get_hamming_distance_Ok.
  - destruct (common_neighbor G u v) as (w & Hw & Huw & Hvw); try done.
    exists w. split; apply elem_of_union_r, elem_of_filter; (split; [|done]);
      apply get_hamming_distance_Ok; (split; [|done]).
    + rewrite (vertex_length G u), (vertex_length G w); done.
    + rewrite (vertex_length G v), (vertex_length G w); done.
Qed.

(** Hence the verifier rejects a list with two codewords at Hamming distance
    below 3, as the specification says. *)
Lemma is_perfect_code_rejects_close_pair (n0 s0 : Z)
    (G : GeneralizedLucasCube) (C : list str) (i j d : nat) (u v : str) :
  lucas_cube.__init__ n0 s0 = Ok G →
  i ≠ j → C !! i = Some u → C !! j = Some v →
  get_hamming_distance u v = Ok d → d < 3 →
  is_perfect_code (mkSearcher G) C = Ok false.
Proof.
  intros Hinit Hij Hi Hj Hd Hlt. apply init_cube_ok in Hinit as [Hn Hs].
  destruct (is_perfect_code_char G Hn C) as (b & -> & Hiff).
  f_equal. apply not_true_is_false. intros Ht.
  apply Hiff in Ht as (_ & HF & Hsplit & _).
  apply pairwise_disjoint_splits in Hsplit.
  apply (close_vertices_overlap G u v d); try done.
  - by apply (proj1 (Forall_lookup _ _) HF i).
  - by apply (proj1 (Forall_lookup _ _) HF j).
  - apply (Hsplit i j); [done| |]; by rewrite list_lookup_fmap, ?Hi, ?Hj.
Qed.

(** ** Loops with an early return *)

Lemma for_range_Returned {St R} (body : nat → St → M (step_end St R))
    (i k j : nat) (st : St) (r : R) (o o' : oracle) :
  for_range body i k st o = Ok (Returned j r, o') →
  i ≤ j < i + k ∧ ∃ st1 o1, body j st1 o1 = Ok (Return r, o').
Proof.
  revert i st o. induction k as [|k IH]; intros i st o Hrun; simpl in Hrun.
  - by apply M_ret_Ok in Hrun as [[=] _].
  - apply M_bind_Ok in Hrun as ([st1|r1] & o1 & Hbody & Hrest).
    + apply IH in Hrest as (Hj & Hex). split; [lia | done].
    + apply M_ret_Ok in Hrest as [[= -> ->] ->]. split; [lia | eauto].
Qed.

(** An invariant of the loop variables holds when the loop is exhausted. *)
Lemma for_range_Exhausted {St R} (body : nat → St → M (step_end St R))
    (Inv : nat → St → Prop) (i k j : nat) (st st' : St) (o o' : oracle) :
  (∀ j st1 st2 o1 o2,
     Inv j st1 → body j st1 o1 = Ok (Continue st2, o2) → Inv (S j) st2) →
  Inv i st →
  for_range body i k st o = Ok (Exhausted j st', o') →
  j = i + k ∧ Inv j st'.
Proof.
  intros Hstep. revert i st o.
  induction k as [|k IH]; intros i st o Hinv Hrun; simpl in Hrun.
  - apply M_ret_Ok in Hrun as [[= -> ->] _]. by rewrite Nat.add_0_r.
  - apply M_bind_Ok in Hrun as ([st1|r1] & o1 & Hbody & Hrest).
    + rewrite <- Nat.add_succ_comm. eapply IH; [|exact Hrest].
      by eapply Hstep.
    + by apply M_ret_Ok in Hrest as [[=] _].
Qed.

(** ** The verifier gates every success *)

Lemma ga_generation_Return (self : ga_search.GeneticAlgorithmSearch)
    (gen : nat) (population : list (list str)) (code : list str)
    (o o' : oracle) :
  ga_search.generation self gen population o = Ok (Return code, o') →
  is_perfect_code (ga_search.searcher self) code = Ok true.
Proof.
  unfold ga_search.generation. intros H.
  apply M_bind_Ok in H as (fitnesses & o1 & _ & H).
  apply M_bind_Ok in H as (best & o2 & _ & H).
  apply M_bind_Ok in H as (best_index & o3 & _ & H).
  apply M_bind_Ok in H as (final_code & o4 & _ & H).
  apply M_bind_Ok in H as (verified & o5 & Hv & H).
  destruct verified.
  - apply M_ret_Ok in H as [[= <-] _].
    destruct (_ <=? _)%Z; [by apply lift_Ok in Hv as [? _]|].
    by apply M_ret_Ok in Hv as [? _].
  - apply M_bind_Ok in H as (? & ? & _ & H).
    apply M_bind_Ok in H as (? & ? & _ & H).
    by apply M_ret_Ok in H as [? _].
Qed.

Lemma ma_generation_Return (self : memetic_search.MemeticAlgorithmSearch)
    (gen : nat) (population : list (list str)) (code : list str)
    (o o' : oracle) :
  memetic_search.generation self gen population o = Ok (Return code, o') →
  is_perfect_code (memetic_search.searcher self) code = Ok true.
Proof.
  unfold memetic_search.generation. intros H.
  apply M_bind_Ok in H as (fitness_data & o1 & _ & H).
  apply M_bind_Ok in H as (best & o2 & _ & H).
  apply M_bind_Ok in H as (best_idx & o3 & _ & H).
  apply M_bind_Ok in H as ([[f uncovered] collisions] & o4 & _ & H).
  apply M_bind_Ok in H as (final_code & o5 & _ & H).
  apply M_bind_Ok in H as (verified & o6 & Hv & H).
  destruct verified.
  - apply M_ret_Ok in H as [[= <-] _].
    destruct (_ && _); [by apply lift_Ok in Hv as [? _]|].
    by apply M_ret_Ok in Hv as [? _].
  - apply M_bind_Ok in H as (? & ? & _ & H).
    apply M_bind_Ok in H as (? & ? & _ & H).
    by apply M_ret_Ok in H as [? _].
Qed.

Lemma sa_iteration_Return
    (self : strategy_4_simulated_annealing.SimulatedAnnealingSearch)
    (i : nat) (st : strategy_4_simulated_annealing.state) (code : list str)
    (o o' : oracle) :
  strategy_4_simulated_annealing.iteration self i st o
  = Ok (Return code, o') →
  is_perfect_code (strategy_4_simulated_annealing.searcher self) code
  = Ok true.
Proof.
  unfold strategy_4_simulated_annealing.iteration. intros H.
  apply M_bind_Ok in H as (neighbor_code & o1 & _ & H).
  apply M_bind_Ok in H as ([[ne nu] nc] & o2 & _ & H).
  apply M_bind_Ok in H as (accepted & o3 & _ & H).
  cbv zeta in H.
  destruct (_ =? 0)%Z.
  - apply M_bind_Ok in H as (verified & o4 & Hv & H).
    apply lift_Ok in Hv as [Hv _].
    destruct verified; apply M_ret_Ok in H as [[=] _]. by subst.
  - by apply M_ret_Ok in H as [[=] _].
Qed.

(** The loop of a [run], started at index 0 with a budget of [k] passes. *)
Lemma run_loop_cases {St} (body : nat → St → M (step_end St (list str)))
    (P : list str → Prop) (k : nat) (st : St) (e : loop_end St (list str))
    (o o' : oracle) :
  (∀ j st1 r o1 o2, body j st1 o1 = Ok (Return r, o2) → P r) →
  for_range body 0 k st o = Ok (e, o') →
  (found (report_of e) = None ∧ passes (report_of e) = k)
  ∨ (∃ code, found (report_of e) = Some code
             ∧ 1 ≤ passes (report_of e) ≤ k ∧ P code).
Proof.
  intros Hbody Hloop. destruct e as [j st'|j r]; simpl.
  - left. split; [done|].
    by destruct (for_range_Exhausted body (λ _ _, True) 0 k j st st' o o').
  - right. exists r.
    apply for_range_Returned in Hloop as (Hj & st1 & o1 & Hb).
    split_and!; [done | lia | lia | by eapply Hbody].
Qed.

(** What a run that returns can report: failure after the whole budget, or a
    code found in one of the passes and accepted by the verifier. *)
Lemma engine_run_cases (e : engine) (o o' : oracle) (rep : report) :
  engine_run e o = Ok (rep, o') →
  (found rep = None ∧ passes rep = engine_budget e)
  ∨ (∃ code, found rep = Some code
             ∧ 1 ≤ passes rep ≤ engine_budget e
             ∧ is_perfect_code (engine_searcher e) code = Ok true).
Proof.
  destruct e as [self|self|self]; simpl; intros Hrun.
  - unfold ga_search.run in Hrun.
    apply M_bind_Ok in Hrun as (population & o1 & _ & Hrun).
    apply M_bind_Ok in Hrun as (e & o2 & Hloop & Hrun).
    apply M_ret_Ok in Hrun as [<- _].
    eapply run_loop_cases; [|exact Hloop].
    intros j st1 r o3 o4. apply ga_generation_Return.
  - unfold memetic_search.run in Hrun.
    apply M_bind_Ok in Hrun as (population & o1 & _ & Hrun).
    apply M_bind_Ok in Hrun as (e & o2 & Hloop & Hrun).
    apply M_ret_Ok in Hrun as [<- _].
    eapply run_loop_cases; [|exact Hloop].
    intros j st1 r o3 o4. apply ma_generation_Return.
  - unfold strategy_4_simulated_annealing.run,
      strategy_4_simulated_annealing.run_for in Hrun.
    apply M_bind_Ok in Hrun as (e & o2 & Hloop & Hrun).
    apply M_bind_Ok in Hloop as (st & o1 & _ & Hloop).
    apply M_ret_Ok in Hrun as [<- _].
    eapply run_loop_cases; [|exact Hloop].
    intros j st1 r o3 o4. apply sa_iteration_Return.
Qed.

(** C6: whenever [run] of one of the three engines returns a code, the
    verifier of that engine accepts the code: a success is returned only from
    the branch that [is_perfect_code] guards. *)
Theorem success_is_verified (e : engine) (o o' : oracle) (rep : report)
    (code : list str) :
  engine_run e o = Ok (rep, o') →
  found rep = Some code →
  is_perfect_code (engine_searcher e) code = Ok true.
Proof.
  intros Hrun Hfound.
  destruct (engine_run_cases e o o' rep Hrun) as [[Hnone _]|(c & Hc & _ & Hv)].
  - congruence.
  - rewrite Hfound in Hc. by injection Hc as <-.
Qed.

Lemma success_is_verified_witness :
  let self := ga_search.mkGA (mkCube 3 3) (mkSearcher (mkCube 3 3))
                1 1 (1 # 10) 0 3 2 in
  let code := map py ["010"; "101"]%string in
  engine_run (Genetic self) (oracle_of [2; 5]%N)
  = Ok (mkReport (Some code) 1, mkOracle (tape (oracle_of [2; 5]%N)) 2)
  ∧ is_perfect_code (engine_searcher (Genetic self)) code = Ok true.
Proof.
  intros self code.
  assert (engine_run (Genetic self) (oracle_of [2; 5]%N)
          = Ok (mkReport (Some code) 1, mkOracle (tape (oracle_of [2; 5]%N)) 2))
    as Hrun by (vm_compute; reflexivity).
  split; [exact Hrun|].
  exact (success_is_verified (Genetic self) _ _ _ code Hrun eq_refl).
Defined.

(** A zero energy alone does not end the annealing search: with
    collision_penalty = 0 the code {'011', '000', '110', '101'} of Cube(3, 3)
    has energy 0, the verifier rejects it, and the pass goes on to the
    next. *)
Example annealing_zero_energy_is_checked :
  let self := strategy_4_simulated_annealing.mkSA
                (mkCube 3 3) (mkSearcher (mkCube 3 3)) 3 3
                1000%float 0.999%float 10 0 (7 # 4) in
  let code := map py ["000"; "011"; "101"]%string in
  let code' := map py ["011"; "000"; "110"; "101"]%string in
  let o := oracle_of [0; 0; 0; 0; 0; 3]%N in
  strategy_4_simulated_annealing.iteration self 0
    (strategy_4_simulated_annealing.mkState code 3 1 3 code 3 1000%float) o
  = Ok (Continue
          (strategy_4_simulated_annealing.mkState code' 0 0 6 code' 0
             (1000 * 0.999)%float),
        mkOracle (tape o) 10)
  ∧ is_perfect_code (strategy_4_simulated_annealing.searcher self) code'
    = Ok false.
Proof. split; vm_compute; reflexivity. Qed.

(** ** Parameters with a non-integral theoretical code size *)

(** For Cube(3, 3) the theoretical code size is 7/4, and yet each engine can
    return a perfect code: the engines do not look at integrality. *)
Example size_7_4_not_integral :
  get_theoretical_code_size (mkSearcher (mkCube 3 3)) = (7 # 4)%Q
  ∧ ¬ integral (get_theoretical_code_size (mkSearcher (mkCube 3 3))).
Proof. split; [vm_compute; reflexivity | vm_compute; intros [=]]. Qed.

Example genetic_finds_code_at_7_4 :
  let self := ga_search.mkGA (mkCube 3 3) (mkSearcher (mkCube 3 3))
                1 1 (1 # 10) 0 3 2 in
  ga_search.__init__ 3 3 1 1 (1 # 10) 0 = Ok self
  ∧ ga_search.run self (oracle_of [2; 5]%N)
    = Ok (mkReport (Some (map py ["010"; "101"]%string)) 1,
          mkOracle (tape (oracle_of [2; 5]%N)) 2).
Proof. split; vm_compute; reflexivity. Qed.

Example memetic_finds_code_at_7_4 :
  let self := memetic_search.mkMA (mkCube 3 3) (mkSearcher (mkCube 3 3))
                1 1 (1 # 10) 0 3 3 2 in
  memetic_search.__init__ 3 3 1 1 (1 # 10) 0 3 = Ok self
  ∧ memetic_search.run self (oracle_of [2; 5]%N)
    = Ok (mkReport (Some (map py ["010"; "101"]%string)) 1,
          mkOracle (tape (oracle_of [2; 5]%N)) 2).
Proof. split; vm_compute; reflexivity. Qed.

Example annealing_finds_code_at_7_4 :
  let self := strategy_4_simulated_annealing.mkSA
                (mkCube 3 3) (mkSearcher (mkCube 3 3)) 3 3
                1000%float 0.999%float 10 60 (7 # 4) in
  let l := [2; 0; 0; 0; 0; 0; 0; 0; 5; 0; 0]%N in
  strategy_4_simulated_annealing.__init__ 3 3 1000%float 0.999%float 10 60
  = Ok self
  ∧ strategy_4_simulated_annealing.run self (oracle_of l)
    = Ok (mkReport (Some (map py ["101"; "010"]%string)) 1,
          mkOracle (tape (oracle_of l)) 11).
Proof. split; vm_compute; reflexivity. Qed.

(** A search that fails has used its whole budget. *)
Example genetic_exhausts_budget_at_7_4 :
  let self := ga_search.mkGA (mkCube 3 3) (mkSearcher (mkCube 3 3))
                2 3 (1 # 10) 2 3 2 in
  ga_search.__init__ 3 3 2 3 (1 # 10) 2 = Ok self
  ∧ ga_search.run self (oracle_of [])
    = Ok (mkReport None 3, mkOracle (tape (oracle_of [])) 16).
Proof. split; vm_compute; reflexivity. Qed.

(** C3 as stated fails: with a non-integral theoretical code size an engine
    does not stop before its loop; for Cube(3, 3) the genetic engine goes into
    its first generation and returns a perfect code. *)
Lemma infeasible_parameters_not_reported :
  ¬ (∀ e o o' rep,
       ¬ integral (get_theoretical_code_size (engine_searcher e)) →
       engine_run e o = Ok (rep, o') →
       found rep = None ∧ passes rep = 0).
Proof.
  intros H.
  pose (self := ga_search.mkGA (mkCube 3 3) (mkSearcher (mkCube 3 3))
                  1 1 (1 # 10) 0 3 2).
  destruct (H (Genetic self) (oracle_of [2; 5]%N)
              (mkOracle (tape (oracle_of [2; 5]%N)) 2)
              (mkReport (Some (map py ["010"; "101"]%string)) 1))
    as [Hfound _].
  - vm_compute. intros [=].
  - vm_compute. reflexivity.
  - discriminate Hfound.
Qed.

(** C3, as the code has it: for parameters whose theoretical code size is not
    an integer, each of the three engines runs its search all the same.  A
    run that reports failure has made all the passes of its budget, and a run
    that returns a code has made at least one pass and the verifier accepts
    the code. *)
Theorem infeasible_parameters_are_searched (e : engine) (o o' : oracle)
    (rep : report) :
  ¬ integral (get_theoretical_code_size (engine_searcher e)) →
  engine_run e o = Ok (rep, o') →
  (found rep = None → passes rep = engine_budget e)
  ∧ (∀ code, found rep = Some code →
             1 ≤ passes rep ≤ engine_budget e
             ∧ is_perfect_code (engine_searcher e) code = Ok true).
Proof.
  intros _ Hrun.
  destruct (engine_run_cases e o o' rep Hrun)
    as [[Hnone Hp]|(c & Hc & Hp & Hv)].
  - split; [done|]. intros code Hcode. congruence.
  - split; [congruence|]. intros code Hcode.
    rewrite Hcode in Hc. by injection Hc as <-.
Qed.

Lemma infeasible_parameters_are_searched_witness :
  let self := ga_search.mkGA (mkCube 3 3) (mkSearcher (mkCube 3 3))
                2 3 (1 # 10) 2 3 2 in
  ¬ integral (get_theoretical_code_size (engine_searcher (Genetic self)))
  ∧ engine_run (Genetic self) (oracle_of [])
    = Ok (mkReport None 3, mkOracle (tape (oracle_of [])) 16)
  ∧ passes (mkReport None 3) = engine_budget (Genetic self).
Proof.
  intros self.
  assert (¬ integral (get_theoretical_code_size
                        (engine_searcher (Genetic self)))) as Hq
    by (vm_compute; intros [=]).
  assert (engine_run (Genetic self) (oracle_of [])
          = Ok (mkReport None 3, mkOracle (tape (oracle_of [])) 16)) as Hrun
    by (vm_compute; reflexivity).
  split_and!; [exact Hq | exact Hrun |].
  exact (proj1 (infeasible_parameters_are_searched (Genetic self) _ _ _
                  Hq Hrun) eq_refl).
Defined.

(** ** The cooling schedule *)










(** The same parameters are accepted by the constructor. *)
Example sa_negative_rate_accepted :
  strategy_4_simulated_annealing.__init__ 3 3 1%float (-1)%float 2 1
  = Ok (strategy_4_simulated_annealing.mkSA
          (mkCube 3 3) (mkSearcher (mkCube 3 3)) 3 3 1%float (-1)%float 2 1
          (7 # 4)).
Proof. vm_compute. reflexivity. Qed.

(** The products are rounded: with the parameters that the program is run
    with, the temperature after one pass is the float 999.0, which is not
    the exact product of 1000 and the float that 0.999 denotes. *)
Example sa_temperature_rounded :
  let self := strategy_4_simulated_annealing.mkSA
                (mkCube 3 3) (mkSearcher (mkCube 3 3)) 3 3
                1000%float 0.999%float 50 1 (7 # 4) in
  ∃ st o1 rate,
    strategy_4_simulated_annealing.run_for self 1 (oracle_of [])
    = Ok (Exhausted 1 st, o1)
    ∧ float_value (strategy_4_simulated_annealing.temp st) = Some 999%Q
    ∧ float_value 0.999 = Some rate
    ∧ ¬ (1000 * rate ^ 1 == 999)%Q.
Proof.
  intros self.
  exists (strategy_4_simulated_annealing.mkState
            (map py ["011"; "000"]%string) 7 2 1
            (map py ["011"; "000"]%string) 7 999%float),
    (mkOracle (tape (oracle_of [])) 11),
    (8998192055486251 # 9007199254740992)%Q.
  split_and!; [vm_compute; reflexivity..|].
  intros Heq. apply Qeq_bool_iff in Heq. vm_compute in Heq. discriminate Heq.
Qed.

(** A positive cooling rate below 1 does not make the temperature go down
    strictly: with initial_temp = 1e-300 and cooling_rate = 1e-300 the
    product underflows to 0.0 in the first pass and stays there. *)
Example sa_temperature_underflow :
  let self := strategy_4_simulated_annealing.mkSA
                (mkCube 3 3) (mkSearcher (mkCube 3 3)) 3 3
                1e-300%float 1e-300%float 2 1 (7 # 4) in
  ∃ st o1 st' o2,
    PrimFloat.ltb 0 (strategy_4_simulated_annealing.initial_temp self) = true
    ∧ PrimFloat.ltb 0 (strategy_4_simulated_annealing.cooling_rate self) = true
    ∧ PrimFloat.ltb (strategy_4_simulated_annealing.cooling_rate self) 1 = true
    ∧ strategy_4_simulated_annealing.run_for self 1 (oracle_of [])
      = Ok (Exhausted 1 st, o1)
    ∧ strategy_4_simulated_annealing.run_for self 2 (oracle_of [])
      = Ok (Exhausted 2 st', o2)
    ∧ strategy_4_simulated_annealing.temp st = 0%float
    ∧ strategy_4_simulated_annealing.temp st' = 0%float.
Proof.
  intros self.
  exists (strategy_4_simulated_annealing.mkState
            (map py ["011"; "000"]%string) 7 2 1
            (map py ["011"; "000"]%string) 7 0%float),
    (mkOracle (tape (oracle_of [])) 11),
    (strategy_4_simulated_annealing.mkState
       (map py ["011"; "000"; "101"]%string) 6 1 3
       (map py ["011"; "000"; "101"]%string) 6 0%float),
    (mkOracle (tape (oracle_of [])) 21).
  split_and!; vm_compute; reflexivity.
Qed.

(** With the cooling rate 0.999 itself the temperature stops going down
    once it is the smallest positive float, whose product by 0.999 rounds
    back to it. *)
Example sa_temperature_stalls :
  decreasing_for 1000 0.999 (800 * 1000) = false
  ∧ (5e-324 * 0.999 = 5e-324)%float.
Proof. split; vm_compute; reflexivity. Qed.

(** * Further properties of the code *)

(** ** The vertex list *)

Lemma vertices_NoDup (G : GeneralizedLucasCube) : NoDup (vertices G).
Proof.
  unfold vertices, _generate_vertices. apply NoDup_filter.
  apply NoDup_fmap_2_strong.
  - intros i j _ _. apply format_0b_inj.
  - unfold range. apply NoDup_fmap; [apply _ | apply NoDup_seq].
Qed.

(** X1: the vertex list has no duplicates, so that [len(cube)] is the number
    of elements of the vertex set, and the list and the set have the same
    members. *)
Theorem vertices_distinct (G : GeneralizedLucasCube) :
  NoDup (vertices G)
  ∧ __len__ G = size (vertex_set G)
  ∧ ∀ v, v ∈ vertices G ↔ __contains__ G v = true.
Proof.
  split_and!.
  - apply vertices_NoDup.
  - unfold __len__, vertex_set. symmetry. apply size_list_to_set.
    apply vertices_NoDup.
  - intros v. unfold __contains__, vertex_set.
    by rewrite bool_decide_eq_true, elem_of_list_to_set.
Qed.

(** ** [get_neighbors] *)

Lemma get_neighbors_loop_app (G : GeneralizedLucasCube) (bits : str)
    (l1 l2 : list nat) (acc : list str) :
  get_neighbors_loop G bits (l1 ++ l2) acc
  = get_neighbors_loop G bits l1 acc ≫= get_neighbors_loop G bits l2.
Proof.
  revert acc. induction l1 as [|i l1 IH]; intros acc; simpl; [done|].
  destruct (bits !! i); [apply IH | done].
Qed.

Lemma get_neighbors_short (G : GeneralizedLucasCube) (bits : str) :
  length bits < n G → get_neighbors G bits = Raise IndexError.
Proof.
  intros Hlt. unfold get_neighbors.
  replace (n G) with (length bits + S (n G - length bits - 1)) by lia.
  rewrite seq_app, get_neighbors_loop_app.
  rewrite get_neighbors_loop_ok.
  - simpl. by rewrite lookup_ge_None_2.
  - apply Forall_forall. intros i Hi. apply elem_of_seq in Hi. lia.
Qed.

Lemma get_neighbors_flips (G : GeneralizedLucasCube) (bits : str) :
  n G ≤ length bits →
  get_neighbors G bits
  = Ok (filter (λ w, w ∈ vertex_set G) (flip_at bits <$> seq 0 (n G))).
Proof.
  intros Hlen. unfold get_neighbors.
  rewrite get_neighbors_loop_ok; [done|].
  apply Forall_forall. intros i Hi. apply elem_of_seq in Hi. lia.
Qed.

Lemma elem_of_flips (G : GeneralizedLucasCube) (bits w : str) :
  w ∈ filter (λ w, w ∈ vertex_set G) (flip_at bits <$> seq 0 (n G)) ↔
  w ∈ vertex_set G ∧ ∃ i, i < n G ∧ w = flip_at bits i.
Proof.
  rewrite list_elem_of_filter, list_elem_of_fmap. split.
  - intros (Hw & i & -> & Hi). apply elem_of_seq in Hi.
    split; [done|]. exists i. split; [lia | done].
  - intros (Hw & i & Hi & ->). split; [done|]. exists i.
    split; [done|]. apply elem_of_seq. lia.
Qed.

(** X2: [get_neighbors(bits)] raises IndexError exactly when [bits] is
    shorter than n; on a string of at least n characters it returns at most n
    strings, all of them vertices, and none at all when the string is longer
    than n. *)
Theorem get_neighbors_bounds (n0 s0 : Z) (G : GeneralizedLucasCube)
    (bits : str) :
  lucas_cube.__init__ n0 s0 = Ok G →
  (length bits < n G → get_neighbors G bits = Raise IndexError)
  ∧ (n G ≤ length bits →
     ∃ neighbors, get_neighbors G bits = Ok neighbors
                  ∧ length neighbors ≤ n G
                  ∧ Forall (λ w, w ∈ vertex_set G) neighbors)
  ∧ (n G < length bits → get_neighbors G bits = Ok []).
Proof.
  intros Hinit. apply init_cube_ok in Hinit as [Hn Hs]. split_and!.
  - apply get_neighbors_short.
  - intros Hlen. eexists. split; [by apply get_neighbors_flips|]. split.
    + etrans; [apply length_filter|]. by rewrite length_fmap, length_seq.
    + apply Forall_forall. intros w Hw. by apply elem_of_flips in Hw as [? _].
  - intros Hlen. rewrite get_neighbors_flips by lia. f_equal.
    apply elem_of_nil_inv. intros w Hw.
    apply elem_of_flips in Hw as (Hw & i & _ & ->).
    apply (vertex_length G _ Hn) in Hw. rewrite flip_at_length in Hw. lia.
Qed.

Lemma get_neighbors_bounds_witness :
  get_neighbors (mkCube 3 3) (py "01") = Raise IndexError
  ∧ (∃ neighbors, get_neighbors (mkCube 3 3) (py "111") = Ok neighbors
                  ∧ length neighbors ≤ 3
                  ∧ Forall (λ w, w ∈ vertex_set (mkCube 3 3)) neighbors)
  ∧ get_neighbors (mkCube 3 3) (py "0100") = Ok [].
Proof.
  destruct (get_neighbors_bounds 3 3 (mkCube 3 3) (py "01") eq_refl)
    as (H1 & _ & _).
  destruct (get_neighbors_bounds 3 3 (mkCube 3 3) (py "111") eq_refl)
    as (_ & H2 & _).
  destruct (get_neighbors_bounds 3 3 (mkCube 3 3) (py "0100") eq_refl)
    as (_ & _ & H3).
  split_and!; [apply H1 | apply H2 | apply H3]; simpl; lia.
Defined.

Lemma flip_at_lookup_eq (v : str) (i : nat) (b : ascii) :
  v !! i = Some b → flip_at v i !! i = Some (flip_bit b).
Proof.
  intros Hb. unfold flip_at. rewrite Hb.
  apply list_lookup_insert_eq. by eapply lookup_lt_Some.
Qed.

Lemma flip_at_inj (v : str) (i j : nat) :
  i < length v → flip_at v i = flip_at v j → i = j.
Proof.
  intros Hi Heq. destruct (decide (i = j)) as [|Hne]; [done|]. exfalso.
  destruct (lookup_lt_is_Some_2 v i Hi) as [b Hb].
  pose proof (flip_at_lookup_eq v i b Hb) as Hl.
  rewrite Heq, flip_at_lookup_ne, Hb in Hl by done.
  injection Hl as Hl. by apply (flip_bit_ne b).
Qed.

Lemma hamming_1_iff_flip (G : GeneralizedLucasCube) (v w : str) :
  0 < n G → v ∈ vertex_set G → w ∈ vertex_set G →
  get_hamming_distance v w = Ok 1 ↔ ∃ i, i < n G ∧ w = flip_at v i.
Proof.
  intros Hn Hv Hw. rewrite get_hamming_distance_Ok.
  pose proof (vertex_length G v Hn Hv) as Hlv. split.
  - intros [Hl Hd].
    destruct (flip_of_zip_dist_1 v w) as (i & Hi & ->); try done.
    + by apply (vertex_bits G).
    + by apply (vertex_bits G).
    + exists i. split; [lia | done].
  - intros (i & Hi & ->). split; [by rewrite flip_at_length|].
    apply zip_dist_flip. lia.
Qed.

Lemma elem_of_neighbors (G : GeneralizedLucasCube) (v w : str)
    (neighbors : list str) :
  0 < n G → v ∈ vertex_set G → get_neighbors G v = Ok neighbors →
  w ∈ neighbors ↔ w ∈ vertex_set G ∧ get_hamming_distance v w = Ok 1.
Proof.
  intros Hn Hv Hnb.
  rewrite get_neighbors_flips in Hnb by (by rewrite (vertex_length G v)).
  injection Hnb as <-. rewrite elem_of_flips. split.
  - intros [Hw Hi]. split; [done|]. by apply (hamming_1_iff_flip G).
  - intros [Hw Hd]. split; [done|]. by apply (hamming_1_iff_flip G).
Qed.

Lemma neighbors_NoDup (G : GeneralizedLucasCube) (v : str)
    (neighbors : list str) :
  n G ≤ length v → get_neighbors G v = Ok neighbors → NoDup neighbors.
Proof.
  intros Hlen Hnb. rewrite get_neighbors_flips in Hnb by done.
  injection Hnb as <-. apply NoDup_filter, NoDup_fmap_2_strong.
  - intros i j Hi _. apply elem_of_seq in Hi. apply flip_at_inj. lia.
  - apply NoDup_seq.
Qed.

(** X3: for a vertex [v], [get_neighbors(v)] returns without duplicates the
    vertices at Hamming distance 1 from [v], at most n of them, and never [v]
    itself. *)
Theorem neighbors_of_vertex (n0 s0 : Z) (G : GeneralizedLucasCube)
    (v : str) :
  lucas_cube.__init__ n0 s0 = Ok G →
  v ∈ vertex_set G →
  ∃ neighbors,
    get_neighbors G v = Ok neighbors
    ∧ NoDup neighbors
    ∧ length neighbors ≤ n G
    ∧ (v ∉ neighbors)
    ∧ (∀ w, w ∈ neighbors ↔
            w ∈ vertex_set G ∧ get_hamming_distance v w = Ok 1).
Proof.
  intros Hinit Hv. apply init_cube_ok in Hinit as [Hn Hs].
  pose proof (vertex_length G v Hn Hv) as Hlen.
  destruct (get_neighbors G v) as [neighbors|e] eqn:Hnb.
  2:{ rewrite get_neighbors_flips in Hnb by lia. done. }
  exists neighbors. split_and!; [done| | | |].
  - apply (neighbors_NoDup G v); [lia | done].
  - rewrite get_neighbors_flips in Hnb by lia. injection Hnb as <-.
    etrans; [apply length_filter|]. by rewrite length_fmap, length_seq.
  - intros Hin. apply (elem_of_neighbors G v v) in Hin as [_ Hd]; try done.
    apply get_hamming_distance_Ok in Hd as [_ Hd].
    by rewrite zip_dist_refl in Hd.
  - intros w. by apply elem_of_neighbors.
Qed.

Lemma neighbors_of_vertex_witness :
  ∃ neighbors,
    get_neighbors (mkCube 3 3) (py "110") = Ok neighbors
    ∧ NoDup neighbors
    ∧ length neighbors ≤ 3
    ∧ (py "110" ∉ neighbors)
    ∧ (∀ w, w ∈ neighbors ↔
            w ∈ vertex_set (mkCube 3 3)
            ∧ get_hamming_distance (py "110") w = Ok 1).
Proof.
  apply (neighbors_of_vertex 3 3 (mkCube 3 3) (py "110")).
  - reflexivity.
  - by vm_compute.
Defined.

(** X4: adjacency is symmetric: for two vertices, one is listed among the
    neighbours of the other exactly when the other is listed among its
    neighbours. *)
Theorem neighbors_symmetric (n0 s0 : Z) (G : GeneralizedLucasCube)
    (v w : str) (nv nw : list str) :
  lucas_cube.__init__ n0 s0 = Ok G →
  v ∈ vertex_set G → w ∈ vertex_set G →
  get_neighbors G v = Ok nv → get_neighbors G w = Ok nw →
  w ∈ nv ↔ v ∈ nw.
Proof.
  intros Hinit Hv Hw Hnv Hnw. apply init_cube_ok in Hinit as [Hn Hs].
  rewrite (elem_of_neighbors G v w nv), (elem_of_neighbors G w v nw) by done.
  rewrite !get_hamming_distance_Ok, (zip_dist_sym w v). naive_solver.
Qed.

Lemma neighbors_symmetric_witness :
  py "010" ∈ map py ["010"; "100"]%string ↔
  py "110" ∈ map py ["110"; "000"; "011"]%string.
Proof.
  apply (neighbors_symmetric 3 3 (mkCube 3 3) (py "110") (py "010")).
  - reflexivity.
  - by vm_compute.
  - by vm_compute.
  - vm_compute. reflexivity.
  - vm_compute. reflexivity.
Defined.

(** ** [get_closed_neighborhood] *)

(** X5: [get_closed_neighborhood] never raises.  It returns the empty list
    exactly for a string that is not a vertex; for a vertex it returns the
    vertex first and then its neighbours: between 1 and n+1 vertices, without
    duplicates, the closed neighbourhood of the data model. *)
Theorem closed_neighborhood_total (n0 s0 : Z) (G : GeneralizedLucasCube)
    (bits : str) :
  lucas_cube.__init__ n0 s0 = Ok G →
  ∃ hood,
    get_closed_neighborhood G bits = Ok hood
    ∧ (hood = [] ↔ bits ∉ vertex_set G)
    ∧ (bits ∈ vertex_set G →
       hood !! 0 = Some bits
       ∧ NoDup hood
       ∧ 1 ≤ length hood ≤ n G + 1
       ∧ Forall (λ w, w ∈ vertex_set G) hood
       ∧ list_to_set hood = ClosedNeighborhood G bits).
Proof.
  intros Hinit. apply init_cube_ok in Hinit as [Hn Hs].
  unfold get_closed_neighborhood, __contains__.
  destruct (decide (bits ∈ vertex_set G)) as [Hv|Hv].
  - rewrite bool_decide_eq_true_2 by done. simpl.
    pose proof (vertex_length G bits Hn Hv) as Hlen.
    rewrite get_neighbors_flips by lia.
    set (nbrs := filter _ _).
    assert (get_neighbors G bits = Ok nbrs) as Hnb
      by (by apply get_neighbors_flips; lia).
    exists (bits :: nbrs). split_and!; [done|by split| ].
    intros _. split_and!; [done| |simpl; lia| | |].
    + apply NoDup_cons. split; [|by apply (neighbors_NoDup G bits); [lia|]].
      intros Hin. apply (elem_of_neighbors G bits bits) in Hin as [_ Hd];
        try done.
      apply get_hamming_distance_Ok in Hd as [_ Hd].
      by rewrite zip_dist_refl in Hd.
    + assert (length nbrs ≤ n G); [|simpl; lia].
      etrans; [apply length_filter|]. by rewrite length_fmap, length_seq.
    + apply Forall_cons. split; [done|]. apply Forall_forall. intros w Hw.
      by apply elem_of_flips in Hw as [? _].
    + destruct (closed_neighborhood_of_vertex G Hn bits Hv)
        as (hood & Hhood & <-).
      unfold get_closed_neighborhood, __contains__ in Hhood.
      rewrite bool_decide_eq_true_2, Hnb in Hhood by done.
      simpl in Hhood. by injection Hhood as <-.
  - rewrite bool_decide_eq_false_2 by done. simpl.
    exists []. split_and!; [done|by split|done].
Qed.

Lemma closed_neighborhood_total_witness :
  ∃ hood,
    get_closed_neighborhood (mkCube 3 3) (py "111") = Ok hood
    ∧ (hood = [] ↔ py "111" ∉ vertex_set (mkCube 3 3))
    ∧ (py "111" ∈ vertex_set (mkCube 3 3) →
       hood !! 0 = Some (py "111")
       ∧ NoDup hood
       ∧ 1 ≤ length hood ≤ 3 + 1
       ∧ Forall (λ w, w ∈ vertex_set (mkCube 3 3)) hood
       ∧ list_to_set hood = ClosedNeighborhood (mkCube 3 3) (py "111")).
Proof.
  exact (closed_neighborhood_total 3 3 (mkCube 3 3) (py "111") eq_refl).
Defined.

(** ** How the cube depends on s, and on the ones of a vertex *)

Lemma init_cube_eq (n0 s0 : Z) (G : GeneralizedLucasCube) :
  lucas_cube.__init__ n0 s0 = Ok G →
  G = mkCube (Z.to_nat n0) (Z.to_nat s0) ∧ (0 < n0)%Z ∧ (1 < s0)%Z.
Proof.
  unfold lucas_cube.__init__.
  destruct (Z.ltb_spec 0 n0), (Z.ltb_spec 1 s0); simpl; try done.
  by intros [= <-].
Qed.

Lemma circular_run_shorter (k k' : nat) (w : str) :
  k ≤ k' → has_circular_run k' w → has_circular_run k w.
Proof.
  intros Hle (r & pre & post & Heq).
  exists r, pre, (replicate (k' - k) "1" ++ post).
  rewrite Heq. replace k' with (k + (k' - k)) at 1 by lia.
  by rewrite replicate_add, <- app_assoc.
Qed.

(** X6: a longer forbidden run forbids less: the vertices of the cube with
    parameters (n, s) are vertices of the cube with parameters (n, s') for
    every s' ≥ s. *)
Theorem cube_grows_with_s (n0 s0 s1 : Z) (G G' : GeneralizedLucasCube) :
  lucas_cube.__init__ n0 s0 = Ok G →
  lucas_cube.__init__ n0 s1 = Ok G' →
  (s0 ≤ s1)%Z →
  vertex_set G ⊆ vertex_set G'.
Proof.
  intros HG HG' Hle.
  apply init_cube_eq in HG as (-> & Hn & Hs).
  apply init_cube_eq in HG' as (-> & _ & Hs').
  intros v Hv.
  apply elem_of_vertex_set in Hv as (Hb & Hl & Hok); [|simpl; lia].
  apply elem_of_vertex_set; [simpl; lia|]. split_and!; [done|done|].
  apply not_true_is_false. intros Hbad.
  unfold forbidden_pattern in *. simpl in *.
  apply has_forbidden_iff_circular_run in Hbad; [|lia].
  apply (circular_run_shorter (Z.to_nat s0)) in Hbad; [|lia].
  apply has_forbidden_iff_circular_run in Hbad; [|lia]. congruence.
Qed.

Lemma cube_grows_with_s_witness :
  vertex_set (mkCube 4 2) ⊆ vertex_set (mkCube 4 3).
Proof.
  apply (cube_grows_with_s 4 2 3); [reflexivity | reflexivity | lia].
Defined.

(** X7: replacing a '1' of a vertex by '0' gives a vertex again, and
    [get_neighbors] lists it. *)
Theorem clearing_a_bit (n0 s0 : Z) (G : GeneralizedLucasCube) (v : str)
    (i : nat) :
  lucas_cube.__init__ n0 s0 = Ok G →
  v ∈ vertex_set G → v !! i = Some "1" →
  <[i := "0"]> v ∈ vertex_set G
  ∧ ∃ neighbors, get_neighbors G v = Ok neighbors
                 ∧ <[i := "0"]> v ∈ neighbors.
Proof.
  intros Hinit Hv Hi. apply init_cube_ok in Hinit as [Hn Hs].
  pose proof (vertex_length G v Hn Hv) as Hlen.
  pose proof (lookup_lt_Some _ _ _ Hi) as Hlt.
  assert (flip_at v i = <[i := "0"]> v) as Hflip
    by (unfold flip_at; by rewrite Hi).
  assert (flip_at v i ∈ vertex_set G) as Hw.
  { apply (vertex_below G v); try done.
    - apply flip_at_bits. by apply (vertex_bits G).
    - by apply flip_at_below. }
  rewrite <- Hflip. split; [done|].
  eexists. split; [apply get_neighbors_flips; lia|].
  apply elem_of_flips. split; [done|]. exists i. split; [lia | done].
Qed.

Lemma clearing_a_bit_witness :
  <[1 := "0"]> (py "110") ∈ vertex_set (mkCube 3 3)
  ∧ ∃ neighbors, get_neighbors (mkCube 3 3) (py "110") = Ok neighbors
                 ∧ <[1 := "0"]> (py "110") ∈ neighbors.
Proof.
  apply (clearing_a_bit 3 3 (mkCube 3 3) (py "110") 1).
  - reflexivity.
  - by vm_compute.
  - reflexivity.
Defined.

(** ** The Hamming distance *)

Lemma zip_dist_le_length (v w : str) : zip_dist v w ≤ length v.
Proof.
  revert w. induction v as [|c v IH]; intros [|d w]; simpl; try done.
  - unfold zip_dist. simpl. lia.
  - rewrite zip_dist_cons. specialize (IH w). case_decide; lia.
Qed.

Lemma zip_dist_triangle (a b c : str) :
  length a = length b → length b = length c →
  zip_dist a c ≤ zip_dist a b + zip_dist b c.
Proof.
  revert b c. induction a as [|x a IH]; intros [|y b] [|z c] Hab Hbc;
    try done.
  rewrite !zip_dist_cons. simpl in Hab, Hbc.
  specialize (IH b c ltac:(lia) ltac:(lia)).
  repeat case_decide; subst; try lia; done.
Qed.

(** X8: [get_hamming_distance] raises ValueError exactly when the two strings
    differ in length; otherwise it is a metric bounded by the length: it is
    symmetric, it is 0 exactly for equal strings, and it obeys the triangle
    inequality. *)
Theorem hamming_distance_metric (a b : str) :
  (get_hamming_distance a b = Raise ValueError ↔ length a ≠ length b)
  ∧ get_hamming_distance a b = get_hamming_distance b a
  ∧ (get_hamming_distance a b = Ok 0 ↔ a = b)
  ∧ (∀ d, get_hamming_distance a b = Ok d → d ≤ length a)
  ∧ (∀ c dab dbc,
       get_hamming_distance a b = Ok dab →
       get_hamming_distance b c = Ok dbc →
       ∃ dac, get_hamming_distance a c = Ok dac ∧ dac ≤ dab + dbc).
Proof.
  split_and!.
  - unfold get_hamming_distance.
    destruct (Nat.eqb_spec (length a) (length b)); simpl; naive_solver.
  - destruct (decide (length a = length b)) as [Hl|Hl].
    + transitivity (Ok (A:=nat) (zip_dist a b)).
      * by apply get_hamming_distance_Ok.
      * symmetry. apply get_hamming_distance_Ok. by rewrite zip_dist_sym.
    + unfold get_hamming_distance.
      destruct (Nat.eqb_spec (length a) (length b)); [done|].
      by destruct (Nat.eqb_spec (length b) (length a)).
  - rewrite get_hamming_distance_Ok. split.
    + intros [Hl Hd]. by apply zip_dist_0.
    + intros ->. split; [done | apply zip_dist_refl].
  - intros d [_ <-]%get_hamming_distance_Ok. apply zip_dist_le_length.
  - intros c dab dbc [Hab <-]%get_hamming_distance_Ok
      [Hbc <-]%get_hamming_distance_Ok.
    exists (zip_dist a c). split.
    + apply get_hamming_distance_Ok. split; [congruence | done].
    + by apply zip_dist_triangle.
Qed.

(** ** Cosets *)

Lemma xor_bits_bits (cw v : str) : is_bits (_xor_bits cw v).
Proof.
  revert v. induction cw as [|c cw IH]; intros [|d v]; simpl;
    try by apply Forall_nil_2.
  apply Forall_cons. split; [|apply IH].
  destruct (Ascii.eqb c d); auto.
Qed.

Lemma xor_bits_zip_dist (a b v : str) :
  is_bits a → is_bits b → is_bits v →
  length a = length v → length b = length v →
  zip_dist (_xor_bits a v) (_xor_bits b v) = zip_dist a b.
Proof.
  intros Ha. revert b v.
  induction Ha as [|x a Hx Ha IH]; intros [|y b] [|z v] Hb Hv Hla Hlb;
    try done.
  apply Forall_cons in Hb as [Hy Hb]. apply Forall_cons in Hv as [Hz Hv].
  simpl in Hla, Hlb. cbn [_xor_bits zip_with].
  rewrite !zip_dist_cons.
  change (zip_with _ a v) with (_xor_bits a v).
  change (zip_with _ b v) with (_xor_bits b v).
  rewrite IH by (done || lia). f_equal.
  destruct Hx as [-> | ->], Hy as [-> | ->], Hz as [-> | ->]; done.
Qed.

(** X9: [create_coset] looks at the length of the first codeword only.  It
    returns [] for an empty code whatever the shift vector, raises ValueError
    exactly when the code is not empty and the shift vector is not as long as
    its first codeword, and otherwise returns one bit string per codeword,
    cut to the shorter of the codeword and the shift vector. *)
Theorem create_coset_lengths (code : list str) (v : str) :
  (code = [] → create_coset code v = Ok [])
  ∧ (create_coset code v = Raise ValueError ↔
     ∃ cw0 rest, code = cw0 :: rest ∧ length v ≠ length cw0)
  ∧ (∀ coset, create_coset code v = Ok coset →
       length coset = length code
       ∧ ∀ i cw cw', code !! i = Some cw → coset !! i = Some cw' →
           is_bits cw' ∧ length cw' = min (length cw) (length v)).
Proof.
  split_and!.
  - by intros ->.
  - unfold create_coset. destruct code as [|cw0 rest].
    + split; [done | by intros (? & ? & ? & _)].
    + destruct (Nat.eqb_spec (length v) (length cw0)); simpl.
      * split; [done | intros (? & ? & [= <- <-] & ?); done].
      * split; [by eauto | done].
  - intros coset Hcoset.
    assert (coset = map (λ cw, _xor_bits cw v) code) as ->.
    { unfold create_coset in Hcoset. destruct code as [|cw0 rest].
      - by injection Hcoset as <-.
      - destruct (negb _); [done | by injection Hcoset as <-]. }
    split; [by rewrite length_map|].
    intros i cw cw' Hcw Hcw'.
    change (map (λ cw, _xor_bits cw v) code)
      with ((λ cw, _xor_bits cw v) <$> code) in Hcw'.
    rewrite list_lookup_fmap, Hcw in Hcw'. injection Hcw' as <-.
    split; [apply xor_bits_bits | apply xor_bits_length].
Qed.

Lemma create_coset_Ok_map (code : list str) (v : str) :
  Forall (λ cw, length cw = length v) code →
  create_coset code v = Ok ((λ cw, _xor_bits cw v) <$> code).
Proof.
  intros Hcode. unfold create_coset. destruct code as [|cw0 rest]; [done|].
  apply Forall_inv in Hcode. by rewrite Hcode, Nat.eqb_refl.
Qed.

(** X10: shifting is an isometry: for bit strings and a shift vector of bits
    of one length, two codewords of the coset are at the same Hamming distance
    as the two codewords they come from. *)
Theorem create_coset_isometry (code coset : list str) (v : str)
    (i j : nat) (a b a' b' : str) :
  Forall (λ cw, is_bits cw ∧ length cw = length v) code →
  is_bits v →
  create_coset code v = Ok coset →
  code !! i = Some a → code !! j = Some b →
  coset !! i = Some a' → coset !! j = Some b' →
  get_hamming_distance a' b' = get_hamming_distance a b.
Proof.
  intros Hcode Hv Hcoset Ha Hb Ha' Hb'.
  rewrite create_coset_Ok_map in Hcoset
    by (eapply Forall_impl; [exact Hcode | by intros ? [_ ?]]).
  injection Hcoset as <-.
  rewrite list_lookup_fmap, Ha in Ha'. injection Ha' as <-.
  rewrite list_lookup_fmap, Hb in Hb'. injection Hb' as <-.
  destruct (proj1 (Forall_lookup _ _) Hcode i a Ha) as [Hba Hla].
  destruct (proj1 (Forall_lookup _ _) Hcode j b Hb) as [Hbb Hlb].
  transitivity (Ok (A:=nat) (zip_dist a b)).
  - apply get_hamming_distance_Ok. split.
    + rewrite !xor_bits_length. lia.
    + by apply xor_bits_zip_dist.
  - symmetry. apply get_hamming_distance_Ok. split; [congruence | done].
Qed.

Lemma create_coset_isometry_witness :
  get_hamming_distance (py "100") (py "011")
  = get_hamming_distance (py "010") (py "101").
Proof.
  apply (create_coset_isometry (map py ["010"; "101"]%string)
           (map py ["100"; "011"]%string) (py "110") 0 1);
    try reflexivity; solve_bits.
Defined.

Lemma xor_bits_assoc (cw u v : str) :
  is_bits cw → is_bits u → is_bits v →
  _xor_bits (_xor_bits cw u) v = _xor_bits cw (_xor_bits u v).
Proof.
  intros Hcw. revert u v.
  induction Hcw as [|c cw Hc _ IH]; intros [|d u] [|e v] Hu Hv; try done.
  apply Forall_cons in Hu as [Hd Hu]. apply Forall_cons in Hv as [He Hv].
  cbn [_xor_bits zip_with]. f_equal; [|by apply IH].
  destruct Hc as [-> | ->], Hd as [-> | ->], He as [-> | ->]; done.
Qed.

Lemma xor_bits_zeros (cw : str) :
  is_bits cw → _xor_bits cw (replicate (length cw) "0") = cw.
Proof.
  induction 1 as [|c cw Hc _ IH]; [done|].
  cbn [length replicate _xor_bits zip_with].
  change (zip_with _ cw (replicate (length cw) "0"))
    with (_xor_bits cw (replicate (length cw) "0")).
  rewrite IH. f_equal. by destruct Hc as [-> | ->].
Qed.

(** X11: shifts compose: for bit strings of one length, shifting by [u] and
    then by [v] is shifting once by the XOR of [u] and [v]; and shifting by
    the all-zero vector changes nothing. *)
Theorem create_coset_compose (code : list str) (u v : str) :
  Forall (λ cw, is_bits cw ∧ length cw = length u) code →
  is_bits u → is_bits v → length u = length v →
  (∃ coset, create_coset code u = Ok coset
            ∧ create_coset coset v = create_coset code (_xor_bits u v))
  ∧ create_coset code (replicate (length u) "0") = Ok code.
Proof.
  intros Hcode Hu Hv Hlen.
  assert (Forall (λ cw, length cw = length u) code) as Hl
    by (eapply Forall_impl; [exact Hcode | by intros ? [_ ?]]).
  split.
  - eexists. split; [by apply create_coset_Ok_map|].
    rewrite !create_coset_Ok_map.
    + f_equal. rewrite <- list_fmap_compose.
      apply Forall_fmap_ext_1. eapply Forall_impl; [exact Hcode|].
      intros cw [Hb _]. simpl. by apply xor_bits_assoc.
    + eapply Forall_impl; [exact Hl|]. intros cw Hcw. simpl in Hcw.
      rewrite xor_bits_length. lia.
    + apply Forall_fmap, Forall_forall. intros cw Hcw.
      apply (proj1 (Forall_forall _ _) Hl) in Hcw. simpl.
      rewrite xor_bits_length. lia.
  - rewrite create_coset_Ok_map.
    + f_equal. rewrite <- (list_fmap_id code) at 2.
      apply Forall_fmap_ext_1. eapply Forall_impl; [exact Hcode|].
      intros cw [Hb Hlc]. simpl. rewrite <- Hlc. by apply xor_bits_zeros.
    + eapply Forall_impl; [exact Hl|]. intros cw Hcw. simpl in Hcw.
      by rewrite length_replicate.
Qed.

Lemma create_coset_compose_witness :
  (∃ coset, create_coset (map py ["010"; "101"]%string) (py "110") = Ok coset
            ∧ create_coset coset (py "011")
              = create_coset (map py ["010"; "101"]%string)
                  (_xor_bits (py "110") (py "011")))
  ∧ create_coset (map py ["010"; "101"]%string)
      (replicate (length (py "110")) "0")
    = Ok (map py ["010"; "101"]%string).
Proof.
  apply (create_coset_compose (map py ["010"; "101"]%string)
           (py "110") (py "011")); try reflexivity; solve_bits.
Defined.

(** ** Collisions are overlaps *)

Lemma overlap_close (G : GeneralizedLucasCube) (u v : str) :
  0 < n G → u ∈ vertex_set G → v ∈ vertex_set G →
  ¬ ClosedNeighborhood G u ## ClosedNeighborhood G v →
  zip_dist u v < 3.
Proof.
  intros Hn Hu Hv Hnd.
  rewrite disjoint_intersection_L in Hnd.
  apply set_choose_L in Hnd as (w & Hw).
  apply elem_of_intersection in Hw as [Hwu Hwv].
  assert (∀ x, x ∈ vertex_set G → w ∈ ClosedNeighborhood G x →
               length x = length w ∧ zip_dist x w ≤ 1) as Hnear.
  { intros x Hx Hin. unfold ClosedNeighborhood in Hin.
    apply elem_of_union in Hin as [->%elem_of_singleton|Hin].
    - by rewrite zip_dist_refl; split; [|lia].
    - apply elem_of_filter in Hin as [[? ->]%get_hamming_distance_Ok _].
      split; [done | lia]. }
  destruct (Hnear u Hu Hwu) as [Hlu Hdu].
  destruct (Hnear v Hv Hwv) as [Hlv Hdv].
  pose proof (zip_dist_triangle u w v Hlu (eq_sym Hlv)) as Htri.
  rewrite (zip_dist_sym w v) in Htri. lia.
Qed.

(** X12: for two vertices, the lists that [get_closed_neighborhood] returns
    share no element exactly when the Hamming distance of the vertices is at
    least 3: the collisions of the engines are the overlaps of the
    verifier. *)
Theorem neighborhoods_disjoint_iff_far (n0 s0 : Z) (G : GeneralizedLucasCube)
    (u v : str) (hu hv : list str) :
  lucas_cube.__init__ n0 s0 = Ok G →
  u ∈ vertex_set G → v ∈ vertex_set G →
  get_closed_neighborhood G u = Ok hu →
  get_closed_neighborhood G v = Ok hv →
  ∃ d, get_hamming_distance u v = Ok d
       ∧ ((∀ w, w ∈ hu → w ∉ hv) ↔ 3 ≤ d).
Proof.
  intros Hinit Hu Hv Hhu Hhv. apply init_cube_ok in Hinit as [Hn Hs].
  destruct (closed_neighborhood_of_vertex G Hn u Hu) as (hu' & Hhu' & HNu).
  destruct (closed_neighborhood_of_vertex G Hn v Hv) as (hv' & Hhv' & HNv).
  rewrite Hhu in Hhu'. injection Hhu' as <-.
  rewrite Hhv in Hhv'. injection Hhv' as <-.
  exists (zip_dist u v).
  assert (get_hamming_distance u v = Ok (zip_dist u v)) as Hd.
  { apply get_hamming_distance_Ok. split; [|done].
    by rewrite (vertex_length G u), (vertex_length G v). }
  split; [exact Hd|].
  assert ((∀ w, w ∈ hu → w ∉ hv)
          ↔ ClosedNeighborhood G u ## ClosedNeighborhood G v) as ->.
  { rewrite <- HNu, <- HNv, elem_of_disjoint.
    by setoid_rewrite elem_of_list_to_set. }
  split.
  - intros Hdisj. destruct (decide (3 ≤ zip_dist u v)) as [|Hlt]; [done|].
    exfalso. by apply (close_vertices_overlap G u v (zip_dist u v)); [..|lia|].
  - intros Hfar. destruct (decide (ClosedNeighborhood G u
                                   ## ClosedNeighborhood G v)) as [|Hnd];
      [done|].
    apply overlap_close in Hnd; [lia|done..].
Qed.

Lemma neighborhoods_disjoint_iff_far_witness :
  ∃ d, get_hamming_distance (py "010") (py "101") = Ok d
       ∧ ((∀ w, w ∈ map py ["010"; "110"; "000"; "011"]%string →
                w ∉ map py ["101"; "001"; "100"]%string) ↔ 3 ≤ d).
Proof.
  apply (neighborhoods_disjoint_iff_far 3 3 (mkCube 3 3)
           (py "010") (py "101")).
  - reflexivity.
  - by vm_compute.
  - by vm_compute.
  - vm_compute. reflexivity.
  - vm_compute. reflexivity.
Defined.

(** ** What a perfect code is *)

Lemma pairwise_disjoint_cons (X : gset str) (Xs : list (gset str)) :
  pairwise_disjoint (X :: Xs) ↔ X ## ⋃ Xs ∧ pairwise_disjoint Xs.
Proof.
  unfold pairwise_disjoint. split.
  - intros H. split.
    + apply elem_of_disjoint. intros w Hw Hw'.
      apply elem_of_union_list in Hw' as (Y & HY & Hw').
      apply list_elem_of_lookup in HY as (j & Hj).
      assert (X ## Y) as HXY by (by apply (H 0 (S j))).
      set_solver.
    + intros i j Y Z Hij Hi Hj. apply (H (S i) (S j)); [lia|done|done].
  - intros [Hd H] [|i] [|j] Y Z Hij Hi Hj; simpl in *; [lia| | |].
    + injection Hi as <-. apply elem_of_disjoint. intros w Hw Hw'.
      assert (w ∈ ⋃ Xs); [|set_solver].
      apply elem_of_union_list. exists Z. split; [|done].
      by eapply list_elem_of_lookup_2.
    + injection Hj as <-. apply elem_of_disjoint. intros w Hw Hw'.
      assert (w ∈ ⋃ Xs); [|set_solver].
      apply elem_of_union_list. exists Y. split; [|done].
      by eapply list_elem_of_lookup_2.
    + apply (H i j); [lia|done|done].
Qed.

Lemma pairwise_disjoint_perm (Xs Ys : list (gset str)) :
  Xs ≡ₚ Ys → pairwise_disjoint Xs → pairwise_disjoint Ys.
Proof.
  induction 1 as [|X Xs Ys HP IH|X Y Xs|Xs Ys Zs _ IH1 _ IH2]; [done| | |auto].
  - rewrite !pairwise_disjoint_cons. intros [Hd Hpd]. split; [|auto].
    apply elem_of_disjoint. intros w Hw Hw'.
    assert (w ∈ ⋃ Xs); [|set_solver].
    apply elem_of_union_list in Hw' as (Z & HZ & Hw').
    apply elem_of_union_list. exists Z. by rewrite HP.
  - rewrite !pairwise_disjoint_cons, !union_list_cons. set_solver.
Qed.

Lemma union_list_perm (Xs Ys : list (gset str)) : Xs ≡ₚ Ys → ⋃ Xs = ⋃ Ys.
Proof.
  intros HP. apply set_eq. intros w. rewrite !elem_of_union_list.
  by setoid_rewrite HP.
Qed.

(** X13: the verdict of [is_perfect_code] does not depend on the order of
    the codewords. *)
Theorem is_perfect_code_order (n0 s0 : Z) (G : GeneralizedLucasCube)
    (C C' : list str) :
  lucas_cube.__init__ n0 s0 = Ok G →
  C ≡ₚ C' →
  is_perfect_code (mkSearcher G) C = is_perfect_code (mkSearcher G) C'.
Proof.
  intros Hinit HP. apply init_cube_ok in Hinit as [Hn Hs].
  destruct (is_perfect_code_char G Hn C) as (b & -> & Hb).
  destruct (is_perfect_code_char G Hn C') as (b' & -> & Hb').
  f_equal. apply eq_bool_prop_intro. unfold Is_true.
  assert (∀ (D D' : list str), D ≡ₚ D' →
            D ≠ []
            ∧ Forall (λ c, c ∈ vertex_set G) D
            ∧ (∀ pre c post, D = pre ++ c :: post →
                 ClosedNeighborhood G c ## ⋃ (ClosedNeighborhood G <$> pre))
            ∧ ⋃ (ClosedNeighborhood G <$> D) = vertex_set G →
            D' ≠ []
            ∧ Forall (λ c, c ∈ vertex_set G) D'
            ∧ (∀ pre c post, D' = pre ++ c :: post →
                 ClosedNeighborhood G c ## ⋃ (ClosedNeighborhood G <$> pre))
            ∧ ⋃ (ClosedNeighborhood G <$> D') = vertex_set G) as Hmove.
  { intros D D' HD (Hne & HF & Hsplit & Hcov). split_and!.
    - intros ->. by apply Permutation_nil_r in HD.
    - by rewrite <- HD.
    - apply pairwise_disjoint_splits.
      apply (pairwise_disjoint_perm (ClosedNeighborhood G <$> D));
        [by apply fmap_Permutation|].
      by apply pairwise_disjoint_splits.
    - rewrite <- Hcov. symmetry. apply union_list_perm.
      by apply fmap_Permutation. }
  destruct b, b'; try done.
  - assert (false = true); [|done]. apply Hb'.
    apply (Hmove C C' HP). by apply Hb.
  - assert (false = true); [|done]. apply Hb.
    apply (Hmove C' C (symmetry HP)). by apply Hb'.
Qed.

Lemma is_perfect_code_order_witness :
  is_perfect_code (mkSearcher (mkCube 3 3)) (map py ["010"; "101"]%string)
  = is_perfect_code (mkSearcher (mkCube 3 3)) (map py ["101"; "010"]%string).
Proof.
  apply (is_perfect_code_order 3 3 (mkCube 3 3)); [reflexivity|].
  apply perm_swap.
Defined.

Lemma size_union_list_disjoint (Xs : list (gset str)) :
  pairwise_disjoint Xs → size (⋃ Xs) = sum_list (size <$> Xs).
Proof.
  induction Xs as [|X Xs IH]; [done|].
  rewrite pairwise_disjoint_cons. intros [Hd Hpd].
  rewrite union_list_cons, size_union by done.
  rewrite fmap_cons. simpl. by rewrite IH.
Qed.

Lemma ClosedNeighborhood_subseteq (G : GeneralizedLucasCube) (v : str) :
  v ∈ vertex_set G → ClosedNeighborhood G v ⊆ vertex_set G.
Proof. unfold ClosedNeighborhood. set_solver. Qed.

Lemma union_neighborhoods_subseteq (G : GeneralizedLucasCube) (C : list str) :
  Forall (λ c, c ∈ vertex_set G) C →
  ⋃ (ClosedNeighborhood G <$> C) ⊆ vertex_set G.
Proof.
  intros HF w Hw. apply elem_of_union_neighborhoods in Hw as (c & Hc & Hw).
  rewrite Forall_forall in HF.
  by apply (ClosedNeighborhood_subseteq G c); [apply HF|].
Qed.

Lemma far_codewords_disjoint (G : GeneralizedLucasCube) (C : list str) :
  0 < n G → 1 < s G →
  Forall (λ c, c ∈ vertex_set G) C →
  pairwise_disjoint (ClosedNeighborhood G <$> C) ↔
  ∀ i j u v, i ≠ j → C !! i = Some u → C !! j = Some v → 3 ≤ zip_dist u v.
Proof.
  intros Hn Hs HF. rewrite Forall_lookup in HF. split.
  - intros Hpd i j u v Hij Hi Hj.
    destruct (decide (3 ≤ zip_dist u v)) as [|Hlt]; [done|]. exfalso.
    apply (close_vertices_overlap G u v (zip_dist u v)); eauto; [|lia|].
    + apply get_hamming_distance_Ok. split; [|done].
      rewrite (vertex_length G u), (vertex_length G v); eauto.
    + apply (Hpd i j); [done|by rewrite list_lookup_fmap, ?Hi, ?Hj..].
  - intros Hfar i j X Y Hij Hi Hj.
    rewrite list_lookup_fmap in Hi, Hj.
    destruct (C !! i) as [u|] eqn:Hu; [|done].
    destruct (C !! j) as [v|] eqn:Hv; [|done].
    injection Hi as <-. injection Hj as <-.
    destruct (decide (ClosedNeighborhood G u ## ClosedNeighborhood G v))
      as [|Hnd]; [done|].
    apply overlap_close in Hnd; eauto.
    specialize (Hfar i j u v Hij Hu Hv). lia.
Qed.

(** X14: sphere packing.  [is_perfect_code] accepts a list exactly when its
    codewords are vertices, any two of them (at different positions) are at
    Hamming distance at least 3, and the sizes of their closed neighbourhoods
    add up to the number of vertices of the cube. *)
Theorem perfect_code_sphere_packing (n0 s0 : Z) (G : GeneralizedLucasCube)
    (C : list str) :
  lucas_cube.__init__ n0 s0 = Ok G →
  is_perfect_code (mkSearcher G) C = Ok true ↔
  Forall (λ c, c ∈ vertex_set G) C
  ∧ (∀ i j u v, i ≠ j → C !! i = Some u → C !! j = Some v →
       3 ≤ zip_dist u v)
  ∧ sum_list ((λ c, size (ClosedNeighborhood G c)) <$> C) = __len__ G.
Proof.
  intros Hinit. apply init_cube_ok in Hinit as [Hn Hs].
  destruct (is_perfect_code_char G Hn C) as (b & -> & Hb).
  assert (size (vertex_set G) = __len__ G) as Hsize.
  { unfold vertex_set, __len__. apply size_list_to_set, vertices_NoDup. }
  assert (Ok b = Ok true ↔ b = true) as -> by (split; congruence).
  rewrite Hb. clear Hb. split.
  - intros (Hne & HF & Hsplit & Hcov).
    apply pairwise_disjoint_splits in Hsplit. split_and!; [done|..].
    + by apply (proj1 (far_codewords_disjoint G C Hn Hs HF)).
    + rewrite <- Hsize, <- Hcov, size_union_list_disjoint by done.
      by rewrite <- list_fmap_compose.
  - intros (HF & Hfar & Hsum).
    apply (proj2 (far_codewords_disjoint G C Hn Hs HF)) in Hfar.
    assert (size (⋃ (ClosedNeighborhood G <$> C)) = size (vertex_set G))
      as Hsz.
    { rewrite size_union_list_disjoint, <- list_fmap_compose by done.
      unfold compose. by rewrite Hsum. }
    split_and!; [|done| |].
    + intros ->. simpl in Hsum.
      pose proof (zeros_in_vertex_set G Hn ltac:(lia)) as Hz.
      assert (vertex_set G ≡ ∅) as Hemp; [|set_solver].
      apply size_empty_iff. lia.
    + by apply pairwise_disjoint_splits.
    + apply set_subseteq_size_eq; [|lia].
      by apply union_neighborhoods_subseteq.
Qed.

Lemma perfect_code_sphere_packing_witness :
  is_perfect_code (mkSearcher (mkCube 3 3)) (map py ["010"; "101"]%string)
  = Ok true ↔
  Forall (λ c, c ∈ vertex_set (mkCube 3 3)) (map py ["010"; "101"]%string)
  ∧ (∀ i j u v, i ≠ j →
       map py ["010"; "101"]%string !! i = Some u →
       map py ["010"; "101"]%string !! j = Some v →
       3 ≤ zip_dist u v)
  ∧ sum_list ((λ c, size (ClosedNeighborhood (mkCube 3 3) c))
                <$> map py ["010"; "101"]%string)
    = __len__ (mkCube 3 3).
Proof. apply (perfect_code_sphere_packing 3 3). reflexivity. Defined.

(** X15: in a list that [is_perfect_code] accepts no codeword occurs twice,
    and every vertex of the cube is at Hamming distance at most 1 from
    exactly one codeword. *)
Theorem perfect_code_unique_cover (n0 s0 : Z) (G : GeneralizedLucasCube)
    (C : list str) :
  lucas_cube.__init__ n0 s0 = Ok G →
  is_perfect_code (mkSearcher G) C = Ok true →
  NoDup C
  ∧ ∀ v, v ∈ vertex_set G →
      ∃ c, c ∈ C ∧ zip_dist c v ≤ 1
           ∧ ∀ c', c' ∈ C → zip_dist c' v ≤ 1 → c' = c.
Proof.
  intros Hinit Hok. apply init_cube_ok in Hinit as [Hn Hs].
  destruct (is_perfect_code_char G Hn C) as (b & Hrun & Hb).
  rewrite Hok in Hrun. injection Hrun as <-.
  destruct (proj1 Hb eq_refl) as (Hne & HF & Hsplit & Hcov).
  apply pairwise_disjoint_splits in Hsplit.
  rewrite Forall_forall in HF.
  assert (∀ c v, c ∈ vertex_set G → v ∈ vertex_set G →
            v ∈ ClosedNeighborhood G c ↔ zip_dist c v ≤ 1) as Hball.
  { intros c v Hc Hv.
    assert (length c = length v) as Hlen
      by by rewrite (vertex_length G c), (vertex_length G v).
    unfold ClosedNeighborhood.
    rewrite elem_of_union, elem_of_singleton, elem_of_filter,
      get_hamming_distance_Ok.
    split.
    - intros [->|[[_ ?] _]]; [rewrite zip_dist_refl|]; lia.
    - intros Hle. destruct (zip_dist c v) as [|[|d]] eqn:Hd; [| |lia].
      + left. symmetry. by apply zip_dist_0.
      + by right. }
  assert (NoDup C) as HND.
  { apply NoDup_alt. intros i j c Hi Hj.
    destruct (decide (i = j)) as [|Hij]; [done|]. exfalso.
    assert (ClosedNeighborhood G c ## ClosedNeighborhood G c) as Hd
      by (apply (Hsplit i j); [done|by rewrite list_lookup_fmap, ?Hi, ?Hj..]).
    pose proof (self_in_ClosedNeighborhood G c). set_solver. }
  split; [done|]. intros v Hv.
  pose proof Hv as Hv'. rewrite <- Hcov in Hv'.
  apply elem_of_union_neighborhoods in Hv' as (c & Hc & Hvc).
  exists c. split_and!; [done|by apply Hball; auto|].
  intros c' Hc' Hle. apply Hball in Hle; auto.
  destruct (decide (c' = c)) as [|Hne']; [done|]. exfalso.
  apply list_elem_of_lookup in Hc as (i & Hi).
  apply list_elem_of_lookup in Hc' as (j & Hj).
  assert (i ≠ j) by (intros ->; congruence).
  assert (ClosedNeighborhood G c ## ClosedNeighborhood G c') as Hd
    by (apply (Hsplit i j); [done|by rewrite list_lookup_fmap, ?Hi, ?Hj..]).
  set_solver.
Qed.

Lemma perfect_code_unique_cover_witness :
  NoDup (map py ["010"; "101"]%string)
  ∧ ∀ v, v ∈ vertex_set (mkCube 3 3) →
      ∃ c, c ∈ map py ["010"; "101"]%string ∧ zip_dist c v ≤ 1
           ∧ ∀ c', c' ∈ map py ["010"; "101"]%string →
                   zip_dist c' v ≤ 1 → c' = c.
Proof.
  apply (perfect_code_unique_cover 3 3 (mkCube 3 3)); reflexivity.
Defined.

(** ** The Hamming code of [generate_hamming_code] *)

Lemma syndrome_loop_acc (j : nat) (bits : str) (acc : N) :
  syndrome_loop j bits acc = N.lxor acc (syndrome_loop j bits 0).
Proof.
  revert j acc. induction bits as [|b bits IH]; intros j acc; simpl.
  - by rewrite N.lxor_0_r.
  - destruct (Ascii.eqb b "1"); [|apply IH].
    rewrite (IH _ (N.lxor acc _)), (IH _ (N.lxor 0 _)).
    by rewrite N.lxor_0_l, N.lxor_assoc.
Qed.

Lemma syndrome_loop_cons (j : nat) (b : ascii) (bits : str) :
  syndrome_loop j (b :: bits) 0
  = N.lxor (if Ascii.eqb b "1" then N.of_nat (j + 1) else 0%N)
           (syndrome_loop (S j) bits 0).
Proof.
  simpl. destruct (Ascii.eqb b "1").
  - by rewrite syndrome_loop_acc, N.lxor_0_l.
  - by rewrite N.lxor_0_l.
Qed.

Lemma syndrome_flip (j : nat) (v : str) (i : nat) :
  is_bits v → i < length v →
  syndrome_loop j (flip_at v i) 0
  = N.lxor (syndrome_loop j v 0) (N.of_nat (j + i + 1)).
Proof.
  intros Hv. revert j i.
  induction Hv as [|c v Hc Hv IH]; intros j i Hi; simpl in Hi; [lia|].
  destruct i as [|i].
  - rewrite flip_at_cons_0, !syndrome_loop_cons, Nat.add_0_r.
    destruct Hc as [-> | ->]; simpl.
    + by rewrite N.lxor_0_l, N.lxor_comm.
    + by rewrite N.lxor_0_l, (N.lxor_comm (N.of_nat _)), N.lxor_assoc,
        N.lxor_nilpotent, N.lxor_0_r.
  - rewrite flip_at_cons_S, !syndrome_loop_cons, IH by lia.
    rewrite N.lxor_assoc. do 3 f_equal. lia.
Qed.

Lemma syndrome_xor (j : nat) (a b : str) :
  is_bits a → is_bits b → length a = length b →
  syndrome_loop j (_xor_bits a b) 0
  = N.lxor (syndrome_loop j a 0) (syndrome_loop j b 0).
Proof.
  intros Ha. revert j b.
  induction Ha as [|x a Hx Ha IH]; intros j [|y b] Hb Hlen; try done.
  apply Forall_cons in Hb as [Hy Hb]. simpl in Hlen.
  change (_xor_bits (x :: a) (y :: b))
    with ((if Ascii.eqb x y then "0" else "1") :: _xor_bits a b).
  rewrite !syndrome_loop_cons, IH by (done || lia).
  set (sa := syndrome_loop (S j) a 0). set (sb := syndrome_loop (S j) b 0).
  set (k := N.of_nat (j + 1)).
  destruct Hx as [-> | ->], Hy as [-> | ->]; simpl;
    apply N.bits_inj; intros m; rewrite ?N.lxor_spec, ?N.bits_0;
    by destruct (N.testbit k m), (N.testbit sa m), (N.testbit sb m).
Qed.

Lemma lxor_lt_pow2 (a b k : N) :
  (a < 2 ^ k → b < 2 ^ k → N.lxor a b < 2 ^ k)%N.
Proof.
  intros Ha Hb.
  destruct (N.eq_dec a 0%N) as [->|Ha0]; [by rewrite N.lxor_0_l|].
  destruct (N.eq_dec b 0%N) as [->|Hb0]; [by rewrite N.lxor_0_r|].
  destruct (N.eq_dec (N.lxor a b) 0%N) as [->|Hx0]; [lia|].
  apply N.log2_lt_pow2; [lia|].
  apply N.log2_lt_pow2 in Ha; [|lia]. apply N.log2_lt_pow2 in Hb; [|lia].
  pose proof (N.log2_lxor a b). lia.
Qed.

Lemma syndrome_bound (j : nat) (v : str) (k : N) :
  (N.of_nat (j + length v) < 2 ^ k)%N →
  (syndrome_loop j v 0 < 2 ^ k)%N.
Proof.
  revert j. induction v as [|b v IH]; intros j Hlt.
  - simpl. lia.
  - rewrite syndrome_loop_cons. simpl in Hlt. apply lxor_lt_pow2.
    + destruct (Ascii.eqb b "1"); lia.
    + apply IH. by replace (S j + length v) with (j + S (length v)) by lia.
Qed.

Lemma syndrome_zeros (j k : nat) :
  syndrome_loop j (replicate k "0") 0 = 0%N.
Proof.
  revert j. induction k as [|k IH]; intros j; [done|].
  simpl replicate. by rewrite syndrome_loop_cons, IH.
Qed.

Lemma hamming_length (r : Z) :
  (0 < r)%Z →
  (0 < 2 ^ r - 1)%Z
  ∧ N.of_nat (Z.to_nat (2 ^ r - 1)) = (2 ^ Z.to_N r - 1)%N
  ∧ (2 <= 2 ^ Z.to_N r)%N.
Proof.
  intros Hr.
  assert (2 ^ 1 <= 2 ^ r)%Z as Hle by (apply Z.pow_le_mono_r; lia).
  change (2 ^ 1)%Z with 2%Z in Hle.
  assert (Z.of_N (2 ^ Z.to_N r) = 2 ^ r)%Z as Hpow.
  { rewrite N2Z.inj_pow, Z2N.id by lia. done. }
  lia.
Qed.

Lemma generate_hamming_code_Ok (r : Z) :
  (0 < r)%Z →
  ∃ code, generate_hamming_code r = Ok code
    ∧ NoDup code
    ∧ ∀ v, v ∈ code ↔
        is_bits v ∧ length v = Z.to_nat (2 ^ r - 1)
        ∧ syndrome_loop 0 v 0 = 0%N.
Proof.
  intros Hr. destruct (hamming_length r Hr) as (Hn & HnN & Hp).
  unfold generate_hamming_code. cbv zeta.
  destruct (Z.leb_spec (2 ^ r - 1) 0) as [|_]; [lia|].
  eexists. split; [reflexivity|]. split.
  - apply NoDup_filter, NoDup_fmap_2_strong.
    + intros i j _ _. apply format_0b_inj.
    + unfold range. apply NoDup_fmap; [apply _ | apply NoDup_seq].
  - intros v.
    rewrite list_elem_of_filter, list_elem_of_fmap, N.shiftl_1_l.
    assert (Z.to_N (2 ^ r - 1) = N.of_nat (Z.to_nat (2 ^ r - 1))) as ->
      by lia.
    split.
    + intros (Hok & i & -> & Hi). apply elem_of_range in Hi.
      split_and!; [apply format_0b_bits | apply format_0b_length; lia | done].
    + intros (Hb & Hl & Hok). split; [done|].
      destruct (format_0b_surj v Hb) as (i & Hi & Hfmt).
      { intros ->. simpl in Hl. lia. }
      exists i. rewrite <- Hl. split; [done|]. by apply elem_of_range.
Qed.

Lemma generate_hamming_code_raises (r : Z) :
  (r <= 0)%Z → generate_hamming_code r = Raise ValueError.
Proof.
  intros Hr. unfold generate_hamming_code. cbv zeta.
  destruct (Z.leb_spec (2 ^ r - 1) 0) as [|Hgt]; [done|].
  destruct (Z.eq_dec r 0%Z) as [->|]; [simpl in Hgt; lia|].
  rewrite Z.pow_neg_r in Hgt by lia. lia.
Qed.

Lemma generate_hamming_code_pos (r : Z) (code : list str) :
  generate_hamming_code r = Ok code → (0 < r)%Z.
Proof.
  intros Hgen. destruct (Z.ltb_spec 0 r) as [|Hle]; [done|].
  by rewrite generate_hamming_code_raises in Hgen.
Qed.

Lemma hamming_code_far (r : Z) (code : list str) (u v : str) :
  generate_hamming_code r = Ok code →
  u ∈ code → v ∈ code → u ≠ v →
  length u = length v ∧ 3 ≤ zip_dist u v.
Proof.
  intros Hgen Hu Hv Hne.
  pose proof (generate_hamming_code_pos r code Hgen) as Hr.
  destruct (generate_hamming_code_Ok r Hr) as (code' & Hgen' & _ & Hmem).
  rewrite Hgen in Hgen'. injection Hgen' as <-.
  apply Hmem in Hu as (Hbu & Hlu & Hsu). apply Hmem in Hv as (Hbv & Hlv & Hsv).
  assert (length u = length v) as Hlen by congruence. split; [done|].
  destruct (zip_dist u v) as [|[|[|d]]] eqn:Hd; [| | |lia]; exfalso.
  - by apply Hne, zip_dist_0.
  - destruct (flip_of_zip_dist_1 u v Hbu Hbv Hlen Hd) as (i & Hi & ->).
    rewrite syndrome_flip, Hsu, N.lxor_0_l in Hsv by done. lia.
  - destruct (flips_of_zip_dist_2 u v Hbu Hbv Hlen Hd) as (p & q & Hpq & ->).
    rewrite syndrome_flip in Hsv;
      [|by apply flip_at_bits|rewrite flip_at_length; lia].
    rewrite syndrome_flip, Hsu, N.lxor_0_l in Hsv by (done || lia).
    apply N.lxor_eq in Hsv. lia.
Qed.

Lemma hamming_code_covers (r : Z) (code : list str) (w : str) :
  generate_hamming_code r = Ok code →
  is_bits w → length w = Z.to_nat (2 ^ r - 1) →
  ∃ c, c ∈ code ∧ length c = length w ∧ zip_dist c w ≤ 1.
Proof.
  intros Hgen Hw Hlen.
  pose proof (generate_hamming_code_pos r code Hgen) as Hr.
  destruct (hamming_length r Hr) as (Hn & HnN & Hp).
  destruct (generate_hamming_code_Ok r Hr) as (code' & Hgen' & _ & Hmem).
  rewrite Hgen in Hgen'. injection Hgen' as <-.
  destruct (N.eq_dec (syndrome_loop 0 w 0) 0%N) as [H0|Hne].
  - exists w. rewrite zip_dist_refl. split_and!; [by apply Hmem|done|lia].
  - pose proof (syndrome_bound 0 w (Z.to_N r)) as Hb.
    rewrite Nat.add_0_l, Hlen, HnN in Hb. specialize (Hb ltac:(lia)).
    set (σ := syndrome_loop 0 w 0) in *.
    assert (N.to_nat σ - 1 < length w) as Hi by lia.
    exists (flip_at w (N.to_nat σ - 1)). split_and!.
    + apply Hmem. split_and!.
      * by apply flip_at_bits.
      * by rewrite flip_at_length.
      * rewrite syndrome_flip by done. fold σ.
        replace (N.of_nat (0 + (N.to_nat σ - 1) + 1)) with σ by lia.
        apply N.lxor_nilpotent.
    + apply flip_at_length.
    + rewrite zip_dist_sym, zip_dist_flip by done. lia.
Qed.

(** X16: [generate_hamming_code(r)] raises ValueError exactly when [r <= 0].
    Otherwise it returns a list without duplicates whose first element is
    the zero word and whose elements are bit strings of length [2^r - 1]. *)
Theorem generate_hamming_code_shape (r : Z) :
  (generate_hamming_code r = Raise ValueError ↔ (r <= 0)%Z)
  ∧ ((0 < r)%Z →
     ∃ code, generate_hamming_code r = Ok code
       ∧ NoDup code
       ∧ head code = Some (replicate (Z.to_nat (2 ^ r - 1)) "0")
       ∧ ∀ v, v ∈ code → is_bits v ∧ length v = Z.to_nat (2 ^ r - 1)).
Proof.
  split.
  - split.
    + intros Hraise. destruct (Z.ltb_spec 0 r) as [Hr|]; [|done].
      destruct (generate_hamming_code_Ok r Hr) as (code & Hgen & _).
      congruence.
    + apply generate_hamming_code_raises.
  - intros Hr. destruct (hamming_length r Hr) as (Hn & HnN & Hp).
    destruct (generate_hamming_code_Ok r Hr) as (code & Hgen & HND & Hmem).
    exists code. split_and!; [done|done| |by intros v (? & ? & _)%Hmem].
    unfold generate_hamming_code in Hgen. cbv zeta in Hgen.
    destruct (Z.leb_spec (2 ^ r - 1) 0) as [|_]; [lia|].
    injection Hgen as <-.
    rewrite N.shiftl_1_l. unfold range.
    destruct (N.to_nat (2 ^ Z.to_N (2 ^ r - 1))) as [|m] eqn:Hm.
    { pose proof (N.pow_nonzero 2 (Z.to_N (2 ^ r - 1))). lia. }
    simpl seq. rewrite !fmap_cons, filter_cons.
    assert (format_0b (Z.to_nat (2 ^ r - 1)) (N.of_nat 0)
            = replicate (Z.to_nat (2 ^ r - 1)) "0") as ->.
    { unfold format_0b. simpl.
      replace (Z.to_nat (2 ^ r - 1)) with (S (Z.to_nat (2 ^ r - 1) - 1))
        at 2 by lia.
      rewrite replicate_S_end. done. }
    by rewrite decide_True by apply syndrome_zeros.
Qed.

(** X17: the code of [generate_hamming_code] is linear: the bitwise XOR of
    two codewords is a codeword. *)
Theorem hamming_code_linear (r : Z) (code : list str) (u v : str) :
  generate_hamming_code r = Ok code →
  u ∈ code → v ∈ code → _xor_bits u v ∈ code.
Proof.
  intros Hgen Hu Hv.
  pose proof (generate_hamming_code_pos r code Hgen) as Hr.
  destruct (generate_hamming_code_Ok r Hr) as (code' & Hgen' & _ & Hmem).
  rewrite Hgen in Hgen'. injection Hgen' as <-.
  apply Hmem in Hu as (Hbu & Hlu & Hsu). apply Hmem in Hv as (Hbv & Hlv & Hsv).
  apply Hmem. split_and!.
  - apply xor_bits_bits.
  - rewrite xor_bits_length. lia.
  - rewrite syndrome_xor, Hsu, Hsv by (done || congruence). done.
Qed.

Lemma hamming_code_linear_witness :
  _xor_bits (py "0001111") (py "0010110")
  ∈ filter (λ bits, syndrome_loop 0 bits 0 = 0%N)
      (map (format_0b 7) (range 128)).
Proof.
  apply (hamming_code_linear 3); [reflexivity|..];
    refine (bool_decide_unpack _ _); vm_compute; exact I.
Defined.

(** X18: two different codewords of [generate_hamming_code(r)] are at
    Hamming distance at least 3. *)
Theorem hamming_code_distance (r : Z) (code : list str) (u v : str) :
  generate_hamming_code r = Ok code →
  u ∈ code → v ∈ code → u ≠ v →
  ∃ d, get_hamming_distance u v = Ok d ∧ 3 ≤ d.
Proof.
  intros Hgen Hu Hv Hne.
  destruct (hamming_code_far r code u v Hgen Hu Hv Hne) as [Hlen Hd].
  exists (zip_dist u v). split; [|done]. by apply get_hamming_distance_Ok.
Qed.

Lemma hamming_code_distance_witness :
  ∃ d, get_hamming_distance (py "0001111") (py "0010110") = Ok d ∧ 3 ≤ d.
Proof.
  apply (hamming_code_distance 3
           (filter (λ bits, syndrome_loop 0 bits 0 = 0%N)
              (map (format_0b 7) (range 128)))).
  - reflexivity.
  - refine (bool_decide_unpack _ _); vm_compute; exact I.
  - refine (bool_decide_unpack _ _); vm_compute; exact I.
  - discriminate.
Defined.

(** When [s] exceeds [n] no string of length [n] is long enough to hold the
    forbidden pattern, and the cube is the whole hypercube. *)
Lemma hypercube_vertex (G : GeneralizedLucasCube) (v : str) :
  0 < n G → n G < s G →
  v ∈ vertex_set G ↔ is_bits v ∧ length v = n G.
Proof.
  intros Hn Hs. rewrite elem_of_vertex_set by done.
  split; [by intros (? & ? & _)|]. intros [Hb Hl]. split_and!; [done..|].
  unfold _has_forbidden_substring, forbidden_pattern.
  rewrite length_replicate, Hl.
  by destruct (Nat.ltb_spec (n G) (s G)); [|lia].
Qed.

Lemma hamming_code_perfect_in (r : Z) (code : list str)
    (G : GeneralizedLucasCube) :
  generate_hamming_code r = Ok code →
  n G = Z.to_nat (2 ^ r - 1) → n G < s G →
  is_perfect_code (mkSearcher G) code = Ok true.
Proof.
  intros Hgen HnG Hs.
  pose proof (generate_hamming_code_pos r code Hgen) as Hr.
  destruct (hamming_length r Hr) as (Hpos & HnN & Hp).
  assert (0 < n G) as Hn by lia.
  destruct (generate_hamming_code_Ok r Hr) as (code' & Hgen' & HND & Hmem).
  rewrite Hgen in Hgen'. injection Hgen' as <-.
  assert (Forall (λ c, c ∈ vertex_set G) code) as HF.
  { apply Forall_forall. intros c (Hb & Hl & _)%Hmem.
    apply hypercube_vertex; [done..|]. split; [done|congruence]. }
  destruct (is_perfect_code_char G Hn code) as (b & -> & Hb).
  f_equal. apply Hb. split_and!; [|done| |].
  - intros ->.
    assert (replicate (n G) "0" ∈ @nil str) as Hin; [|by inversion Hin].
    apply Hmem. split_and!.
    + apply Forall_replicate. by left.
    + by rewrite length_replicate.
    + apply syndrome_zeros.
  - apply pairwise_disjoint_splits.
    apply (proj2 (far_codewords_disjoint G code Hn ltac:(lia) HF)).
    intros i j u v Hij Hi Hj.
    apply (hamming_code_far r code u v Hgen).
    + by eapply list_elem_of_lookup_2.
    + by eapply list_elem_of_lookup_2.
    + intros ->. apply Hij. by apply (proj1 (NoDup_alt code) HND i j v).
  - apply set_eq. intros w. split.
    + by apply union_neighborhoods_subseteq.
    + intros Hw. pose proof Hw as Hw'.
      apply hypercube_vertex in Hw' as [Hbw Hlw]; [|done..].
      destruct (hamming_code_covers r code w Hgen Hbw ltac:(congruence))
        as (c & Hc & Hlc & Hd).
      apply elem_of_union_neighborhoods. exists c. split; [done|].
      unfold ClosedNeighborhood.
      destruct (zip_dist c w) as [|[|d]] eqn:Hcw; [| |lia].
      * apply zip_dist_0 in Hcw; [|done]. set_solver.
      * apply elem_of_union_r, elem_of_filter. split; [|done].
        by apply get_hamming_distance_Ok.
Qed.

(** X19: in a cube whose forbidden run is longer than the strings, which is
    the whole hypercube, [is_perfect_code] accepts the code of
    [generate_hamming_code]. *)
Theorem hamming_code_perfect (r s0 : Z) (code : list str)
    (G : GeneralizedLucasCube) :
  generate_hamming_code r = Ok code →
  lucas_cube.__init__ (2 ^ r - 1) s0 = Ok G →
  (2 ^ r - 1 < s0)%Z →
  is_perfect_code (mkSearcher G) code = Ok true.
Proof.
  intros Hgen Hinit Hs.
  apply init_cube_eq in Hinit as (-> & Hn & Hs0).
  apply (hamming_code_perfect_in r); [done|done|simpl; lia].
Qed.

Lemma hamming_code_perfect_witness :
  is_perfect_code (mkSearcher (mkCube 3 4)) (map py ["000"; "111"]%string)
  = Ok true.
Proof.
  apply (hamming_code_perfect 2 4); [reflexivity|reflexivity|lia].
Defined.

(** ** Strategy 1: shifting the Hamming code *)

Lemma result_bind_ret_l {A B} (f : A → result B) (a : A) : Ok a ≫= f = f a.
Proof. done. Qed.

Lemma for_first_Some {A R} (xs : list A) (body : A → result (option R))
    (y : R) :
  for_first xs body = Ok (Some y) → ∃ x, x ∈ xs ∧ body x = Ok (Some y).
Proof.
  induction xs as [|x xs IH]; simpl; [done|].
  destruct (body x) as [[y'|]|e] eqn:Hb; simpl; [| |done].
  - intros [= ->]. exists x. split; [left|done].
  - intros (x' & Hx' & Hb')%IH. exists x'. split; [by right|done].
Qed.

Lemma for_first_None {A R} (xs : list A) (body : A → result (option R)) :
  for_first xs body = Ok None ↔ ∀ x, x ∈ xs → body x = Ok None.
Proof.
  induction xs as [|x xs IH]; simpl.
  - split; [by intros _ x Hx%elem_of_nil | done].
  - destruct (body x) as [[y'|]|e] eqn:Hb; simpl.
    + split; [done|]. intros H. specialize (H x ltac:(left)). congruence.
    + rewrite IH. split.
      * intros H x' [->|Hx']%elem_of_cons; auto.
      * intros H x' Hx'. apply H. by right.
    + split; [done|]. intros H. specialize (H x ltac:(left)). congruence.
Qed.

Lemma elem_of_combinations {A} (xs : list A) (k : nat) (ps : list A) :
  ps ∈ combinations xs k ↔ length ps = k ∧ sublist ps xs.
Proof.
  revert k ps. induction xs as [|x xs IH]; intros [|k] ps; simpl.
  - rewrite list_elem_of_singleton. split.
    + intros ->. split; [done|constructor].
    + by intros [->%nil_length_inv _].
  - split; [by intros ?%elem_of_nil|].
    intros [Hl ->%sublist_nil_r]. done.
  - rewrite list_elem_of_singleton. split.
    + intros ->. split; [done|apply sublist_nil_l].
    + by intros [->%nil_length_inv _].
  - rewrite elem_of_app, list_elem_of_fmap. setoid_rewrite IH. split.
    + intros [(ps' & -> & Hl & Hs)|[Hl Hs]].
      * split; [simpl; lia | by apply sublist_skip].
      * split; [done | by apply sublist_cons].
    + intros [Hl Hs]. apply sublist_cons_r in Hs as [Hs|(ps' & -> & Hs)].
      * by right.
      * left. exists ps'. split_and!; [done| |done]. simpl in Hl. lia.
Qed.

Lemma insert_one_bits (v : str) (i : nat) :
  is_bits v → is_bits (<[i := "1"]> v).
Proof. intros Hv. apply Forall_insert; [done | by right]. Qed.

Lemma insert_one_weight (v : str) (i : nat) :
  hamming_weight (<[i := "1"]> v) ≤ S (hamming_weight v).
Proof.
  unfold hamming_weight. revert i.
  induction v as [|c v IH]; intros [|i]; simpl; [lia..| |].
  - rewrite !filter_cons. repeat case_decide; simpl; lia.
  - rewrite !filter_cons. specialize (IH i).
    case_decide; simpl; lia.
Qed.

Lemma shift_vector_props (n0 : nat) (positions : list nat) :
  length (shift_vector n0 positions) = n0
  ∧ is_bits (shift_vector n0 positions)
  ∧ hamming_weight (shift_vector n0 positions) ≤ length positions.
Proof.
  unfold shift_vector.
  assert (∀ v, length (foldl (λ v_list pos, <[pos := "1"]> v_list) v positions)
               = length v
             ∧ (is_bits v →
                is_bits (foldl (λ v_list pos, <[pos := "1"]> v_list) v
                           positions))
             ∧ hamming_weight
                 (foldl (λ v_list pos, <[pos := "1"]> v_list) v positions)
               ≤ hamming_weight v + length positions) as H.
  { induction positions as [|p ps IH]; intros v; simpl.
    - split_and!; [done|done|lia].
    - destruct (IH (<[p := "1"]> v)) as (Hl & Hb & Hw).
      rewrite length_insert in Hl.
      pose proof (insert_one_weight v p).
      split_and!; [done| |lia].
      intros Hv. by apply Hb, insert_one_bits. }
  destruct (H (replicate n0 "0")) as (Hl & Hb & Hw).
  rewrite length_replicate in Hl. split_and!; [done| |].
  - apply Hb, Forall_replicate. by left.
  - assert (hamming_weight (replicate n0 "0") = 0) as H0; [|lia].
    unfold hamming_weight. clear. induction n0 as [|m IH]; [done|].
    simpl. by rewrite filter_cons, decide_False.
Qed.

Lemma forallb_vertices (G : GeneralizedLucasCube) (C : list str) :
  forallb (λ cw, bool_decide (cw ∈ vertex_set G)) C = true
  ↔ Forall (λ c, c ∈ vertex_set G) C.
Proof.
  rewrite forallb_forall, Forall_forall.
  setoid_rewrite bool_decide_eq_true. by setoid_rewrite list_elem_of_In.
Qed.

(** X20: a code that [find_shift_vector_by_weight] returns is a coset of the
    Hamming code by a bit vector of length [n] with at most [max_weight]
    ones, lies in the cube, and is accepted by [is_perfect_code]. *)
Theorem find_shift_vector_sound (n0 s0 r max_weight : Z) (code : list str) :
  strategy_1_shift_search.find_shift_vector_by_weight n0 s0 r max_weight
  = Ok (Some code) →
  ∃ G base v,
    lucas_cube.__init__ n0 s0 = Ok G
    ∧ generate_hamming_code r = Ok base
    ∧ is_bits v ∧ length v = Z.to_nat n0
    ∧ (Z.of_nat (hamming_weight v) <= max_weight)%Z
    ∧ create_coset base v = Ok code
    ∧ Forall (λ c, c ∈ vertex_set G) code
    ∧ is_perfect_code (mkSearcher G) code = Ok true.
Proof.
  unfold strategy_1_shift_search.find_shift_vector_by_weight.
  intros (G & Hinit & (base & Hgen & Hrun)%result_bind_Ok)%result_bind_Ok.
  apply for_first_Some in Hrun as (weight & Hw & Hrun).
  apply for_first_Some in Hrun as (positions & Hps & Hrun).
  cbv zeta in Hrun.
  apply result_bind_Ok in Hrun as (shifted & Hcoset & Hrun).
  destruct (forallb _ shifted) eqn:Hvalid; [|done].
  apply result_bind_Ok in Hrun as ([|] & Hperfect & Hrun); [|done].
  injection Hrun as <-.
  apply elem_of_seq in Hw. apply elem_of_combinations in Hps as [Hl _].
  destruct (shift_vector_props (Z.to_nat n0) positions) as (Hlen & Hb & Hwt).
  exists G, base, (shift_vector (Z.to_nat n0) positions).
  split_and!; try done; [lia|]. by apply forallb_vertices.
Qed.

Lemma find_shift_vector_sound_witness :
  ∃ G base v,
    lucas_cube.__init__ 3 3 = Ok G
    ∧ generate_hamming_code 2 = Ok base
    ∧ is_bits v ∧ length v = Z.to_nat 3
    ∧ (Z.of_nat (hamming_weight v) <= 3)%Z
    ∧ create_coset base v = Ok (map py ["100"; "011"]%string)
    ∧ Forall (λ c, c ∈ vertex_set G) (map py ["100"; "011"]%string)
    ∧ is_perfect_code (mkSearcher G) (map py ["100"; "011"]%string) = Ok true.
Proof. apply (find_shift_vector_sound 3 3 2 3). reflexivity. Defined.

(** X21: when the forbidden run is longer than [n = 2^r - 1] and
    [max_weight] is not negative, [find_shift_vector_by_weight] returns the
    Hamming code itself: the first vector it tries, the zero vector, already
    gives a perfect code. *)
Theorem find_shift_vector_hypercube (s0 r max_weight : Z) (base : list str) :
  generate_hamming_code r = Ok base →
  (2 ^ r - 1 < s0)%Z → (0 <= max_weight)%Z →
  strategy_1_shift_search.find_shift_vector_by_weight
    (2 ^ r - 1) s0 r max_weight
  = Ok (Some base).
Proof.
  intros Hgen Hs Hmw.
  pose proof (generate_hamming_code_pos r base Hgen) as Hr.
  destruct (hamming_length r Hr) as (Hpos & HnN & Hp).
  destruct (generate_hamming_code_Ok r Hr) as (code' & Hgen' & HND & Hmem).
  rewrite Hgen in Hgen'. injection Hgen' as <-.
  unfold strategy_1_shift_search.find_shift_vector_by_weight.
  unfold lucas_cube.__init__.
  destruct (Z.ltb_spec 0 (2 ^ r - 1)); [|lia].
  destruct (Z.ltb_spec 1 s0); [|lia]. simpl negb. cbv iota.
  rewrite Hgen, !result_bind_ret_l. cbv zeta.
  replace (Z.to_nat (max_weight + 1)) with (S (Z.to_nat max_weight)) by lia.
  set (n1 := Z.to_nat (2 ^ r - 1)).
  assert (combinations (seq 0 n1) 0 = [[]]) as Hc by by destruct (seq 0 n1).
  simpl seq. cbn [for_first]. rewrite Hc. cbn [for_first].
  change (shift_vector n1 []) with (replicate n1 "0").
  fold n1.
  assert (create_coset base (replicate n1 "0") = Ok base) as ->.
  { rewrite create_coset_Ok_map.
    - f_equal. rewrite <- (list_fmap_id base) at 2.
      apply list_fmap_ext. intros i cw Hcw.
      apply list_elem_of_lookup_2, Hmem in Hcw as (Hb & Hl & _).
      unfold n1. rewrite <- Hl. by apply xor_bits_zeros.
    - apply Forall_forall. intros cw (_ & Hl & _)%Hmem.
      by rewrite length_replicate. }
  rewrite !result_bind_ret_l.
  assert (Forall (λ c, c ∈ vertex_set (mkCube n1 (Z.to_nat s0))) base) as HF.
  { apply Forall_forall. intros c (Hb & Hl & _)%Hmem.
    apply hypercube_vertex; simpl; [lia|lia|done]. }
  apply forallb_vertices in HF. rewrite HF.
  rewrite (hamming_code_perfect_in r base); [done|done|done|simpl; lia].
Qed.

Lemma find_shift_vector_hypercube_witness :
  strategy_1_shift_search.find_shift_vector_by_weight (2 ^ 2 - 1) 4 2 1
  = Ok (Some (map py ["000"; "111"]%string)).
Proof.
  apply (find_shift_vector_hypercube 4 2 1); [reflexivity|lia|lia].
Defined.

(** X22: [find_shift_vector_by_weight] raises ValueError when [n <= 0],
    [s <= 1] or [r <= 0].  With valid parameters it returns [None] at once
    for a negative [max_weight], and raises ValueError otherwise when [n] is
    not [2^r - 1]: the first shift vector has the wrong length for the
    code. *)
Theorem find_shift_vector_errors (n0 s0 r max_weight : Z) :
  (((n0 <= 0)%Z ∨ (s0 <= 1)%Z ∨ (r <= 0)%Z) →
   strategy_1_shift_search.find_shift_vector_by_weight n0 s0 r max_weight
   = Raise ValueError)
  ∧ ((0 < n0)%Z → (1 < s0)%Z → (0 < r)%Z → (max_weight < 0)%Z →
     strategy_1_shift_search.find_shift_vector_by_weight n0 s0 r max_weight
     = Ok None)
  ∧ ((0 < n0)%Z → (1 < s0)%Z → (0 < r)%Z → (0 <= max_weight)%Z →
     n0 ≠ (2 ^ r - 1)%Z →
     strategy_1_shift_search.find_shift_vector_by_weight n0 s0 r max_weight
     = Raise ValueError).
Proof.
  unfold strategy_1_shift_search.find_shift_vector_by_weight,
    lucas_cube.__init__.
  split_and!.
  - intros Hbad.
    destruct (Z.ltb_spec 0 n0); [|done].
    destruct (Z.ltb_spec 1 s0); [|done]. simpl negb. cbv iota.
    rewrite result_bind_ret_l, generate_hamming_code_raises; [done|lia].
  - intros Hn Hs Hr Hmw.
    destruct (Z.ltb_spec 0 n0); [|lia].
    destruct (Z.ltb_spec 1 s0); [|lia]. simpl negb. cbv iota.
    destruct (generate_hamming_code_Ok r Hr) as (base & -> & _).
    rewrite !result_bind_ret_l. cbv zeta.
    by replace (Z.to_nat (max_weight + 1)) with 0 by lia.
  - intros Hn Hs Hr Hmw Hne.
    destruct (Z.ltb_spec 0 n0); [|lia].
    destruct (Z.ltb_spec 1 s0); [|lia]. simpl negb. cbv iota.
    destruct (hamming_length r Hr) as (Hpos & HnN & Hp).
    destruct (generate_hamming_code_Ok r Hr) as (base & Hgen & _ & Hmem).
    rewrite Hgen, !result_bind_ret_l. cbv zeta.
    replace (Z.to_nat (max_weight + 1)) with (S (Z.to_nat max_weight)) by lia.
    assert (combinations (seq 0 (Z.to_nat n0)) 0 = [[]]) as Hc
      by by destruct (seq 0 (Z.to_nat n0)).
    simpl seq. cbn [for_first]. rewrite Hc. cbn [for_first].
    change (shift_vector (Z.to_nat n0) []) with (replicate (Z.to_nat n0) "0").
    destruct base as [|c base].
    { assert (replicate (Z.to_nat (2 ^ r - 1)) "0" ∈ @nil str) as Hin;
        [|by inversion Hin].
      apply Hmem. split_and!.
      - apply Forall_replicate. by left.
      - by rewrite length_replicate.
      - apply syndrome_zeros. }
    destruct (proj1 (Hmem c) ltac:(left)) as (_ & Hl & _).
    unfold create_coset. rewrite length_replicate, Hl.
    destruct (Nat.eqb_spec (Z.to_nat n0) (Z.to_nat (2 ^ r - 1))); [lia|done].
Qed.

Lemma foldl_insert_snoc (positions : list nat) (v : str) (c : ascii) :
  Forall (λ p, p < length v) positions →
  foldl (λ v_list pos, <[pos := "1"]> v_list) (v ++ [c]) positions
  = foldl (λ v_list pos, <[pos := "1"]> v_list) v positions ++ [c].
Proof.
  revert v. induction positions as [|p ps IH]; intros v Hps; [done|].
  apply Forall_cons in Hps as [Hp Hps]. simpl.
  rewrite insert_app_l by done. apply IH.
  by rewrite length_insert.
Qed.

(** Every bit string is the shift vector of the positions of its ones. *)
Lemma ones_positions (v : str) :
  is_bits v →
  ∃ positions, sublist positions (seq 0 (length v))
    ∧ length positions = hamming_weight v
    ∧ shift_vector (length v) positions = v.
Proof.
  induction v as [|c v IH] using rev_ind; intros Hv.
  - exists []. split_and!; [constructor|done|done].
  - apply Forall_app in Hv as [Hv Hc]. apply Forall_inv in Hc.
    destruct (IH Hv) as (ps & Hsub & Hlen & Hshift).
    assert (Forall (λ p, p < length (replicate (length v) "0")) ps) as Hlt.
    { rewrite length_replicate. apply Forall_forall. intros p Hp.
      apply (sublist_subseteq _ _ Hsub), elem_of_seq in Hp. lia. }
    rewrite length_app. simpl length.
    replace (length v + 1) with (S (length v)) by lia.
    rewrite seq_S. simpl.
    unfold hamming_weight. rewrite filter_app, length_app.
    fold (hamming_weight v). unfold shift_vector in *.
    rewrite replicate_S_end.
    destruct Hc as [-> | ->].
    + exists ps. split_and!.
      * by apply sublist_inserts_r.
      * rewrite filter_cons, decide_False by done. simpl. lia.
      * by rewrite foldl_insert_snoc, Hshift.
    + exists (ps ++ [length v]). split_and!.
      * by apply sublist_app.
      * rewrite length_app, filter_cons, decide_True by done. simpl. lia.
      * rewrite foldl_app. simpl.
        rewrite foldl_insert_snoc, Hshift by done.
        rewrite insert_app_r_alt by lia. by rewrite Nat.sub_diag.
Qed.

(** X23: the search of [find_shift_vector_by_weight] is exhaustive: when it
    returns [None], the coset of the Hamming code by any bit vector of length
    [n] with at most [max_weight] ones exists and is rejected by
    [is_perfect_code]. *)
Theorem find_shift_vector_exhaustive (n0 s0 r max_weight : Z)
    (G : GeneralizedLucasCube) (base : list str) (v : str) :
  strategy_1_shift_search.find_shift_vector_by_weight n0 s0 r max_weight
  = Ok None →
  lucas_cube.__init__ n0 s0 = Ok G →
  generate_hamming_code r = Ok base →
  is_bits v → length v = Z.to_nat n0 →
  (Z.of_nat (hamming_weight v) <= max_weight)%Z →
  ∃ shifted, create_coset base v = Ok shifted
    ∧ is_perfect_code (mkSearcher G) shifted = Ok false.
Proof.
  unfold strategy_1_shift_search.find_shift_vector_by_weight.
  intros Hrun Hinit Hgen Hv Hlen Hw.
  rewrite Hinit, Hgen, !result_bind_ret_l in Hrun. cbv zeta in Hrun.
  destruct (ones_positions v Hv) as (ps & Hsub & Hps & Hshift).
  rewrite Hlen in Hsub, Hshift.
  pose proof (proj1 (for_first_None _ _) Hrun (hamming_weight v)) as Hin.
  specialize (Hin ltac:(apply elem_of_seq; lia)).
  pose proof (proj1 (for_first_None _ _) Hin ps) as Hbody.
  specialize (Hbody ltac:(by apply elem_of_combinations)).
  cbv beta zeta in Hbody. rewrite Hshift in Hbody.
  apply result_bind_Ok in Hbody as (shifted & Hcoset & Hbody).
  exists shifted. split; [done|].
  apply init_cube_ok in Hinit as [Hn Hs].
  destruct (is_perfect_code_char G Hn shifted) as (b & Hb & Hiff).
  rewrite Hb in *. f_equal.
  destruct (forallb _ shifted) eqn:Hvalid.
  - rewrite result_bind_ret_l in Hbody. by destruct b.
  - destruct b; [|done]. exfalso.
    destruct (proj1 Hiff eq_refl) as (_ & HF & _).
    apply forallb_vertices in HF. congruence.
Qed.

Lemma find_shift_vector_exhaustive_witness :
  ∃ shifted, create_coset (map py ["000"; "111"]%string) (py "000")
             = Ok shifted
    ∧ is_perfect_code (mkSearcher (mkCube 3 3)) shifted = Ok false.
Proof.
  apply (find_shift_vector_exhaustive 3 3 2 0 (mkCube 3 3)
           (map py ["000"; "111"]%string) (py "000")).
  - reflexivity.
  - reflexivity.
  - reflexivity.
  - by repeat constructor.
  - reflexivity.
  - vm_compute. discriminate.
Defined.

(** ** Strategy 3: the best shift for a partition *)

Section best_shift.

Context (partition : gset str) (base_code : list str) (n0 : nat).
Hypothesis Hbase : Forall (λ cw, length cw = n0) base_code.

Local Abbreviation body :=
  (strategy_3_hybrid.try_positions partition base_code n0).

Lemma best_shift_loop (cands : list (list nat)) (st : option str * Z) :
  ∃ st', for_each_r cands body st = Ok st'
    ∧ (st.2 <= st'.2)%Z
    ∧ (∀ ps, ps ∈ cands →
         (shift_coverage partition base_code (shift_vector n0 ps) <= st'.2)%Z)
    ∧ (st' = st
       ∨ ∃ ps, ps ∈ cands
           ∧ st' = (Some (shift_vector n0 ps),
                    shift_coverage partition base_code (shift_vector n0 ps))).
Proof.
  revert st. induction cands as [|ps cands IH]; intros [b m].
  - exists (b, m). split_and!; [done|simpl; lia| |by left].
    by intros ps Hps%elem_of_nil.
  - cbn [for_each_r].
    assert (body ps (b, m)
            = Ok (if (m <? shift_coverage partition base_code
                              (shift_vector n0 ps))%Z
                  then (Some (shift_vector n0 ps),
                        shift_coverage partition base_code
                          (shift_vector n0 ps))
                  else (b, m))) as ->.
    { unfold strategy_3_hybrid.try_positions. cbv zeta.
      rewrite create_coset_Ok_map.
      - rewrite result_bind_ret_l. fold (shift_coverage partition base_code
                                           (shift_vector n0 ps)).
        by destruct (_ <? _)%Z.
      - destruct (shift_vector_props n0 ps) as (-> & _). exact Hbase. }
    rewrite result_bind_ret_l.
    set (c := shift_coverage partition base_code (shift_vector n0 ps)).
    destruct (IH (if (m <? c)%Z then (Some (shift_vector n0 ps), c)
                  else (b, m))) as (st' & Hrun & Hle & Hmax & Hcase).
    exists st'. split; [done|].
    destruct (Z.ltb_spec m c) as [Hlt|Hge]; simpl in *.
    + split_and!; [lia| |].
      * intros ps' [->|Hps']%elem_of_cons; [fold c; lia | by apply Hmax].
      * right. destruct Hcase as [->|(ps' & Hps' & ->)].
        -- exists ps. split; [left|done].
        -- exists ps'. split; [by right|done].
    + split_and!; [lia| |].
      * intros ps' [->|Hps']%elem_of_cons; [fold c; lia | by apply Hmax].
      * destruct Hcase as [->|(ps' & Hps' & ->)]; [by left|].
        right. exists ps'. split; [by right|done].
Qed.

Lemma best_shift_nested (ws : list nat) (st : option str * Z) :
  ∃ st', for_each_r ws
           (λ weight st, for_each_r (combinations (seq 0 n0) weight) body st)
           st = Ok st'
    ∧ (st.2 <= st'.2)%Z
    ∧ (∀ w ps, w ∈ ws → ps ∈ combinations (seq 0 n0) w →
         (shift_coverage partition base_code (shift_vector n0 ps) <= st'.2)%Z)
    ∧ (st' = st
       ∨ ∃ w ps, w ∈ ws ∧ ps ∈ combinations (seq 0 n0) w
           ∧ st' = (Some (shift_vector n0 ps),
                    shift_coverage partition base_code (shift_vector n0 ps))).
Proof.
  revert st. induction ws as [|w ws IH]; intros st.
  - exists st. split_and!; [done|lia| |by left].
    by intros w ps Hw%elem_of_nil.
  - cbn [for_each_r].
    destruct (best_shift_loop (combinations (seq 0 n0) w) st)
      as (st1 & -> & Hle1 & Hmax1 & Hcase1).
    rewrite result_bind_ret_l.
    destruct (IH st1) as (st' & Hrun & Hle & Hmax & Hcase).
    exists st'. split_and!; [done|lia| |].
    + intros w' ps [->|Hw']%elem_of_cons Hps.
      * specialize (Hmax1 ps Hps). lia.
      * by apply (Hmax w').
    + destruct Hcase as [->|(w' & ps & Hw' & Hps & ->)].
      * destruct Hcase1 as [->|(ps & Hps & ->)]; [by left|].
        right. exists w, ps. split_and!; [left|done|done].
      * right. exists w', ps. split_and!; [by right|done|done].
Qed.

End best_shift.

(** X24: for a base code of words of length [n] and a non-negative
    [weight_limit], [find_best_shift_for_partition] returns a bit vector of
    length [n] with at most [weight_limit] ones together with the number of
    words of its coset that lie in the partition, and no vector within the
    weight limit puts more words of its coset into the partition. *)
Theorem find_best_shift_argmax (partition : gset str) (base_code : list str)
    (n0 weight_limit : Z) :
  Forall (λ cw, length cw = Z.to_nat n0) base_code →
  (0 <= weight_limit)%Z →
  ∃ v c,
    strategy_3_hybrid.find_best_shift_for_partition
      partition base_code n0 weight_limit = Ok (Some v, c)
    ∧ is_bits v ∧ length v = Z.to_nat n0
    ∧ (Z.of_nat (hamming_weight v) <= weight_limit)%Z
    ∧ c = shift_coverage partition base_code v
    ∧ ∀ v', is_bits v' → length v' = Z.to_nat n0 →
        (Z.of_nat (hamming_weight v') <= weight_limit)%Z →
        (shift_coverage partition base_code v' <= c)%Z.
Proof.
  intros Hbase Hlim.
  unfold strategy_3_hybrid.find_best_shift_for_partition.
  destruct (best_shift_nested partition base_code (Z.to_nat n0) Hbase
              (seq 0 (Z.to_nat (weight_limit + 1))) (None, (-1)%Z))
    as (st' & Hrun & Hle & Hmax & Hcase).
  assert (∀ v', is_bits v' → length v' = Z.to_nat n0 →
            (Z.of_nat (hamming_weight v') <= weight_limit)%Z →
            (shift_coverage partition base_code v' <= st'.2)%Z) as Hall.
  { intros v' Hv' Hl' Hw'.
    destruct (ones_positions v' Hv') as (ps & Hsub & Hps & Hshift).
    rewrite Hl' in Hsub, Hshift. rewrite <- Hshift.
    apply (Hmax (hamming_weight v')).
    - apply elem_of_seq. lia.
    - by apply elem_of_combinations. }
  destruct Hcase as [->|(w & ps & Hw & Hps & ->)].
  - exfalso.
    specialize (Hall (replicate (Z.to_nat n0) "0")). simpl in Hall.
    destruct (shift_vector_props (Z.to_nat n0) []) as (Hl0 & Hb0 & Hw0).
    change (shift_vector (Z.to_nat n0) []) with (replicate (Z.to_nat n0) "0")
      in *.
    specialize (Hall Hb0 Hl0 ltac:(simpl in Hw0; lia)).
    unfold shift_coverage in Hall. lia.
  - exists (shift_vector (Z.to_nat n0) ps),
      (shift_coverage partition base_code (shift_vector (Z.to_nat n0) ps)).
    destruct (shift_vector_props (Z.to_nat n0) ps) as (Hl & Hb & Hwt).
    apply elem_of_seq in Hw. apply elem_of_combinations in Hps as [Hlps _].
    split_and!; [exact Hrun|done|done|lia|done|exact Hall].
Qed.

Lemma find_best_shift_argmax_witness :
  ∃ v c,
    strategy_3_hybrid.find_best_shift_for_partition
      (list_to_set (map py ["010"; "101"]%string))
      (map py ["000"; "111"]%string) 3 2 = Ok (Some v, c)
    ∧ is_bits v ∧ length v = Z.to_nat 3
    ∧ (Z.of_nat (hamming_weight v) <= 2)%Z
    ∧ c = shift_coverage (list_to_set (map py ["010"; "101"]%string))
            (map py ["000"; "111"]%string) v
    ∧ ∀ v', is_bits v' → length v' = Z.to_nat 3 →
        (Z.of_nat (hamming_weight v') <= 2)%Z →
        (shift_coverage (list_to_set (map py ["010"; "101"]%string))
           (map py ["000"; "111"]%string) v' <= c)%Z.
Proof.
  apply (find_best_shift_argmax
           (list_to_set (map py ["010"; "101"]%string))
           (map py ["000"; "111"]%string) 3 2); [|lia].
  by repeat constructor.
Defined.

(** X25: with a negative [weight_limit], [find_best_shift_for_partition]
    tries nothing and returns [(None, -1)]; with a non-negative one and a
    non-empty base code whose first word does not have length [n], it raises
    ValueError. *)
Theorem find_best_shift_edges (partition : gset str) (base_code : list str)
    (n0 weight_limit : Z) :
  ((weight_limit < 0)%Z →
   strategy_3_hybrid.find_best_shift_for_partition
     partition base_code n0 weight_limit = Ok (None, (-1)%Z))
  ∧ ((0 <= weight_limit)%Z →
     (∃ cw, head base_code = Some cw ∧ length cw ≠ Z.to_nat n0) →
     strategy_3_hybrid.find_best_shift_for_partition
       partition base_code n0 weight_limit = Raise ValueError).
Proof.
  unfold strategy_3_hybrid.find_best_shift_for_partition. split.
  - intros Hlim. by replace (Z.to_nat (weight_limit + 1)) with 0 by lia.
  - intros Hlim (cw & Hhead & Hlen).
    replace (Z.to_nat (weight_limit + 1))
      with (S (Z.to_nat weight_limit)) by lia.
    assert (combinations (seq 0 (Z.to_nat n0)) 0 = [[]]) as Hc
      by by destruct (seq 0 (Z.to_nat n0)).
    simpl seq. cbn [for_each_r]. rewrite Hc. cbn [for_each_r].
    unfold strategy_3_hybrid.try_positions. cbv zeta.
    change (shift_vector (Z.to_nat n0) []) with (replicate (Z.to_nat n0) "0").
    destruct base_code as [|cw' rest]; [done|]. injection Hhead as ->.
    unfold create_coset. rewrite length_replicate.
    destruct (Nat.eqb_spec (Z.to_nat n0) (length cw)); [lia|done].
Qed.

(** ** The energy of simulated annealing *)

Lemma ascii_compare_refl (x : ascii) : Ascii.compare x x = Eq.
Proof.
  pose proof (Ascii.compare_antisym x x) as H.
  by destruct (Ascii.compare x x).
Qed.

Lemma str_ltb_irrefl (a : str) : str_ltb a a = false.
Proof.
  induction a as [|x a IH]; [done|]. simpl. by rewrite ascii_compare_refl.
Qed.

Lemma str_ltb_total (a b : str) :
  a ≠ b → str_ltb a b = true ∨ str_ltb b a = true.
Proof.
  revert b. induction a as [|x a IH]; intros [|y b] Hne; simpl; auto.
  rewrite (Ascii.compare_antisym x y).
  destruct (Ascii.compare y x) eqn:Hc; simpl; auto.
  apply Ascii.compare_eq_iff in Hc as ->.
  apply IH. congruence.
Qed.

Lemma count_collisions_loop (pairs : list (str * str)) (acc : nat) :
  Forall (λ p, length p.1 = length p.2) pairs →
  for_each_r pairs
    (λ p collisions,
       if negb (str_ltb p.1 p.2) then Ok collisions
       else d ← get_hamming_distance p.1 p.2;
            Ok (if d <? 3 then collisions + 1 else collisions))
    acc
  = Ok (acc + length (filter (λ p, str_ltb p.1 p.2 = true
                                   ∧ zip_dist p.1 p.2 < 3) pairs)).
Proof.
  revert acc. induction pairs as [|[a b] pairs IH]; intros acc Hlen.
  - simpl. f_equal. lia.
  - apply Forall_cons in Hlen as [Hab Hlen]. simpl in Hab.
    cbn [for_each_r fst snd]. rewrite filter_cons. cbn [fst snd].
    assert (get_hamming_distance a b = Ok (zip_dist a b)) as ->
      by by apply get_hamming_distance_Ok.
    destruct (str_ltb a b); simpl negb; cbv iota.
    + rewrite !result_bind_ret_l.
      destruct (Nat.ltb_spec (zip_dist a b) 3).
      * rewrite IH, decide_True by done. f_equal. simpl. lia.
      * rewrite IH by done. by rewrite decide_False by (intros [_ ?]; lia).
    + rewrite result_bind_ret_l, IH by done.
      by rewrite decide_False by (by intros [? _]).
Qed.

Lemma count_collisions_Ok (k : nat) (code_set : gset str) :
  (∀ c, c ∈ code_set → length c = k) →
  ∃ collisions,
    strategy_4_simulated_annealing.count_collisions code_set = Ok collisions
    ∧ (collisions = 0 ↔
       ∀ a b, a ∈ code_set → b ∈ code_set → a ≠ b → 3 ≤ zip_dist a b).
Proof.
  intros Hlen. unfold strategy_4_simulated_annealing.count_collisions.
  set (pairs := cw1 ← elements code_set;
                (λ cw2, (cw1, cw2)) <$> elements code_set).
  assert (∀ p, p ∈ pairs ↔ p.1 ∈ code_set ∧ p.2 ∈ code_set) as Hpairs.
  { intros [a b]. unfold pairs. rewrite list_elem_of_bind. simpl. split.
    - intros (a' & Hb & Ha).
      apply list_elem_of_fmap in Hb as (b' & Heq & Hb).
      injection Heq as -> ->.
      apply elem_of_elements in Ha. apply elem_of_elements in Hb. by split.
    - intros [Ha Hb]. exists a. split; [|by apply elem_of_elements].
      apply list_elem_of_fmap. exists b.
      split; [done|by apply elem_of_elements]. }
  rewrite count_collisions_loop.
  2:{ apply Forall_forall. intros p [H1 H2]%Hpairs.
      by rewrite (Hlen _ H1), (Hlen _ H2). }
  eexists. split; [reflexivity|]. simpl. rewrite length_zero_iff_nil. split.
  - intros Hnil a b Ha Hb Hne.
    destruct (decide (3 ≤ zip_dist a b)) as [|Hclose]; [done|]. exfalso.
    destruct (str_ltb_total a b Hne) as [Hlt|Hlt].
    + apply (filter_nil_not_elem_of _ _ (a, b) Hnil); [simpl; split; [done|lia]|].
      by apply Hpairs.
    + apply (filter_nil_not_elem_of _ _ (b, a) Hnil).
      * simpl. split; [done|]. rewrite zip_dist_sym. lia.
      * by apply Hpairs.
  - intros Hfar.
    destruct (filter _ pairs) as [|[a b] rest] eqn:Hf; [done|]. exfalso.
    assert ((a, b) ∈ filter (λ p, str_ltb p.1 p.2 = true
                                  ∧ zip_dist p.1 p.2 < 3) pairs) as Hin
      by (rewrite Hf; left).
    apply list_elem_of_filter in Hin as [[Hlt Hd] [Ha Hb]%Hpairs].
    simpl in *.
    assert (a ≠ b) as Hne by (intros ->; by rewrite str_ltb_irrefl in Hlt).
    specialize (Hfar a b Ha Hb Hne). lia.
Qed.

Lemma union_closed_neighborhoods_Ok (G : GeneralizedLucasCube)
    (code_set : gset str) :
  0 < n G → code_set ⊆ vertex_set G →
  union_closed_neighborhoods G code_set
  = Ok (⋃ (ClosedNeighborhood G <$> elements code_set)).
Proof.
  intros Hn Hsub. unfold union_closed_neighborhoods.
  assert (Forall (λ c, c ∈ vertex_set G) (elements code_set)) as HF.
  { apply Forall_forall. intros c Hc%elem_of_elements. by apply Hsub. }
  assert (∃ hoods, mapM (get_closed_neighborhood G) (elements code_set)
                   = Ok hoods
            ∧ list_to_set <$> hoods
              = ClosedNeighborhood G <$> elements code_set)
    as (hoods & -> & Hhoods).
  { induction HF as [|c cs Hc _ (hoods & IH & Heq)]; [by exists []|].
    destruct (closed_neighborhood_of_vertex G Hn c Hc) as (hood & Hh & Hset).
    exists (hood :: hoods). cbn [mapM]. rewrite Hh, result_bind_ret_l, IH.
    split; [done|]. by rewrite !fmap_cons, Heq, Hset. }
  by rewrite result_bind_ret_l, Hhoods.
Qed.

(** X26: for a list of distinct vertices and a positive collision penalty,
    the energy that [_calculate_energy] returns is never negative, and it is
    zero exactly when [is_perfect_code] accepts the list. *)
Theorem sa_zero_energy_iff_perfect (n0 s0 : Z) (T0 rate : float) (iters : nat)
    (penalty : Z) (self : strategy_4_simulated_annealing.SimulatedAnnealingSearch)
    (code : list str) :
  strategy_4_simulated_annealing.__init__ n0 s0 T0 rate iters penalty
  = Ok self →
  (0 < penalty)%Z →
  NoDup code →
  Forall (λ c, c ∈ vertex_set (strategy_4_simulated_annealing.cube self))
         code →
  ∃ energy uncovered_count collisions,
    strategy_4_simulated_annealing._calculate_energy self code
    = Ok (energy, uncovered_count, collisions)
    ∧ (0 <= energy)%Z
    ∧ (energy = 0%Z ↔
       is_perfect_code (strategy_4_simulated_annealing.searcher self) code
       = Ok true).
Proof.
  unfold strategy_4_simulated_annealing.__init__.
  intros (G & Hinit & [= <-])%result_bind_Ok Hpen HND HF. simpl in HF.
  apply init_cube_eq in Hinit as (HG & Hn0 & Hs0).
  assert (0 < n G ∧ 1 < s G) as [Hn Hs] by (subst G; simpl; lia).
  assert (Z.to_nat n0 = n G) as HnG by by subst G.
  unfold strategy_4_simulated_annealing._calculate_energy. cbn [
    strategy_4_simulated_annealing.cube strategy_4_simulated_annealing.n
    strategy_4_simulated_annealing.collision_penalty
    strategy_4_simulated_annealing.searcher]. cbv zeta.
  rewrite HnG. clear HG HnG.
  assert (list_to_set code ⊆ vertex_set G) as Hsub.
  { intros c Hc%elem_of_list_to_set. by apply (proj1 (Forall_forall _ _) HF). }
  destruct (count_collisions_Ok (n G) (list_to_set code))
    as (collisions & -> & Hzero).
  { intros c Hc. by apply (vertex_length G), Hsub. }
  rewrite result_bind_ret_l, union_closed_neighborhoods_Ok by done.
  rewrite result_bind_ret_l.
  assert (⋃ (ClosedNeighborhood G <$> elements (list_to_set (C:=gset str) code))
          = ⋃ (ClosedNeighborhood G <$> code)) as ->.
  { apply set_eq. intros w. rewrite !elem_of_union_neighborhoods.
    by setoid_rewrite elem_of_elements; setoid_rewrite elem_of_list_to_set. }
  set (covered := ⋃ (ClosedNeighborhood G <$> code)).
  set (u := size (vertex_set G ∖ covered)).
  eexists _, u, collisions. split; [reflexivity|]. split; [nia|].
  assert (covered ⊆ vertex_set G) as Hcov
    by by apply union_neighborhoods_subseteq.
  assert (u = 0 ↔ covered = vertex_set G) as Hu.
  { unfold u. rewrite size_empty_iff. clearbody covered. split.
    - intros He. apply set_eq. intros w. split; [by apply Hcov|].
      intros Hw. destruct (decide (w ∈ covered)) as [|Hnw]; [done|].
      exfalso. apply (not_elem_of_empty (C:=gset str) w). rewrite <- He.
      by apply elem_of_difference.
    - intros ->. apply set_equiv. intros w.
      rewrite elem_of_difference, elem_of_empty. tauto. }
  assert ((Z.of_nat u * Z.of_nat (n G) + Z.of_nat collisions * penalty)%Z = 0%Z
          ↔ u = 0 ∧ collisions = 0) as ->.
  { split; [|by intros [-> ->]]. intros He.
    assert (0 <= Z.of_nat u * Z.of_nat (n G))%Z by nia.
    assert (0 <= Z.of_nat collisions * penalty)%Z by nia.
    split; nia. }
  rewrite Hu, Hzero.
  destruct (is_perfect_code_char G Hn code) as (b & -> & Hb).
  assert (Ok b = Ok true ↔ b = true) as -> by (split; congruence).
  rewrite Hb. clear Hb.
  assert ((∀ x y, x ∈ list_to_set (C:=gset str) code →
                  y ∈ list_to_set (C:=gset str) code → x ≠ y →
                  3 ≤ zip_dist x y)
          ↔ ∀ pre c post, code = pre ++ c :: post →
              ClosedNeighborhood G c ## ⋃ (ClosedNeighborhood G <$> pre))
    as ->.
  { rewrite <- pairwise_disjoint_splits.
    rewrite (far_codewords_disjoint G code Hn Hs HF). split.
    - intros Hfar i j x y Hij Hi Hj. apply Hfar.
      + apply elem_of_list_to_set. by eapply list_elem_of_lookup_2.
      + apply elem_of_list_to_set. by eapply list_elem_of_lookup_2.
      + intros ->. apply Hij. by apply (proj1 (NoDup_alt code) HND i j y).
    - intros Hfar x y Hx%elem_of_list_to_set Hy%elem_of_list_to_set Hne.
      apply list_elem_of_lookup in Hx as (i & Hi).
      apply list_elem_of_lookup in Hy as (j & Hj).
      apply (Hfar i j); [|done..]. intros ->. congruence. }
  split.
  - intros [Hc Hsplit]. split_and!; [|done..].
    intros ->. pose proof (zeros_in_vertex_set G Hn ltac:(lia)) as Hz.
    rewrite <- Hc in Hz. unfold covered in Hz. simpl in Hz.
    by apply elem_of_empty in Hz.
  - by intros (_ & _ & ? & ?).
Qed.

Lemma sa_zero_energy_iff_perfect_witness :
  ∃ energy uncovered_count collisions,
    strategy_4_simulated_annealing._calculate_energy
      (strategy_4_simulated_annealing.mkSA (mkCube 3 3)
         (mkSearcher (mkCube 3 3)) 3 3 1%float 0.5%float 10 60
         (get_theoretical_code_size (mkSearcher (mkCube 3 3))))
      (map py ["010"; "101"]%string)
    = Ok (energy, uncovered_count, collisions)
    ∧ (0 <= energy)%Z
    ∧ (energy = 0%Z ↔
       is_perfect_code (mkSearcher (mkCube 3 3))
         (map py ["010"; "101"]%string) = Ok true).
Proof.
  apply (sa_zero_energy_iff_perfect 3 3 1%float 0.5%float 10 60).
  - reflexivity.
  - lia.
  - apply NoDup_cons. split; [|apply NoDup_singleton].
    intros Hin%list_elem_of_singleton. discriminate Hin.
  - refine (bool_decide_unpack _ _). vm_compute. exact I.
Defined.

(** ** Computations of the engines that cannot raise *)

Lemma returns_ret {A} (a : A) (o : oracle) (P : A → Prop) :
  P a → returns (mret a) o P.
Proof. intros HP. by exists a, o. Qed.

Lemma returns_bind {A B} (m : M A) (f : A → M B) (o : oracle)
    (Q : A → Prop) (P : B → Prop) :
  returns m o Q →
  (∀ a o', Q a → returns (f a) o' P) →
  returns (m ≫= f) o P.
Proof.
  intros (a & o1 & Hm & HQ) Hf.
  destruct (Hf a o1 HQ) as (b & o2 & Hb & HP).
  exists b, o2. split; [|done]. unfold mbind, M_bind. by rewrite Hm.
Qed.

Lemma returns_mono {A} (m : M A) (o : oracle) (Q P : A → Prop) :
  returns m o Q → (∀ a, Q a → P a) → returns m o P.
Proof. intros (a & o1 & Hm & HQ) HQP. exists a, o1. auto. Qed.

Lemma returns_lift {A} (r : result A) (a : A) (o : oracle) (P : A → Prop) :
  r = Ok a → P a → returns (lift r) o P.
Proof. intros -> HP. by exists a, o. Qed.

Lemma returns_randbelow (k : nat) (o : oracle) :
  0 < k → returns (random._randbelow k) o (λ j, j < k).
Proof.
  intros Hk. unfold random._randbelow.
  apply (returns_bind _ _ _ (λ _, True)); [by eexists _, _|].
  intros x o' _. apply returns_ret. apply Nat.mod_upper_bound. lia.
Qed.

Lemma returns_random (o : oracle) :
  returns random.random o (λ _, True).
Proof. by eexists _, _. Qed.

Lemma returns_choice {A} (l : list A) (o : oracle) :
  l ≠ [] → returns (random.choice l) o (λ x, x ∈ l).
Proof.
  intros Hl. unfold random.choice. destruct l as [|a l]; [done|].
  eapply returns_bind; [apply returns_randbelow; simpl; lia|].
  intros j o' Hj. cbv beta in Hj.
  destruct (lookup_lt_is_Some_2 (a :: l) j Hj) as [x Hx].
  apply (returns_lift _ x); [by unfold getitem; rewrite Hx|].
  by eapply list_elem_of_lookup_2.
Qed.

Lemma pool_step {A} (init : list A) (y x : A) (j : nat) :
  (init ++ [y]) !! j = Some x →
  x :: take (length init) (<[j := y]> (init ++ [y])) ≡ₚ init ++ [y].
Proof.
  intros Hx. destruct (decide (j < length init)) as [Hlt|Hge].
  - rewrite lookup_app_l in Hx by done.
    rewrite insert_app_l, take_app_length' by (by rewrite ?length_insert).
    rewrite insert_take_drop by done.
    transitivity ((take j init ++ x :: drop (S j) init) ++ [y]);
      [|by rewrite take_drop_middle].
    rewrite <- (assoc_L (++)). simpl. rewrite <- !Permutation_middle.
    apply perm_skip. by rewrite (assoc_L (++)), app_nil_r.
  - pose proof (lookup_lt_Some _ _ _ Hx) as Hj.
    rewrite length_app in Hj. simpl in Hj.
    assert (j = length init) as -> by lia.
    rewrite list_lookup_middle in Hx by done. injection Hx as ->.
    rewrite take_insert_ge, take_app_length by lia.
    apply Permutation_cons_append.
Qed.

Lemma returns_sample_loop {A} (k : nat) (pool result : list A) (o : oracle) :
  k ≤ length pool →
  returns (random.sample_loop k pool result) o
    (λ r, length r = length result + k
          ∧ ∃ pool', r ++ pool' ≡ₚ result ++ pool
                     ∧ length pool' = length pool - k).
Proof.
  revert pool result o. induction k as [|k IH]; intros pool result o Hk.
  - apply returns_ret. split; [lia|]. exists pool. split; [done|lia].
  - cbn [random.sample_loop].
    eapply returns_bind; [apply returns_randbelow; lia|].
    intros j o1 Hj. cbv beta in Hj.
    destruct (lookup_lt_is_Some_2 pool j Hj) as [x Hx].
    destruct (lookup_lt_is_Some_2 pool (length pool - 1) ltac:(lia))
      as [y Hy].
    eapply returns_bind;
      [by apply (returns_lift _ x _ (λ a, a = x));
          [unfold getitem; rewrite Hx|]|].
    intros ? o2 ->.
    eapply returns_bind;
      [by apply (returns_lift _ y _ (λ a, a = y));
          [unfold getitem; rewrite Hy|]|].
    intros ? o3 ->.
    assert (pool = take (length pool - 1) pool ++ [y]) as Hpool.
    { rewrite <- (take_drop_middle pool (length pool - 1) y Hy) at 1.
      f_equal. f_equal. apply drop_ge. lia. }
    assert (x :: take (length pool - 1) (<[j := y]> pool) ≡ₚ pool) as Hperm.
    { assert (length (take (length pool - 1) pool) = length pool - 1) as Hinit
        by (rewrite length_take; lia).
      revert Hpool Hinit Hx.
      generalize (take (length pool - 1) pool). intros init -> <- Hx.
      by apply pool_step. }
    set (pool1 := take (length pool - 1) (<[j := y]> pool)) in *.
    assert (length pool1 = length pool - 1) as Hl1.
    { unfold pool1. rewrite length_take, length_insert. lia. }
    eapply returns_mono; [apply IH; lia|].
    intros r (Hlen & pool' & Hr & Hl'). rewrite length_app in Hlen.
    simpl in Hlen. split; [lia|]. exists pool'. split; [|lia].
    rewrite Hr, <- (assoc_L (++)). simpl. by rewrite Hperm.
Qed.

Lemma returns_sample {A} (population : list A) (k : nat) (o : oracle) :
  k ≤ length population →
  returns (random.sample population k) o
    (λ r, length r = k ∧ r ⊆+ population
          ∧ (k = length population → r ≡ₚ population)).
Proof.
  intros Hk. unfold random.sample.
  destruct (Nat.ltb_spec (length population) k); [lia|].
  eapply returns_mono; [by apply returns_sample_loop|].
  intros r (Hlen & pool' & Hr & Hl'). simpl in *. split_and!; [done| |].
  - rewrite <- Hr. by apply submseteq_inserts_r.
  - intros ->. rewrite Nat.sub_diag in Hl'.
    apply nil_length_inv in Hl' as ->. by rewrite app_nil_r in Hr.
Qed.

Lemma returns_list_of_set (X : gset str) (o : oracle) :
  returns (list_of_set X) o
    (λ l, NoDup l ∧ length l = size X ∧ ∀ x, x ∈ l ↔ x ∈ X).
Proof.
  unfold list_of_set.
  eapply returns_mono; [apply returns_sample; by unfold size, set_size|].
  intros l (Hlen & _ & Hperm). specialize (Hperm eq_refl). split_and!.
  - rewrite Hperm. apply NoDup_elements.
  - done.
  - intros x. by rewrite Hperm, elem_of_elements.
Qed.

Lemma returns_for_each {A St} (xs : list A) (body : A → St → M St)
    (I : list A → St → Prop) (st : St) (o : oracle) :
  I [] st →
  (∀ pre x st o, x ∈ xs → I pre st → returns (body x st) o (I (pre ++ [x]))) →
  returns (for_each xs body st) o (I xs).
Proof.
  intros H0 Hstep.
  assert (∀ pre xs' st o, (∀ x, x ∈ xs' → x ∈ xs) → I pre st →
            returns (for_each xs' body st) o (I (pre ++ xs'))) as H.
  { intros pre xs'. revert pre.
    induction xs' as [|x xs' IH]; intros pre st1 o1 Hin HI.
    - rewrite app_nil_r. by apply returns_ret.
    - cbn [for_each]. eapply returns_bind.
      + apply (Hstep pre); [apply Hin; left|done].
      + intros st2 o2 HI2. rewrite (cons_middle x pre xs'), (assoc_L (++)).
        apply IH; [|done]. intros x' Hx'. apply Hin. by right. }
  by apply (H [] xs).
Qed.

Lemma submseteq_NoDup {A} (l k : list A) : l ⊆+ k → NoDup k → NoDup l.
Proof.
  intros (k' & Hk)%submseteq_Permutation HND. rewrite Hk in HND.
  by apply NoDup_app in HND as (? & _).
Qed.

Lemma vertices_nonempty (G : GeneralizedLucasCube) :
  0 < n G → 0 < s G → vertices G ≠ [].
Proof.
  intros Hn Hs Hnil. pose proof (zeros_in_vertex_set G Hn Hs) as Hz.
  unfold vertex_set in Hz. rewrite Hnil in Hz. by apply elem_of_empty in Hz.
Qed.

(** ** The genetic algorithm *)

(** X27: [theoretical_size] of the genetic algorithm is the ceiling of
    [len(vertices) / (n + 1)], and [_initialize_population] never raises: it
    returns [population_size] candidates, each made of [theoretical_size]
    distinct vertices of the cube. *)
Theorem ga_initial_population (n0 s0 : Z) (size gens : nat) (rate : Q)
    (elite : nat) (self : ga_search.GeneticAlgorithmSearch) (o : oracle) :
  ga_search.__init__ n0 s0 size gens rate elite = Ok self →
  (__len__ (ga_search.cube self)
   ≤ ga_search.theoretical_size self * (ga_search.n self + 1)
   < __len__ (ga_search.cube self) + ga_search.n self + 1)
  ∧ ∃ population o',
      ga_search._initialize_population self o = Ok (population, o')
      ∧ length population = size
      ∧ Forall (λ candidate,
                  length candidate = ga_search.theoretical_size self
                  ∧ NoDup candidate
                  ∧ Forall (λ c, c ∈ vertex_set (ga_search.cube self))
                           candidate)
               population.
Proof.
  unfold ga_search.__init__.
  intros (G & Hinit & [= <-])%result_bind_Ok. cbn [ga_search.cube
    ga_search.n ga_search.theoretical_size].
  apply init_cube_eq in Hinit as (HG & Hn0 & Hs0).
  assert (0 < n G ∧ 1 < s G) as [Hn Hs] by (subst G; simpl; lia).
  assert (Z.to_nat n0 = n G) as -> by by subst G.
  clear HG. unfold __len__.
  set (V := length (vertices G)). set (ts := (V + n G) / (n G + 1)).
  assert (0 < V) as HV.
  { pose proof (vertices_nonempty G Hn ltac:(lia)).
    unfold V. destruct (vertices G); [done|simpl; lia]. }
  assert (V ≤ ts * (n G + 1) < V + n G + 1 ∧ ts ≤ V) as (Hceil & Hts).
  { pose proof (Nat.div_mod_eq (V + n G) (n G + 1)) as Hdm. fold ts in Hdm.
    pose proof (Nat.mod_upper_bound (V + n G) (n G + 1) ltac:(lia)).
    split; [nia|]. apply Nat.Div0.div_le_upper_bound. nia. }
  split; [done|].
  unfold ga_search._initialize_population. cbn [ga_search.population_size
    ga_search.cube ga_search.theoretical_size]. fold V ts.
  destruct (returns_for_each (seq 0 size)
              (λ (_ : nat) population,
                 candidate ← random.sample (vertices G) ts;
                 mret (population ++ [candidate]))
              (λ pre population,
                 length population = length pre
                 ∧ Forall (λ candidate,
                             length candidate = ts ∧ NoDup candidate
                             ∧ Forall (λ c, c ∈ vertex_set G) candidate)
                          population)
              [] o) as (population & o' & Hrun & Hlen & HF).
  - split; [done|by apply Forall_nil_2].
  - intros pre x population o1 _ [Hlen HF].
    eapply returns_bind; [by apply returns_sample|].
    intros candidate o2 (Hl & Hsub & _). apply returns_ret.
    rewrite !length_app. split; [simpl; lia|].
    apply Forall_app. split; [done|]. apply Forall_singleton. split_and!.
    + done.
    + apply (submseteq_NoDup _ _ Hsub), vertices_NoDup.
    + apply Forall_forall. intros c Hc. unfold vertex_set.
      apply elem_of_list_to_set. by apply (elem_of_submseteq candidate).
  - exists population, o'. rewrite length_seq in Hlen. by split_and!.
Qed.

Lemma ga_initial_population_witness :
  (__len__ (mkCube 3 3) ≤ 2 * (3 + 1) < __len__ (mkCube 3 3) + 3 + 1)
  ∧ ∃ population o',
      ga_search._initialize_population
        (ga_search.mkGA (mkCube 3 3) (mkSearcher (mkCube 3 3)) 4 10 (1 # 10)
           1 3 2)
        (oracle_of []) = Ok (population, o')
      ∧ length population = 4
      ∧ Forall (λ candidate,
                  length candidate = 2 ∧ NoDup candidate
                  ∧ Forall (λ c, c ∈ vertex_set (mkCube 3 3)) candidate)
               population.
Proof.
  apply (ga_initial_population 3 3 4 10 (1 # 10) 1
           (ga_search.mkGA (mkCube 3 3) (mkSearcher (mkCube 3 3)) 4 10
              (1 # 10) 1 3 2) (oracle_of [])).
  reflexivity.
Defined.

(** X28: [_mutate] never raises.  It changes the length of the code by at
    most one, never empties a non-empty code, keeps a duplicate-free code
    duplicate-free and a code of vertices a code of vertices. *)
Theorem ga_mutate_invariants (n0 s0 : Z) (size gens : nat) (rate : Q)
    (elite : nat) (self : ga_search.GeneticAlgorithmSearch)
    (code : list str) (o : oracle) :
  ga_search.__init__ n0 s0 size gens rate elite = Ok self →
  ∃ code' o',
    ga_search._mutate self code o = Ok (code', o')
    ∧ length code - 1 ≤ length code' ≤ length code + 1
    ∧ (code ≠ [] → code' ≠ [])
    ∧ (NoDup code → NoDup code')
    ∧ (Forall (λ c, c ∈ vertex_set (ga_search.cube self)) code →
       Forall (λ c, c ∈ vertex_set (ga_search.cube self)) code').
Proof.
  unfold ga_search.__init__.
  intros (G & Hinit & [= <-])%result_bind_Ok. cbn [ga_search.cube].
  apply init_cube_ok in Hinit as [Hn Hs].
  assert (returns (ga_search._mutate
                     (ga_search.mkGA G (mkSearcher G) size gens rate elite
                        (Z.to_nat n0)
                        ((length (vertices G) + Z.to_nat n0)
                         / (Z.to_nat n0 + 1))) code) o
            (λ code',
               length code - 1 ≤ length code' ≤ length code + 1
               ∧ (code ≠ [] → code' ≠ [])
               ∧ (NoDup code → NoDup code')
               ∧ (Forall (λ c, c ∈ vertex_set G) code →
                  Forall (λ c, c ∈ vertex_set G) code')))
    as (code' & o' & Hrun & Hpost); [|by exists code', o'].
  unfold ga_search._mutate. cbn [ga_search.mutation_rate ga_search.cube].
  eapply returns_bind; [apply returns_random|]. intros r o1 _.
  destruct (Qltb r rate); [|apply returns_ret; split_and!; [lia|lia|done..]].
  apply (returns_bind _ _ _ (λ shrink : bool, shrink = true → 1 < length code)).
  { destruct (Nat.ltb_spec 1 (length code)).
    - eapply returns_bind; [apply returns_random|]. intros r' o2 _.
      by apply returns_ret.
    - by apply returns_ret. }
  intros [|] o2 Hshrink.
  - specialize (Hshrink eq_refl). unfold random.randrange.
    destruct (Nat.eqb_spec (length code) 0); [lia|].
    eapply returns_bind; [apply returns_randbelow; lia|].
    intros i o3 Hi. cbv beta in Hi. apply returns_ret.
    pose proof (length_delete code i (lookup_lt_is_Some_2 code i Hi)) as Hl.
    split_and!; [lia|lia| | |].
    + intros _ Hnil. rewrite Hnil in Hl. simpl in Hl. lia.
    + intros HND. apply (sublist_NoDup _ code); [done|apply sublist_delete].
    + apply Forall_delete.
  - eapply returns_bind;
      [apply returns_choice; apply vertices_nonempty; lia|].
    intros new_gene o3 Hnew. cbv beta in Hnew. apply returns_ret.
    case_bool_decide as Hin; [split_and!; [lia|lia|done..]|].
    rewrite length_app. simpl. split_and!; [lia|lia| | |].
    + intros _ Hnil. by apply app_nil in Hnil as [_ ?].
    + intros HND. apply NoDup_app. split_and!; [done| |apply NoDup_singleton].
      intros x Hx ->%list_elem_of_singleton. done.
    + intros HF. apply Forall_app. split; [done|]. apply Forall_singleton.
      unfold vertex_set. by apply elem_of_list_to_set.
Qed.

Lemma ga_mutate_invariants_witness :
  ∃ code' o',
    ga_search._mutate
      (ga_search.mkGA (mkCube 3 3) (mkSearcher (mkCube 3 3)) 4 10 (1 # 10)
         1 3 2)
      (map py ["010"; "101"]%string) (oracle_of []) = Ok (code', o')
    ∧ length (map py ["010"; "101"]%string) - 1 ≤ length code'
      ≤ length (map py ["010"; "101"]%string) + 1
    ∧ (map py ["010"; "101"]%string ≠ [] → code' ≠ [])
    ∧ (NoDup (map py ["010"; "101"]%string) → NoDup code')
    ∧ (Forall (λ c, c ∈ vertex_set (mkCube 3 3))
              (map py ["010"; "101"]%string) →
       Forall (λ c, c ∈ vertex_set (mkCube 3 3)) code').
Proof.
  apply (ga_mutate_invariants 3 3 4 10 (1 # 10) 1
           (ga_search.mkGA (mkCube 3 3) (mkSearcher (mkCube 3 3)) 4 10
              (1 # 10) 1 3 2) (map py ["010"; "101"]%string) (oracle_of [])).
  reflexivity.
Defined.

(** X29: [_crossover] never raises; the child has no duplicates, and each of
    its genes is a codeword of one of the two parents. *)
Theorem ga_crossover_invariants (self : ga_search.GeneticAlgorithmSearch)
    (parent1 parent2 : list str) (o : oracle) :
  ∃ child o',
    ga_search._crossover self parent1 parent2 o = Ok (child, o')
    ∧ NoDup child
    ∧ ∀ gene, gene ∈ child → gene ∈ parent1 ∨ gene ∈ parent2.
Proof.
  assert (returns (ga_search._crossover self parent1 parent2) o
            (λ child, NoDup child
                      ∧ ∀ gene, gene ∈ child →
                          gene ∈ parent1 ∨ gene ∈ parent2))
    as (child & o' & Hrun & Hpost); [|by exists child, o'].
  unfold ga_search._crossover. cbv zeta.
  eapply returns_bind; [apply returns_list_of_set|].
  intros gene_pool o1 (HND & _ & Hpool).
  eapply returns_mono.
  - apply (returns_for_each gene_pool _ (λ pre child, sublist child pre)).
    + constructor.
    + intros pre gene child o2 _ Hsub.
      eapply returns_bind; [apply returns_random|]. intros r o3 _.
      destruct (Qltb r (1 # 2)); apply returns_ret; case_bool_decide;
        first [ by apply sublist_app | by apply sublist_inserts_r ].
  - intros child Hsub. split; [by apply (sublist_NoDup _ gene_pool)|].
    intros gene Hgene.
    apply (sublist_subseteq _ _ Hsub), Hpool, elem_of_union in Hgene.
    by rewrite !elem_of_list_to_set in Hgene.
Qed.

(** ** The moves of simulated annealing *)

(** X30: [_get_neighbor] never raises, whatever list it is given.  The list
    it returns is not empty and has no duplicates, its elements are codewords
    of the current code or vertices of the cube, and its length differs by at
    most one from the number of distinct codewords of the current code. *)
Theorem sa_get_neighbor_invariants (n0 s0 : Z) (T0 rate : float) (iters : nat)
    (penalty : Z)
    (self : strategy_4_simulated_annealing.SimulatedAnnealingSearch)
    (current_code : list str) (o : oracle) :
  strategy_4_simulated_annealing.__init__ n0 s0 T0 rate iters penalty
  = Ok self →
  ∃ neighbor o',
    strategy_4_simulated_annealing._get_neighbor self current_code o
    = Ok (neighbor, o')
    ∧ neighbor ≠ [] ∧ NoDup neighbor
    ∧ (∀ x, x ∈ neighbor →
         x ∈ current_code
         ∨ x ∈ vertex_set (strategy_4_simulated_annealing.cube self))
    ∧ size (list_to_set (C:=gset str) current_code) - 1 ≤ length neighbor
      ≤ size (list_to_set (C:=gset str) current_code) + 1.
Proof.
  unfold strategy_4_simulated_annealing.__init__.
  intros (G & Hinit & [= <-])%result_bind_Ok.
  cbn [strategy_4_simulated_annealing.cube].
  apply init_cube_ok in Hinit as [Hn Hs].
  set (self := strategy_4_simulated_annealing.mkSA _ _ _ _ _ _ _ _ _).
  set (N0 := list_to_set (C:=gset str) current_code).
  assert (returns
            (strategy_4_simulated_annealing._get_neighbor self current_code) o
            (λ neighbor,
               neighbor ≠ [] ∧ NoDup neighbor
               ∧ (∀ x, x ∈ neighbor → x ∈ N0 ∨ x ∈ vertex_set G)
               ∧ size N0 - 1 ≤ length neighbor ≤ size N0 + 1))
    as (neighbor & o' & Hrun & Hne & HND & Hmem & Hsize).
  2:{ exists neighbor, o'. split; [done|]. split; [done|]. split; [done|].
      split; [|done].
      intros x [Hx|Hx]%Hmem; [left|by right].
      by apply elem_of_list_to_set in Hx. }
  unfold strategy_4_simulated_annealing._get_neighbor. cbv zeta.
  cbn [strategy_4_simulated_annealing.cube
       strategy_4_simulated_annealing.theoretical_size self].
  fold N0.
  eapply returns_bind; [by apply returns_choice|]. intros act o1 _.
  apply (returns_bind _ _ _
           (λ N : gset str,
              (∀ x, x ∈ N → x ∈ N0 ∨ x ∈ vertex_set G)
              ∧ size N0 - 1 ≤ size N ≤ size N0 + 1)).
  - assert (returns (mret (M := M) N0) o1
              (λ N : gset str,
                 (∀ x, x ∈ N → x ∈ N0 ∨ x ∈ vertex_set G)
                 ∧ size N0 - 1 ≤ size N ≤ size N0 + 1)) as Hsame.
    { intros. apply returns_ret. split; [by left|lia]. }
    assert (∀ o, returns (mret (M := M) N0) o
              (λ N : gset str,
                 (∀ x, x ∈ N → x ∈ N0 ∨ x ∈ vertex_set G)
                 ∧ size N0 - 1 ≤ size N ≤ size N0 + 1)) as Hkeep.
    { intros. apply returns_ret. split; [by left|lia]. }
    clear Hsame.
    destruct act.
    + destruct (Qltb _ _); [|apply Hkeep].
      eapply returns_bind; [apply returns_list_of_set|].
      intros potential_adds o2 (_ & _ & Hadds).
      destruct potential_adds as [|p rest]; [apply Hkeep|].
      eapply returns_bind; [by apply returns_choice|].
      intros x o3 Hx. apply Hadds, elem_of_difference in Hx as [HxV HxN].
      apply returns_ret. split.
      * intros y [Hy| ->%elem_of_singleton]%elem_of_union; auto.
      * rewrite size_union, size_singleton by set_solver. lia.
    + destruct (Qltb _ _); simpl andb; [|apply Hkeep].
      case_bool_decide as Hemp; simpl negb; cbv iota; [apply Hkeep|].
      eapply returns_bind; [apply returns_list_of_set|].
      intros members o2 (_ & Hlen & Hmembers).
      eapply returns_bind.
      { apply returns_choice. intros ->. simpl in Hlen.
        symmetry in Hlen. apply size_empty_iff in Hlen.
        apply Hemp. by apply leibniz_equiv. }
      intros x o3 Hx. apply Hmembers in Hx. apply returns_ret. split.
      * intros y [Hy _]%elem_of_difference. by left.
      * rewrite size_difference, size_singleton by set_solver. lia.
    + case_bool_decide as Hemp; simpl negb; cbv iota; [apply Hkeep|].
      eapply returns_bind; [apply returns_list_of_set|].
      intros members o2 (_ & Hlen & Hmembers).
      eapply returns_bind.
      { apply returns_choice. intros ->. simpl in Hlen.
        symmetry in Hlen. apply size_empty_iff in Hlen.
        apply Hemp. by apply leibniz_equiv. }
      intros to_remove o3 Hr. apply Hmembers in Hr.
      eapply returns_bind; [apply returns_list_of_set|].
      intros potential_adds o4 (_ & _ & Hadds).
      destruct potential_adds as [|p rest]; [apply Hkeep|].
      eapply returns_bind; [by apply returns_choice|].
      intros to_add o5 Ha. apply Hadds, elem_of_difference in Ha as [HaV HaN].
      apply returns_ret. split.
      * intros y [[Hy _]%elem_of_difference| ->%elem_of_singleton]%elem_of_union;
          auto.
      * rewrite size_union, size_difference, !size_singleton by set_solver.
        assert (size N0 ≠ 0); [|lia].
        intros H0%size_empty_iff. apply Hemp. by apply leibniz_equiv.
  - intros N o2 [HmemN HsizeN].
    apply (returns_bind _ _ _
             (λ N' : gset str,
                N' ≠ ∅
                ∧ (∀ x, x ∈ N' → x ∈ N0 ∨ x ∈ vertex_set G)
                ∧ size N0 - 1 ≤ size N' ≤ size N0 + 1)).
    + case_bool_decide as HN; [|by apply returns_ret].
      subst N. rewrite size_empty in HsizeN.
      eapply returns_bind;
        [apply returns_choice; apply vertices_nonempty; lia|].
      intros x o3 Hx. cbv beta in Hx. apply returns_ret. split_and!.
      * intros Hemp. apply (not_elem_of_empty (C:=gset str) x).
        rewrite <- Hemp. set_solver.
      * intros y [Hy%elem_of_empty| ->%elem_of_singleton]%elem_of_union;
          [done|].
        right. unfold vertex_set. by apply elem_of_list_to_set.
      * rewrite union_empty_l_L, size_singleton. lia.
      * rewrite union_empty_l_L, size_singleton. lia.
    + intros N' o3 (HN' & Hmem' & Hsize').
      eapply returns_mono; [apply returns_list_of_set|].
      intros l (HND & Hlen & Hl). split_and!; [|done| |lia|lia].
      * intros ->. simpl in Hlen. symmetry in Hlen.
        apply size_empty_iff in Hlen. apply HN'. by apply leibniz_equiv.
      * intros x Hx%Hl. by apply Hmem'.
Qed.

Lemma sa_get_neighbor_invariants_witness :
  ∃ neighbor o',
    strategy_4_simulated_annealing._get_neighbor
      (strategy_4_simulated_annealing.mkSA (mkCube 3 3)
         (mkSearcher (mkCube 3 3)) 3 3 1%float 0.5%float 10 60
         (get_theoretical_code_size (mkSearcher (mkCube 3 3))))
      (map py ["010"; "101"]%string) (oracle_of [])
    = Ok (neighbor, o')
    ∧ neighbor ≠ [] ∧ NoDup neighbor
    ∧ (∀ x, x ∈ neighbor →
         x ∈ map py ["010"; "101"]%string ∨ x ∈ vertex_set (mkCube 3 3))
    ∧ size (list_to_set (C:=gset str) (map py ["010"; "101"]%string)) - 1
      ≤ length neighbor
      ≤ size (list_to_set (C:=gset str) (map py ["010"; "101"]%string)) + 1.
Proof.
  apply (sa_get_neighbor_invariants 3 3 1%float 0.5%float 10 60
           (strategy_4_simulated_annealing.mkSA (mkCube 3 3)
              (mkSearcher (mkCube 3 3)) 3 3 1%float 0.5%float 10 60
              (get_theoretical_code_size (mkSearcher (mkCube 3 3))))
           (map py ["010"; "101"]%string) (oracle_of [])).
  reflexivity.
Defined.

(** ** The edge cases at concrete inputs *)

Lemma create_coset_lengths_witness :
  create_coset [] (py "1") = Ok []
  ∧ length (map py ["10"; "01"]%string) = length (map py ["01"; "10"]%string).
Proof.
  split.
  - apply (proj1 (create_coset_lengths [] (py "1"))). reflexivity.
  - exact (proj1 (proj2 (proj2 (create_coset_lengths
                                  (map py ["01"; "10"]%string) (py "11")))
                    (map py ["10"; "01"]%string) eq_refl)).
Defined.

Lemma generate_hamming_code_shape_witness :
  generate_hamming_code 0 = Raise ValueError
  ∧ ∃ code, generate_hamming_code 2 = Ok code
      ∧ NoDup code
      ∧ head code = Some (replicate (Z.to_nat (2 ^ 2 - 1)) "0")
      ∧ ∀ v, v ∈ code → is_bits v ∧ length v = Z.to_nat (2 ^ 2 - 1).
Proof.
  split.
  - apply (proj2 (proj1 (generate_hamming_code_shape 0))). lia.
  - apply (proj2 (generate_hamming_code_shape 2)). lia.
Defined.

Lemma find_shift_vector_errors_witness :
  strategy_1_shift_search.find_shift_vector_by_weight 0 3 2 1
  = Raise ValueError
  ∧ strategy_1_shift_search.find_shift_vector_by_weight 3 3 2 (-1) = Ok None
  ∧ strategy_1_shift_search.find_shift_vector_by_weight 4 3 2 0
    = Raise ValueError.
Proof.
  split_and!.
  - apply (proj1 (find_shift_vector_errors 0 3 2 1)). left. lia.
  - apply (proj1 (proj2 (find_shift_vector_errors 3 3 2 (-1)))); lia.
  - apply (proj2 (proj2 (find_shift_vector_errors 4 3 2 0))); lia.
Defined.

Lemma find_best_shift_edges_witness :
  strategy_3_hybrid.find_best_shift_for_partition
    ∅ (map py ["000"; "111"]%string) 3 (-1) = Ok (None, (-1)%Z)
  ∧ strategy_3_hybrid.find_best_shift_for_partition
      ∅ (map py ["00"; "11"]%string) 3 0 = Raise ValueError.
Proof.
  split.
  - apply (proj1 (find_best_shift_edges ∅ (map py ["000"; "111"]%string)
                    3 (-1))). lia.
  - apply (proj2 (find_best_shift_edges ∅ (map py ["00"; "11"]%string) 3 0));
      [lia|].
    exists (py "00"). split; [reflexivity|]. simpl. lia.
Defined.

Lemma hamming_distance_metric_witness :
  ∃ dac, get_hamming_distance (py "000") (py "011") = Ok dac ∧ dac ≤ 1 + 1.
Proof.
  exact (proj2 (proj2 (proj2 (proj2
           (hamming_distance_metric (py "000") (py "010")))))
           (py "011") 1 1 eq_refl eq_refl).
Defined.
